(** * oomph-lib: the refinement tree (generic/tree.cc, generic/quadtree.h)
      and the pressure restriction of the refineable polar Crouzeix-Raviart
      element (polar_navier_stokes/refineable_polar_navier_stokes_elements.h).

    The C++ objects are embedded as follows.

    - A pointer is an address ([ptr], a natural number; [null] is 0).
    - A [Tree] owns its sons ([Vector<Tree*> Son_pt], deleted by the father's
      destructor), so a node is a record that holds its sons as a list of
      nodes; the node's own address ([this]) is the field [This], and the
      non-owning back references [Father_pt] and [Root_pt] are addresses.
    - A [RefineableElement] is reached through a pointer only and all its
      member functions are virtual calls into code outside tree.cc.  The
      [world] records what the tree code can observe of the elements (the
      back pointer written by [set_tree_pt], the unrefinement flag) and the
      sequence of calls and deletions issued so far ([trace]).
    - Member functions that change elements are computations in the state
      monad [M] over the world.
    - A [double] is an IEEE 754 binary64 number with the operations of
      the Standard Library's [SpecFloat] (round to nearest, ties to even).
    - A call that the C++ leaves undefined (an index outside a vector, a
      missing son) has no result: [None], or [Undefined].  In the state
      monad, the world records which elements have been deleted, and
      [Undefined_behaviour] is set by the [delete] of an element that is
      deleted already: what a computation does after that point says
      nothing about the C++.
    - An [int] is a 32-bit two's complement integer; [int_of_Z] is the
      wrap-around. *)

From Stdlib Require Import ZArith NArith List Lia Bool.
From Stdlib Require Import Floats.SpecFloat.
From stdpp Require Import base gmap strings list pretty.

Open Scope Z_scope.

(* ===================================================================== *)
(** ** Pointers and the state monad                                       *)
(* ===================================================================== *)

Definition ptr := N.
Definition null : ptr := 0%N.

(** Calls into the element interface and deallocations, in program order. *)
Inductive event :=
| Ev_set_tree_pt (object_pt tree_pt : ptr)
| Ev_sons_to_be_unrefined (object_pt : ptr)
| Ev_rebuild_from_sons (object_pt mesh_pt : ptr)
| Ev_unbuild (object_pt : ptr)
| Ev_deselect_sons_for_unrefinement (object_pt : ptr)
| Ev_delete_object (object_pt : ptr)
| Ev_delete_tree (tree_pt : ptr).

#[global] Instance event_eq_dec : EqDecision event.
Proof. solve_decision. Defined.

Record world := mkWorld {
  Tree_pt : gmap ptr ptr;
  Sons_to_be_unrefined : gset ptr;
  trace : list event;
  (** The elements that have been deleted. *)
  Deleted : gset ptr;
  (** Set by the [delete] of an element that is deleted already. *)
  Undefined_behaviour : bool }.

Definition M (A : Type) : Type := world -> A * world.

#[global] Instance M_ret : MRet M := fun A a w => (a, w).
#[global] Instance M_bind : MBind M :=
  fun A B k c w => let (a, w') := c w in k a w'.

Definition gets {A} (f : world -> A) : M A := fun w => (f w, w).
Definition modify (f : world -> world) : M unit := fun w => (tt, f w).

Definition log (e : event) : M unit :=
  modify (fun w =>
    mkWorld (Tree_pt w) (Sons_to_be_unrefined w) (trace w ++ [e])
            (Deleted w) (Undefined_behaviour w)).

(** [for (i = 0; i < v.size(); i++) body(v[i])] *)
Fixpoint for_each {A} (body : A -> M unit) (v : list A) : M unit :=
  match v with
  | [] => mret tt
  | x :: rest => body x ;; for_each body rest
  end.

Definition exec {A} (c : M A) (w : world) : world := snd (c w).
Definition eval {A} (c : M A) (w : world) : A := fst (c w).

Definition empty_world : world := mkWorld ∅ ∅ [] ∅ false.

(** The events a computation issues when started in the empty world. *)
Definition events_of {A} (c : M A) : list event :=
  trace (exec c empty_world).

(** A computation whose events do not depend on the world it starts in. *)
Definition emits {A} (c : M A) (tr : list event) : Prop :=
  forall w, trace (exec c w) = trace w ++ tr.

(** A computation that takes no element out of [Deleted] and does not
    clear [Undefined_behaviour]. *)
Definition grows {A} (c : M A) : Prop :=
  forall w,
    Deleted w ⊆ Deleted (exec c w)
    /\ (Undefined_behaviour w = true ->
        Undefined_behaviour (exec c w) = true).

Definition deleted_objects (tr : list event) : list ptr :=
  omap (fun e => match e with Ev_delete_object p => Some p | _ => None end) tr.

Definition deleted_trees (tr : list event) : list ptr :=
  omap (fun e => match e with Ev_delete_tree p => Some p | _ => None end) tr.

(* ===================================================================== *)
(** ** The element interface seen from the tree                           *)
(* ===================================================================== *)

Module RefineableElement.

(** Modelled from the spec: refineable_elements.h is not part of the
    sources.  [set_tree_pt]/[tree_pt] are the element-to-tree back
    reference (spec 6); the setter stores the pointer. *)
Definition set_tree_pt (object_pt tree_pt : ptr) : M unit :=
  log (Ev_set_tree_pt object_pt tree_pt) ;;
  modify (fun w =>
    mkWorld (<[object_pt := tree_pt]> (Tree_pt w))
            (Sons_to_be_unrefined w) (trace w)
            (Deleted w) (Undefined_behaviour w)).

Definition tree_pt (w : world) (object_pt : ptr) : ptr :=
  default null (Tree_pt w !! object_pt).

(** Modelled from the spec: [sons_to_be_unrefined] reads an element-local
    flag and [deselect_sons_for_unrefinement] clears it (spec 4.4). *)
Definition sons_to_be_unrefined (object_pt : ptr) : M bool :=
  log (Ev_sons_to_be_unrefined object_pt) ;;
  gets (fun w => bool_decide (object_pt ∈ Sons_to_be_unrefined w)).

Definition deselect_sons_for_unrefinement (object_pt : ptr) : M unit :=
  log (Ev_deselect_sons_for_unrefinement object_pt) ;;
  modify (fun w =>
    mkWorld (Tree_pt w)
            (Sons_to_be_unrefined w ∖ {[object_pt]}) (trace w)
            (Deleted w) (Undefined_behaviour w)).

(** Pure virtual in the element base class; each element family has its
    own body (see [PolarCR.rebuild_from_sons] for one).  The tree only
    issues the call. *)
Definition rebuild_from_sons (object_pt mesh_pt : ptr) : M unit :=
  log (Ev_rebuild_from_sons object_pt mesh_pt).

Definition unbuild (object_pt : ptr) : M unit :=
  log (Ev_unbuild object_pt).

(** [delete object_pt;]: the element is destroyed, so its members are
    gone from the world, and it is recorded in [Deleted].  On the null
    pointer [delete] has no effect.  On an element that is deleted
    already it is undefined: [Undefined_behaviour] is set. *)
Definition delete_object (object_pt : ptr) : M unit :=
  log (Ev_delete_object object_pt) ;;
  if decide (object_pt = null) then mret tt
  else
    modify (fun w =>
      mkWorld (delete object_pt (Tree_pt w))
              (Sons_to_be_unrefined w ∖ {[object_pt]}) (trace w)
              ({[object_pt]} ∪ Deleted w)
              (Undefined_behaviour w ||
               bool_decide (object_pt ∈ Deleted w))).

End RefineableElement.

(* ===================================================================== *)
(** ** Tree (generic/tree.cc)                                             *)
(* ===================================================================== *)

Module TreeNS.
Import RefineableElement.

(** [const int Tree::OMEGA = 26;] *)
Definition OMEGA : Z := 26.

Definition INT_MIN : Z := -2147483648.

(** The [int] a result has: the value itself when it is in the range of
    [int], and the value modulo [2 ^ 32] that is in the range when it is
    not (the sum [INT_MAX + 1] comes out as [INT_MIN]). *)
Definition int_of_Z (z : Z) : Z := (z - INT_MIN) mod 2 ^ 32 + INT_MIN.

(** The data members of [Tree].  tree.h is not part of the sources; the
    members are the ones tree.cc assigns.  [Level] and [Son_type] are
    [int]s. *)
#[local] Unset Elimination Schemes.
Inductive Tree := mkTree {
  This : ptr;
  Object_pt : ptr;
  Father_pt : ptr;
  Son_type : Z;
  Level : Z;
  Root_pt : ptr;
  Son_pt : list Tree }.
#[local] Set Elimination Schemes.

Definition object_pt (t : Tree) : ptr := Object_pt t.
Definition nsons (t : Tree) : nat := length (Son_pt t).

(** [Tree::Tree(RefineableElement* const& object_pt)], run on storage at
    address [this]. *)
Definition Tree_ctor_root (this object_pt : ptr) : M Tree :=
  let t := {| This := this;
              Object_pt := object_pt;
              Father_pt := null;
              Son_type := OMEGA;
              Level := 0;
              Root_pt := null;
              Son_pt := [] |} in
  set_tree_pt object_pt this ;;
  mret t.

(** [Tree::Tree(object_pt, father_pt, son_type)]; [father] is the node
    [father_pt] points to. *)
Definition Tree_ctor_son (this object_pt : ptr) (father : Tree)
    (son_type : Z) : M Tree :=
  let t := {| This := this;
              Object_pt := object_pt;
              Father_pt := This father;
              Son_type := son_type;
              Level := int_of_Z (Level father + 1);
              Son_pt := [];
              Root_pt := Root_pt father |} in
  set_tree_pt object_pt this ;;
  mret t.

(** [Tree::~Tree()].  [delete Son_pt[i]] runs the son's destructor and
    then releases the son's storage.  The pointers the destructor sets to
    0 belong to the node that is going away and are not kept. *)
Fixpoint Tree_dtor (t : Tree) : M unit :=
  let nsons := length (Son_pt t) in
  (fix loop (sons : list Tree) : M unit :=
     match sons with
     | [] => mret tt
     | son :: rest =>
         Tree_dtor son ;; log (Ev_delete_tree (This son)) ;; loop rest
     end) (Son_pt t) ;;
  if decide (0 < nsons)%nat then delete_object (Object_pt t) else mret tt.

(** [delete tree_pt;] for a [Tree*]. *)
Definition delete_tree (t : Tree) : M unit :=
  Tree_dtor t ;; log (Ev_delete_tree (This t)).

(** A [Tree::VoidMemberFctPt]: a member function run on a node, acting
    on the world. *)
Definition VoidMemberFctPt := Tree -> M unit.

(** A member function together with the node it leaves: a function such
    as [Tree::merge_sons_if_required] changes the sons of the node it is
    run on. *)
Definition NodeMemberFctPt := Tree -> M Tree.

(** A member function that leaves the node as it is. *)
Definition keeps_node (member_function : VoidMemberFctPt)
    : NodeMemberFctPt :=
  fun t => member_function t ;; mret t.

(** The node with other sons. *)
Definition with_sons (t : Tree) (sons : list Tree) : Tree :=
  {| This := This t; Object_pt := Object_pt t; Father_pt := Father_pt t;
     Son_type := Son_type t; Level := Level t; Root_pt := Root_pt t;
     Son_pt := sons |}.

(** [for (i = 0; i < numsons; i++) Son_pt[i]->traverse(...)], where the
    traversal of a son gives the son as it leaves it, or [None]. *)
Fixpoint traverse_sons (traverse : Tree -> M (option Tree))
    (sons : list Tree) : M (option (list Tree)) :=
  match sons with
  | [] => mret (Some [])
  | son :: rest =>
      son ← traverse son ;
      match son with
      | None => mret None
      | Some son =>
          rest ← traverse_sons traverse rest ;
          mret (cons son <$> rest)
      end
  end.

(** [Tree::traverse_all(member_function)].  The member function is run
    first and [Son_pt.size()] is read after it, so the traversal goes on
    into the sons the member function leaves; a member function that
    adds sons to every node makes it go on for ever.  [fuel] bounds the
    depth of the recursion; the result is the node as the traversal
    leaves it, [None] when the bound is reached. *)
Fixpoint traverse_all (fuel : nat) (member_function : NodeMemberFctPt)
    (t : Tree) : M (option Tree) :=
  match fuel with
  | O => mret None
  | S fuel =>
      t ← member_function t ;
      sons ← traverse_sons (traverse_all fuel member_function) (Son_pt t) ;
      mret (with_sons t <$> sons)
  end.

(** [Tree::traverse_all_but_leaves(member_function)] *)
Fixpoint traverse_all_but_leaves (member_function : VoidMemberFctPt)
    (t : Tree) : M unit :=
  let n_sons := length (Son_pt t) in
  if decide (0 < n_sons)%nat then
    member_function t ;;
    (fix loop (sons : list Tree) : M unit :=
       match sons with
       | [] => mret tt
       | son :: rest =>
           traverse_all_but_leaves member_function son ;; loop rest
       end) (Son_pt t)
  else mret tt.

(** [Tree::traverse_leaves(member_function)] *)
Fixpoint traverse_leaves (member_function : VoidMemberFctPt) (t : Tree)
    : M unit :=
  let numsons := length (Son_pt t) in
  if decide (0 < numsons)%nat then
    (fix loop (sons : list Tree) : M unit :=
       match sons with
       | [] => mret tt
       | son :: rest => traverse_leaves member_function son ;; loop rest
       end) (Son_pt t)
  else member_function t.

(** A [Tree::VoidMeshPtArgumentMemberFctPt]: a member function that takes
    the mesh pointer. *)
Definition VoidMeshPtArgumentMemberFctPt := Tree -> ptr -> M unit.

(** A member function that takes the mesh pointer, together with the
    node it leaves. *)
Definition NodeMeshPtArgumentMemberFctPt := Tree -> ptr -> M Tree.

(** [Tree::traverse_all(member_function, mesh_pt)]; [fuel] and the
    result as for [traverse_all]. *)
Fixpoint traverse_all_mesh (fuel : nat)
    (member_function : NodeMeshPtArgumentMemberFctPt) (t : Tree)
    (mesh_pt : ptr) : M (option Tree) :=
  match fuel with
  | O => mret None
  | S fuel =>
      t ← member_function t mesh_pt ;
      sons ← traverse_sons
               (fun son => traverse_all_mesh fuel member_function son mesh_pt)
               (Son_pt t) ;
      mret (with_sons t <$> sons)
  end.

(** [Tree::traverse_leaves(member_function, mesh_pt)] *)
Fixpoint traverse_leaves_mesh
    (member_function : VoidMeshPtArgumentMemberFctPt) (t : Tree)
    (mesh_pt : ptr) : M unit :=
  let numsons := length (Son_pt t) in
  if decide (0 < numsons)%nat then
    (fix loop (sons : list Tree) : M unit :=
       match sons with
       | [] => mret tt
       | son :: rest =>
           traverse_leaves_mesh member_function son mesh_pt ;; loop rest
       end) (Son_pt t)
  else member_function t mesh_pt.

(** [Tree::stick_leaves_into_vector(tree_nodes)].  A [Tree*] stored in
    the vector is represented by the node it points to. *)
Fixpoint stick_leaves_into_vector (t : Tree) (tree_nodes : list Tree)
    : list Tree :=
  let numsons := length (Son_pt t) in
  if decide (0 < numsons)%nat then
    (fix loop (sons : list Tree) (tree_nodes : list Tree) : list Tree :=
       match sons with
       | [] => tree_nodes
       | son :: rest => loop rest (stick_leaves_into_vector son tree_nodes)
       end) (Son_pt t) tree_nodes
  else tree_nodes ++ [t].

(** [Tree::stick_all_tree_nodes_into_vector(all_tree_nodes)] *)
Fixpoint stick_all_tree_nodes_into_vector (t : Tree)
    (all_tree_nodes : list Tree) : list Tree :=
  let all_tree_nodes := all_tree_nodes ++ [t] in
  let numsons := length (Son_pt t) in
  if decide (0 < numsons)%nat then
    (fix loop (sons : list Tree) (all_tree_nodes : list Tree) : list Tree :=
       match sons with
       | [] => all_tree_nodes
       | son :: rest =>
           loop rest (stick_all_tree_nodes_into_vector son all_tree_nodes)
       end) (Son_pt t) all_tree_nodes
  else all_tree_nodes.

(** [Son_pt.resize(0)] *)
Definition resize_sons_0 (t : Tree) : Tree :=
  {| This := This t; Object_pt := Object_pt t; Father_pt := Father_pt t;
     Son_type := Son_type t; Level := Level t; Root_pt := Root_pt t;
     Son_pt := [] |}.

(** [Tree::merge_sons_if_required(mesh_pt)]; returns the node as the call
    leaves it. *)
Definition merge_sons_if_required (t : Tree) (mesh_pt : ptr) : M Tree :=
  unrefine ← sons_to_be_unrefined (Object_pt t) ;
  if (unrefine : bool) then
    rebuild_from_sons (object_pt t) mesh_pt ;;
    for_each (fun son =>
                unbuild (object_pt son) ;;
                delete_object (object_pt son) ;;
                delete_tree son) (Son_pt t) ;;
    let t := resize_sons_0 t in
    deselect_sons_for_unrefinement (Object_pt t) ;;
    mret t
  else mret t.

(** *** Terms used in the statements about trees *)

(** The nodes of a tree, father before sons, sons in [Son_pt] order. *)
Fixpoint preorder (t : Tree) : list Tree :=
  t :: concat (map preorder (Son_pt t)).

(** The nodes of a tree, sons (in [Son_pt] order) before the father. *)
Fixpoint postorder (t : Tree) : list Tree :=
  concat (map postorder (Son_pt t)) ++ [t].

Definition is_leaf (t : Tree) : Prop := nsons t = 0%nat.

(** The number of levels of a tree: 1 for a node without sons. *)
Fixpoint height (t : Tree) : nat :=
  S (foldr Nat.max 0%nat (map height (Son_pt t))).

#[global] Instance is_leaf_dec t : Decision (is_leaf t).
Proof. unfold is_leaf. apply _. Defined.


(** What [delete son_pt] issues for one son. *)
Definition delete_son_events (son : Tree) : list event :=
  events_of (Tree_dtor son) ++ [Ev_delete_tree (This son)].

(** What the destructor body issues for the node itself. *)
Definition own_object_events (t : Tree) : list event :=
  if decide (0 < length (Son_pt t))%nat
  then [Ev_delete_object (Object_pt t)] else [].

(** What the loop body of [merge_sons_if_required] issues for one son. *)
Definition kill_son_events (son : Tree) : list event :=
  [Ev_unbuild (Object_pt son); Ev_delete_object (Object_pt son)] ++
  events_of (Tree_dtor son) ++ [Ev_delete_tree (This son)].

(** A tree used in the examples: root 1 (element 10) with the sons 2
    (element 20), 3 (element 30) and 4 (element 40); node 3 has the one
    son 5 (element 50). *)
Definition some_leaf (this object_pt father_pt : ptr) (son_type level : Z)
    : Tree :=
  mkTree this object_pt father_pt son_type level 1%N [].
Definition some_tree : Tree :=
  mkTree 1%N 10%N null OMEGA 0 1%N
    [some_leaf 2%N 20%N 1%N 0 1;
     mkTree 3%N 30%N 1%N 1 1 1%N [some_leaf 5%N 50%N 3%N 0 2];
     some_leaf 4%N 40%N 1%N 2 1].

(** A node used in the examples: node 3 (element 30) with four sons
    without sons. *)
Definition some_father : Tree :=
  mkTree 3%N 30%N 1%N 1 1 1%N
    [some_leaf 6%N 60%N 3%N 0 2; some_leaf 7%N 70%N 3%N 1 2;
     some_leaf 8%N 80%N 3%N 2 2; some_leaf 9%N 90%N 3%N 3 2].


(** The loop body of [merge_sons_if_required]. *)
Definition kill_son (son : Tree) : M unit :=
  unbuild (object_pt son) ;;
  delete_object (object_pt son) ;;
  delete_tree son.

(** A quadtree used in the examples: root 1 with the four sons 2, 3, 4
    and 5, of which son 3 (the south east one) has four sons again. *)
Definition some_quadtree : Tree :=
  mkTree 1%N 10%N null OMEGA 0 1%N
    [some_leaf 2%N 20%N 1%N 0 1;
     mkTree 3%N 30%N 1%N 1 1 1%N
       [some_leaf 6%N 60%N 3%N 0 2; some_leaf 7%N 70%N 3%N 1 2;
        some_leaf 8%N 80%N 3%N 2 2; some_leaf 9%N 90%N 3%N 3 2];
     some_leaf 4%N 40%N 1%N 2 1;
     some_leaf 5%N 50%N 1%N 3 1].

End TreeNS.

(* ===================================================================== *)
(** ** TreeForest (generic/tree.cc)                                       *)
(* ===================================================================== *)

Module TreeForestNS.
Import RefineableElement TreeNS.

(** The data member of [TreeForest], [Vector<TreeRoot*> Trees_pt].  A
    pointer to a root is represented by the tree it points to; [None] is
    the null pointer. *)
Record TreeForest := mkTreeForest { Trees_pt : list (option Tree) }.

(** [TreeForest::TreeForest(trees_pt) : Trees_pt(trees_pt) {}] *)
Definition TreeForest_ctor (trees_pt : list (option Tree)) : TreeForest :=
  mkTreeForest trees_pt.

(** [ntree()] is [Trees_pt.size()]. *)
Definition ntree (f : TreeForest) : nat := length (Trees_pt f).

(** [delete p;] for a [TreeRoot*]; deleting the null pointer does
    nothing. *)
Definition delete_tree_root (p : option Tree) : M unit :=
  match p with
  | Some t => delete_tree t
  | None => mret tt
  end.

(** The loop of the destructor from index [i] on, [n] rounds to go:
    [delete Trees_pt[i]; Trees_pt[i] = 0;]. *)
Fixpoint TreeForest_dtor_loop (n i : nat) (trees_pt : list (option Tree))
    : M (list (option Tree)) :=
  match n with
  | O => mret trees_pt
  | S n =>
      delete_tree_root (default None (trees_pt !! i)) ;;
      TreeForest_dtor_loop n (S i) (<[i := None]> trees_pt)
  end.

(** [TreeForest::~TreeForest()]; returns the forest as the body leaves
    it. *)
Definition TreeForest_dtor (f : TreeForest) : M TreeForest :=
  let numtrees := length (Trees_pt f) in
  trees_pt ← TreeForest_dtor_loop numtrees 0 (Trees_pt f) ;
  mret (mkTreeForest trees_pt).

(** The loops over the trees of the two [stick] functions.  A call
    through a null [tree_pt(itree)] is not defined. *)
Fixpoint stick_leaves_loop (trees_pt : list (option Tree))
    (forest_nodes : list Tree) : option (list Tree) :=
  match trees_pt with
  | [] => Some forest_nodes
  | tree_pt :: rest =>
      t ← tree_pt ;
      let numsons := nsons t in
      if decide (0 < numsons)%nat then
        stick_leaves_loop rest
          ((fix loop (sons : list Tree) (forest_nodes : list Tree)
              : list Tree :=
              match sons with
              | [] => forest_nodes
              | son :: sons =>
                  loop sons (TreeNS.stick_leaves_into_vector son forest_nodes)
              end) (Son_pt t) forest_nodes)
      else stick_leaves_loop rest (forest_nodes ++ [t])
  end.

(** [TreeForest::stick_leaves_into_vector(forest_nodes)] *)
Definition stick_leaves_into_vector (f : TreeForest)
    (forest_nodes : list Tree) : option (list Tree) :=
  stick_leaves_loop (Trees_pt f) forest_nodes.

Fixpoint stick_all_loop (trees_pt : list (option Tree))
    (all_forest_nodes : list Tree) : option (list Tree) :=
  match trees_pt with
  | [] => Some all_forest_nodes
  | tree_pt :: rest =>
      t ← tree_pt ;
      let all_forest_nodes := all_forest_nodes ++ [t] in
      let numsons := nsons t in
      if decide (0 < numsons)%nat then
        stick_all_loop rest
          ((fix loop (sons : list Tree) (all_forest_nodes : list Tree)
              : list Tree :=
              match sons with
              | [] => all_forest_nodes
              | son :: sons =>
                  loop sons (TreeNS.stick_all_tree_nodes_into_vector
                               son all_forest_nodes)
              end) (Son_pt t) all_forest_nodes)
      else stick_all_loop rest all_forest_nodes
  end.

(** [TreeForest::stick_all_tree_nodes_into_vector(all_forest_nodes)] *)
Definition stick_all_tree_nodes_into_vector (f : TreeForest)
    (all_forest_nodes : list Tree) : option (list Tree) :=
  stick_all_loop (Trees_pt f) all_forest_nodes.

(** What is done to a stream: [close()] through the pointer, and
    [delete]. *)
Inductive stream_event :=
| Ev_close (stream_pt : ptr)
| Ev_delete_stream (stream_pt : ptr).

(** The second loop of [close_hanging_node_files]:
    [for (n = n_file; n > 0; n--)
       { delete output_stream[n - 1]; output_stream[n - 1] = 0; }].
    Deleting the null pointer does nothing. *)
Fixpoint delete_streams_loop (n : nat) (output_stream : list ptr)
    (done : list stream_event) : list ptr * list stream_event :=
  match n with
  | O => (output_stream, done)
  | S n' =>
      let p := default null (output_stream !! n') in
      let done :=
        if decide (p = null) then done else done ++ [Ev_delete_stream p] in
      delete_streams_loop n' (<[n' := null]> output_stream) done
  end.

(** The first loop: [output_stream[n]->close()], not defined on a null
    pointer. *)
Fixpoint close_streams_loop (output_stream : list ptr)
    (done : list stream_event) : option (list stream_event) :=
  match output_stream with
  | [] => Some done
  | p :: rest =>
      if decide (p = null) then None
      else close_streams_loop rest (done ++ [Ev_close p])
  end.

(** [TreeForest::close_hanging_node_files(doc_info, output_stream)];
    [is_doc_enabled] is the answer of [doc_info.is_doc_enabled()].
    The result is the vector as the call leaves it and what was done to
    the streams, in order. *)
Definition close_hanging_node_files (is_doc_enabled : bool)
    (output_stream : list ptr) : option (list ptr * list stream_event) :=
  let n_file := length output_stream in
  done ← (if is_doc_enabled then close_streams_loop output_stream []
          else Some []) ;
  let '(output_stream, done) :=
    delete_streams_loop n_file output_stream done in
  (* output_stream.clear() *)
  let output_stream : list ptr := [] in
  Some (output_stream, done).

(** *** Terms used in the statements about forests *)

(** The trees of a forest none of whose pointers is null; [None] if one
    is. *)
Definition trees_of (f : TreeForest) : option (list Tree) :=
  mapM id (Trees_pt f).

(** What [delete] issues for one entry of [Trees_pt]. *)
Definition delete_root_events (p : option Tree) : list event :=
  match p with
  | Some t => delete_son_events t
  | None => []
  end.

(** A forest used in the examples: [some_tree] and a root without
    sons. *)
Definition some_forest : TreeForest :=
  mkTreeForest [Some some_tree; Some (some_leaf 11%N 110%N null OMEGA 0)].

End TreeForestNS.

(* ===================================================================== *)
(** ** Errors                                                             *)
(* ===================================================================== *)

(** [OomphLibError(error_message, function_name, location)] *)
Record OomphLibError := mkOomphLibError {
  error_message : string;
  function_name : string;
  location : string }.

(** How a call ends: it returns, it throws, or it leaves defined
    behaviour (an index outside a [Vector]). *)
Inductive outcome (A : Type) : Type :=
| Returns (a : A)
| Throws (e : OomphLibError)
| Undefined.
Arguments Returns {A} a.
Arguments Throws {A} e.
Arguments Undefined {A}.

(** The places in quadtree.h where [OOMPH_CURRENT_FUNCTION] and
    [OOMPH_EXCEPTION_LOCATION] are expanded. *)
Inductive throw_site :=
| In_QuadTree_default_ctor
| In_QuadTreeRoot_ctor
| In_QuadTreeRoot_north_equivalent
| In_QuadTreeForest_default_ctor.

(** [std::endl] *)
Definition endl : string := String (Ascii.ascii_of_nat 10) EmptyString.

(* ===================================================================== *)
(** ** QuadTree, QuadTreeRoot, QuadTreeForest (generic/quadtree.h)        *)
(* ===================================================================== *)

Module QuadTreeNames.
(** [enum { SW, SE, NW, NE, N, E, S, W, OMEGA = 26 };] *)
Definition SW : Z := 0.
Definition SE : Z := 1.
Definition NW : Z := 2.
Definition NE : Z := 3.
Definition N : Z := 4.
Definition E : Z := 5.
Definition S : Z := 6.
Definition W : Z := 7.
Definition OMEGA : Z := 26.
End QuadTreeNames.

Module QuadTreeNS.
Import TreeNS.

(** [v[i]] on a [Vector<int>]: the cell at index [i]; outside the vector
    the access is not defined. *)
Record int_ref := mk_int_ref { ref_index : nat }.

Definition Vector_index (v : list Z) (i : Z) : outcome int_ref :=
  if decide (0 <= i < Z.of_nat (length v)) then
    Returns (mk_int_ref (Z.to_nat i))
  else Undefined.

(** [v[i]] read on a [Vector<std::string>]; outside the vector the
    access is not defined. *)
Definition Vector_read {A} (v : list A) (i : Z) : option A :=
  if decide (0 <= i) then v !! Z.to_nat i else None.

Record QuadTreeRoot := mkQuadTreeRoot {
  tree : Tree;
  (** Modelled from the spec: [TreeRoot::Neighbour_pt] is declared in
      tree.h, which is not part of the sources; it holds the pointer to
      the neighbouring root in each direction, null where there is
      none (spec 3). *)
  Neighbour_pt : gmap Z ptr;
  North_equivalent : list Z }.

(** Reading and writing through an [int&] into [North_equivalent]. *)
Definition load (r : QuadTreeRoot) (x : int_ref) : option Z :=
  North_equivalent r !! ref_index x.
Definition store (r : QuadTreeRoot) (x : int_ref) (v : Z) : QuadTreeRoot :=
  mkQuadTreeRoot (tree r) (Neighbour_pt r)
                 (<[ref_index x := v]> (North_equivalent r)).

(** [Neighbour_pt[direction]] *)
Definition neighbour_pt (r : QuadTreeRoot) (direction : Z) : ptr :=
  default null (Neighbour_pt r !! direction).

(** Modelled from the spec: the body of [TreeRoot::TreeRoot] (tree.h) sets
    the root pointer of the root to the root itself ("Root pointer must
    be set in the TreeRoot constructor", tree.cc). *)
Definition TreeRoot_ctor_body (t : Tree) : Tree :=
  {| This := This t; Object_pt := Object_pt t; Father_pt := Father_pt t;
     Son_type := Son_type t; Level := Level t; Root_pt := This t;
     Son_pt := Son_pt t |}.

Section Build.
(** Whether the library is compiled with [-DPARANOID]. *)
Variable PARANOID : bool.
(** The two context macros (oomph_definitions.h, not part of the
    sources) at each place they are expanded. *)
Variable OOMPH_CURRENT_FUNCTION : throw_site -> string.
Variable OOMPH_EXCEPTION_LOCATION : throw_site -> string.
(** [QuadTree::Direct_string], a [Vector<std::string>] that is filled in
    quadtree.cc. *)
Variable Direct_string : list string.

Definition OomphLibError_at (message : string) (site : throw_site)
    : OomphLibError :=
  mkOomphLibError message (OOMPH_CURRENT_FUNCTION site)
                  (OOMPH_EXCEPTION_LOCATION site).

(** [QuadTree::QuadTree()].  The default constructor of the base class
    runs first; [base] is the error it throws, if it throws. *)
Definition QuadTree_default_ctor (base : option OomphLibError)
    : outcome Tree :=
  match base with
  | Some e => Throws e
  | None =>
      Throws (OomphLibError_at
                "Don't call an empty constructor for a QuadTree object"
                In_QuadTree_default_ctor)
  end.

(** [QuadTree::construct_son]: [new QuadTree(object_pt, father_pt,
    son_type)], the storage being at [this]. *)
Definition construct_son (this object_pt : ptr) (father : Tree)
    (son_type : Z) : M Tree :=
  Tree_ctor_son this object_pt father son_type.

(** [QuadTreeRoot::QuadTreeRoot(object_pt)]: the base constructors
    [Tree(object_pt)], [QuadTree(object_pt)], [TreeRoot(object_pt)],
    then the body. *)
Definition QuadTreeRoot_ctor (Static_data_has_been_setup : bool)
    (this object_pt : ptr) : M (outcome QuadTreeRoot) :=
  t ← Tree_ctor_root this object_pt ;
  let t := TreeRoot_ctor_body t in
  if PARANOID && negb Static_data_has_been_setup then
    let error_message :=
      ("Static member data hasn't been setup yet." ++ endl ++
       "Call QuadTree::setup_static_data() before creating" ++ endl ++
       "any QuadTreeRoots" ++ endl)%string in
    mret (Throws (OomphLibError_at error_message In_QuadTreeRoot_ctor))
  else
    let North_equivalent := replicate 27 0 in
    let North_equivalent :=
      <[Z.to_nat QuadTreeNames.N := QuadTreeNames.N]> North_equivalent in
    let North_equivalent :=
      <[Z.to_nat QuadTreeNames.E := QuadTreeNames.N]> North_equivalent in
    let North_equivalent :=
      <[Z.to_nat QuadTreeNames.W := QuadTreeNames.N]> North_equivalent in
    let North_equivalent :=
      <[Z.to_nat QuadTreeNames.S := QuadTreeNames.N]> North_equivalent in
    mret (Returns (mkQuadTreeRoot t ∅ North_equivalent)).

(** [int& QuadTreeRoot::north_equivalent(const int& neighbour)] *)
Definition north_equivalent (r : QuadTreeRoot) (neighbour : Z)
    : outcome int_ref :=
  if PARANOID &&
     (bool_decide (neighbour ≠ QuadTreeNames.S) &&
      bool_decide (neighbour ≠ QuadTreeNames.N) &&
      bool_decide (neighbour ≠ QuadTreeNames.W) &&
      bool_decide (neighbour ≠ QuadTreeNames.E))
  then
    match Vector_read Direct_string neighbour with
    | Some direct_string =>
        let error_message :=
          ("The neighbour can only be N,S,E,W, not" ++
           direct_string ++ endl)%string in
        Throws (OomphLibError_at error_message
                                 In_QuadTreeRoot_north_equivalent)
    | None => Undefined
    end
  else Vector_index (North_equivalent r) neighbour.

(** [north_equivalent(neighbour) = v;]: the assignment through the
    reference the call returns. *)
Definition set_north_equivalent (r : QuadTreeRoot) (neighbour v : Z)
    : outcome QuadTreeRoot :=
  match north_equivalent r neighbour with
  | Returns x => Returns (store r x v)
  | Throws e => Throws e
  | Undefined => Undefined
  end.

(** [int v = north_equivalent(neighbour);]: the value read through the
    reference the call returns. *)
Definition get_north_equivalent (r : QuadTreeRoot) (neighbour : Z)
    : outcome Z :=
  match north_equivalent r neighbour with
  | Returns x =>
      match load r x with
      | Some v => Returns v
      | None => Undefined
      end
  | Throws e => Throws e
  | Undefined => Undefined
  end.

(** [QuadTreeForest::QuadTreeForest()]; [base] as for
    [QuadTree_default_ctor]. *)
Definition QuadTreeForest_default_ctor (base : option OomphLibError)
    : outcome (list QuadTreeRoot) :=
  match base with
  | Some e => Throws e
  | None =>
      Throws (OomphLibError_at
          "Don't call an empty constructor for a QuadTreeForest object"
          In_QuadTreeForest_default_ctor)
  end.

End Build.

(** [int QuadTreeRoot::direction_of_neighbour(quadtree_root_pt)] *)
Definition direction_of_neighbour (r : QuadTreeRoot)
    (quadtree_root_pt : ptr) : Z :=
  if decide (neighbour_pt r QuadTreeNames.N = quadtree_root_pt) then
    QuadTreeNames.N
  else if decide (neighbour_pt r QuadTreeNames.E = quadtree_root_pt) then
    QuadTreeNames.E
  else if decide (neighbour_pt r QuadTreeNames.S = quadtree_root_pt) then
    QuadTreeNames.S
  else if decide (neighbour_pt r QuadTreeNames.W = quadtree_root_pt) then
    QuadTreeNames.W
  else QuadTreeNames.OMEGA.

(** *** Terms used in the statements about quadtrees *)

(** [neighbour_pt(direction) = p]: the root with one neighbour pointer
    assigned. *)
Definition set_neighbour (r : QuadTreeRoot) (direction : Z) (p : ptr)
    : QuadTreeRoot :=
  mkQuadTreeRoot (tree r) (<[direction := p]> (Neighbour_pt r))
                 (North_equivalent r).

(** The four directions in the order [direction_of_neighbour] tests
    them. *)
Definition NESW : list Z :=
  [QuadTreeNames.N; QuadTreeNames.E; QuadTreeNames.S; QuadTreeNames.W].

(** The error thrown by the constructor of [QuadTreeRoot]. *)
Definition static_data_error (F L : throw_site -> string) : OomphLibError :=
  mkOomphLibError
    ("Static member data hasn't been setup yet." ++ endl ++
     "Call QuadTree::setup_static_data() before creating" ++ endl ++
     "any QuadTreeRoots" ++ endl)%string
    (F In_QuadTreeRoot_ctor) (L In_QuadTreeRoot_ctor).

(** The root the constructor of [QuadTreeRoot] builds at [this]. *)
Definition fresh_root (this object_pt : ptr) : QuadTreeRoot :=
  mkQuadTreeRoot
    (mkTree this object_pt null TreeNS.OMEGA 0 this [])
    ∅
    [0; 0; 0; 0; QuadTreeNames.N; QuadTreeNames.N; QuadTreeNames.N;
     QuadTreeNames.N; 0; 0; 0; 0; 0; 0; 0; 0; 0; 0; 0; 0; 0; 0; 0; 0; 0;
     0; 0].

(** Context strings used where a concrete build is needed. *)
Definition some_function (s : throw_site) : string :=
  match s with
  | In_QuadTree_default_ctor => "QuadTree::QuadTree()"
  | In_QuadTreeRoot_ctor => "QuadTreeRoot::QuadTreeRoot(...)"
  | In_QuadTreeRoot_north_equivalent => "QuadTreeRoot::north_equivalent(...)"
  | In_QuadTreeForest_default_ctor => "QuadTreeForest::QuadTreeForest()"
  end.
Definition some_location (s : throw_site) : string := "quadtree.h".
(** A table of 27 direction names used in the examples: the names of
    the enumeration at their values, the other entries empty. *)
Definition some_Direct_string : list string :=
  ["SW"; "SE"; "NW"; "NE"; "N"; "E"; "S"; "W"] ++
  replicate 18 EmptyString ++ ["OMEGA"].

(** The error thrown by [north_equivalent] for the direction with the
    name [direct_string]. *)
Definition neighbour_error (F L : throw_site -> string)
    (direct_string : string) : OomphLibError :=
  mkOomphLibError
    ("The neighbour can only be N,S,E,W, not" ++
     direct_string ++ endl)%string
    (F In_QuadTreeRoot_north_equivalent)
    (L In_QuadTreeRoot_north_equivalent).

Definition NSEW_dec (neighbour : Z) : bool :=
  bool_decide (neighbour = QuadTreeNames.N \/ neighbour = QuadTreeNames.S \/
               neighbour = QuadTreeNames.E \/ neighbour = QuadTreeNames.W).

(** A root used in the examples: no neighbour to the north and south,
    the root at address 7 to the east and to the west. *)
Definition some_root : QuadTreeRoot :=
  set_neighbour (set_neighbour (fresh_root 1%N 2%N) QuadTreeNames.E 7%N)
                QuadTreeNames.W 7%N.

End QuadTreeNS.

(* ===================================================================== *)
(** ** RefineablePolarCrouzeixRaviartElement: pressure restriction        *)
(* ===================================================================== *)

Module PolarCR.

(** A [double] is an IEEE 754 binary64 number; sums, differences and
    products are rounded to nearest, ties to even. *)
Definition double := spec_float.
Definition prec : Z := 53.
Definition emax : Z := 1024.
Definition d_add : double -> double -> double := SFadd prec emax.
Definition d_sub : double -> double -> double := SFsub prec emax.
Definition d_mul : double -> double -> double := SFmul prec emax.
(** [x == y] on doubles *)
Definition d_eqb : double -> double -> bool := SFeqb.

(** The literals [0.0], [0.25], [0.5] and [-0.5]. *)
Definition lit_0 : double := S754_zero false.
Definition lit_0_25 : double := S754_finite false 4503599627370496 (-54).
Definition lit_0_5 : double := S754_finite false 4503599627370496 (-53).
Definition lit_minus_0_5 : double := S754_finite true 4503599627370496 (-53).

(** [Data]: a vector of values. *)
Record Data := mkData { Value : list double }.

Definition value (d : Data) (i : nat) : option double := Value d !! i.

Definition set_value (d : Data) (i : nat) (x : double) : option Data :=
  if decide (i < length (Value d))%nat
  then Some (mkData (<[i := x]> (Value d)))
  else None.

(** The element as far as the pressure is concerned: its internal
    [Data] objects. *)
Record Element := mkElement { Internal_data_pt : list Data }.

Definition internal_data_pt (e : Element) (i : nat) : option Data :=
  Internal_data_pt e !! i.

Section Pressure.
(** [P_pnst_internal_index]: which internal [Data] stores the
    pressure. *)
Variable P_pnst_internal_index : nat.

(** [internal_data_pt(P_pnst_internal_index)->set_value(i, x)] *)
Definition set_pressure_value (e : Element) (i : nat) (x : double)
    : option Element :=
  d ← internal_data_pt e P_pnst_internal_index ;
  d' ← set_value d i x ;
  Some (mkElement (<[P_pnst_internal_index := d']> (Internal_data_pt e))).

(** [internal_data_pt(P_pnst_internal_index)->value(i)] *)
Definition pressure_value (e : Element) (i : nat) : option double :=
  d ← internal_data_pt e P_pnst_internal_index ;
  value d i.

(** [quadtree_pt()->son_pt(ison)->object_pt()
      ->internal_data_pt(P_pnst_internal_index)->value(0)],
    [sons] being the elements of the sons in [Son_pt] order. *)
Definition son_central_pressure (sons : list Element) (ison : Z)
    : option double :=
  son ← sons !! Z.to_nat ison ;
  pressure_value son 0.

(** [for (ison = 0; ison < 4; ison++) av_press += ...] *)
Fixpoint add_sons_pressure (sons : list Element) (isons : list Z)
    (av_press : double) : option double :=
  match isons with
  | [] => Some av_press
  | ison :: rest =>
      p ← son_central_pressure sons ison ;
      add_sons_pressure sons rest (d_add av_press p)
  end.

(** [RefineablePolarCrouzeixRaviartElement::rebuild_from_sons], run on
    the father [this]. *)
Definition rebuild_from_sons (this : Element) (sons : list Element)
    : option Element :=
  let av_press : double := lit_0 in
  av_press ← add_sons_pressure sons [0; 1; 2; 3] av_press ;
  this ← set_pressure_value this 0 (d_mul lit_0_25 av_press) ;
  p_SE ← son_central_pressure sons QuadTreeNames.SE ;
  p_SW ← son_central_pressure sons QuadTreeNames.SW ;
  let slope1 := d_sub p_SE p_SW in
  p_NE ← son_central_pressure sons QuadTreeNames.NE ;
  p_NW ← son_central_pressure sons QuadTreeNames.NW ;
  let slope2 := d_sub p_NE p_NW in
  this ← set_pressure_value this 1 (d_mul lit_0_5 (d_add slope1 slope2)) ;
  p_NE ← son_central_pressure sons QuadTreeNames.NE ;
  p_SE ← son_central_pressure sons QuadTreeNames.SE ;
  let slope1 := d_sub p_NE p_SE in
  p_NW ← son_central_pressure sons QuadTreeNames.NW ;
  p_SW ← son_central_pressure sons QuadTreeNames.SW ;
  let slope2 := d_sub p_NW p_SW in
  set_pressure_value this 2 (d_mul lit_0_5 (d_add slope1 slope2)).

(** [PolarCrouzeixRaviartElement::interpolated_p_pnst(s)] is defined in
    polar_navier_stokes_elements.h, which is not part of the sources. *)
Variable interpolated_p_pnst : Element -> double * double -> double.

(** [s_father] in [further_build]: the midpoint of the son of type
    [son_type] in the father's local coordinates ([Vector<double>
    s_father(2)] holds zeros until one of the four branches assigns it). *)
Definition s_father_of (son_type : Z) : double * double :=
  let s_father : double * double := (lit_0, lit_0) in
  if decide (son_type = QuadTreeNames.SW)
  then (lit_minus_0_5, lit_minus_0_5)
  else if decide (son_type = QuadTreeNames.SE)
  then (lit_0_5, lit_minus_0_5)
  else if decide (son_type = QuadTreeNames.NE)
  then (lit_0_5, lit_0_5)
  else if decide (son_type = QuadTreeNames.NW)
  then (lit_minus_0_5, lit_0_5)
  else s_father.

(** The pressure part of
    [RefineablePolarCrouzeixRaviartElement::further_build], run on the
    son [this] of type [son_type] with father element [father]. *)
Definition further_build (this father : Element) (son_type : Z)
    : option Element :=
  let s_father := s_father_of son_type in
  let press := interpolated_p_pnst father s_father in
  this ← set_pressure_value this 0 press ;
  father_slope ← pressure_value father 1 ;
  this ← set_pressure_value this 1 (d_mul lit_0_5 father_slope) ;
  father_slope ← pressure_value father 2 ;
  set_pressure_value this 2 (d_mul lit_0_5 father_slope).

End Pressure.

(** *** Terms used in the statements about the pressure *)

(** The father's element after [rebuild_from_sons] has written the three
    pressure values [p0], [p1], [p2] into the pressure data [d]. *)
Definition with_pressure (P : nat) (this : Element) (d : Data)
    (p0 p1 p2 : double) : Element :=
  mkElement
    (<[P := mkData (<[2%nat := p2]> (<[1%nat := p1]> (<[0%nat := p0]>
                      (Value d))))]>
       (Internal_data_pt this)).

(** The doubles for which four times the value is still finite: zeros and
    the finite binary64 numbers of magnitude below [2 ^ 1022]. *)
Definition fourfold_is_finite (p : double) : bool :=
  match p with
  | S754_zero _ => true
  | S754_finite _ m e => bounded prec emax m e && (e <=? 969)
  | _ => false
  end.

(** What a sum that started from [0.0] holds in place of [p]: a negative
    zero has become [0.0], every other number is itself. *)
Definition plus_zero (p : double) : double :=
  match p with
  | S754_zero _ => S754_zero false
  | _ => p
  end.

(** The largest finite double. *)
Definition DBL_MAX : double := S754_finite false 9007199254740991 971.

(** A father and four sons used where a concrete element is needed: one
    internal [Data] with three values each. *)
Definition some_element (p0 p1 p2 : double) : Element :=
  mkElement [mkData [p0; p1; p2]].
Definition one_and_a_half : double :=
  S754_finite false 6755399441055744 (-52).
Definition some_sons (p : double) : list Element :=
  [some_element p lit_0_5 lit_0; some_element p lit_0 lit_0_25;
   some_element p lit_minus_0_5 lit_0; some_element p lit_0_5 lit_0_5].

(** The doubles 1.0, 2.0, 2.5, 3.0 and 4.0, for the examples. *)
Definition d_1 : double := S754_finite false 4503599627370496 (-52).
Definition d_2 : double := S754_finite false 4503599627370496 (-51).
Definition d_2_5 : double := S754_finite false 5629499534213120 (-51).
Definition d_3 : double := S754_finite false 6755399441055744 (-51).
Definition d_4 : double := S754_finite false 4503599627370496 (-50).

End PolarCR.

(* ===================================================================== *)
(** ** Loops and vectors of the element code                              *)
(* ===================================================================== *)

#[global] Instance outcome_ret : MRet outcome := fun A a => Returns a.
#[global] Instance outcome_bind : MBind outcome :=
  fun A B k c =>
    match c with
    | Returns a => k a
    | Throws e => Throws e
    | Undefined => Undefined
    end.

(** [n] rounds of a loop whose counter starts at [i] and goes up by
    one. *)
Fixpoint for_loop {St : Type} (n i : nat) (body : nat -> St -> outcome St)
    (st : St) : outcome St :=
  match n with
  | O => mret st
  | S n' => st' ← body i st ; for_loop n' (i + 1) body st'
  end.

(** [for (unsigned i = lo; i < hi; i++) body] *)
Definition for_range {St : Type} (lo hi : nat)
    (body : nat -> St -> outcome St) (st : St) : outcome St :=
  for_loop (hi - lo) lo body st.

(** A loop over the entries of a vector, entry by entry. *)
Fixpoint run {A St : Type} (f : A -> St -> outcome St) (l : list A)
    (st : St) : outcome St :=
  match l with
  | [] => Returns st
  | x :: l => st' ← f x st ; run f l st'
  end.

(** [v[i]] and [v[i] = x] on a [Vector]; not defined outside the
    vector. *)
Definition Vector_get {A} (v : list A) (i : nat) : outcome A :=
  match v !! i with
  | Some x => Returns x
  | None => Undefined
  end.

Definition Vector_set {A} (v : list A) (i : nat) (x : A) : outcome (list A) :=
  if decide (i < length v)%nat then Returns (<[i := x]> v) else Undefined.

(* ===================================================================== *)
(** ** Nodes and their values, as the element code uses them              *)
(* ===================================================================== *)

Module NodeNS.

(** Modelled from the names: nodes.h is not part of the sources.  The
    values that are pinned, each given by the [Data] (a [Node] is one)
    and the index of the value; [pin(i)] marks value [i] as pinned and
    [unpin(i)] takes the mark away.  The indices are taken to lie within
    the values of the [Data]. *)
Definition pinned_values := gset (ptr * nat).

Definition pin (data_pt : ptr) (i : nat) (pinned : pinned_values)
    : pinned_values := pinned ∪ {[(data_pt, i)]}.

Definition unpin (data_pt : ptr) (i : nat) (pinned : pinned_values)
    : pinned_values := pinned ∖ {[(data_pt, i)]}.

Definition is_pinned (data_pt : ptr) (i : nat) (pinned : pinned_values)
    : bool := bool_decide ((data_pt, i) ∈ pinned).

(** Modelled from the names: what a node knows of its hanging.
    [hanging_pt nod_pt (-1)] is [nod_pt->hanging_pt()], the masters of
    the node itself, and [hanging_pt nod_pt i] is
    [nod_pt->hanging_pt(i)], the masters of its value [i]; [None] is the
    null pointer, and [is_hanging] says that the pointer is not null.
    The masters are [master_node_pt(m)] for [m < nmaster()]. *)
Definition HangInfo := list ptr.

Section Hanging.
Variable hanging_pt : ptr -> Z -> option HangInfo.

Definition is_hanging (nod_pt : ptr) : bool :=
  bool_decide (is_Some (hanging_pt nod_pt (-1))).

Definition is_hanging_value (nod_pt : ptr) (i : nat) : bool :=
  bool_decide (is_Some (hanging_pt nod_pt (Z.of_nat i))).

End Hanging.

(** [std::set<std::pair<Data*, unsigned>>] *)
Definition load_data := gset (ptr * nat).

End NodeNS.

(* ===================================================================== *)
(** ** RefineablePolarNavierStokesEquations                               *)
(* ===================================================================== *)

Module RefineablePolarNavierStokesEquations.
Import PolarCR NodeNS.

(** The places in the element header where the context macros are
    expanded. *)
Inductive throw_site :=
| In_get_Z2_flux
| In_TaylorHood_get_interpolated_values
| In_CrouzeixRaviart_get_interpolated_values.

(** The two virtual functions the static functions call on an
    element. *)
Record Equations := mkEquations {
  unpin_elemental_pressure_dofs : pinned_values -> outcome pinned_values;
  pin_elemental_redundant_nodal_pressure_dofs :
    pinned_values -> outcome pinned_values }.

(** [virtual void pin_elemental_redundant_nodal_pressure_dofs() {}] *)
Definition default_pin_elemental_redundant_nodal_pressure_dofs
    (pinned : pinned_values) : outcome pinned_values :=
  mret pinned.

(** A [GeneralisedElement*] as the static functions use it: the result
    of [dynamic_cast<RefineablePolarNavierStokesEquations*>], [None]
    when the element is of another kind and the cast gives null. *)
Definition GeneralisedElement := option Equations.

(** [pin_redundant_nodal_pressures(element_pt)] *)
Definition pin_redundant_nodal_pressures
    (element_pt : list GeneralisedElement) (pinned : pinned_values)
    : outcome pinned_values :=
  let n_element := length element_pt in
  for_range 0 n_element
    (fun e pinned =>
       el ← Vector_get element_pt e ;
       match el with
       | Some el => pin_elemental_redundant_nodal_pressure_dofs el pinned
       | None => Undefined
       end)
    pinned.

(** [unpin_all_pressure_dofs(element_pt)] *)
Definition unpin_all_pressure_dofs
    (element_pt : list GeneralisedElement) (pinned : pinned_values)
    : outcome pinned_values :=
  let n_element := length element_pt in
  for_range 0 n_element
    (fun e pinned =>
       el ← Vector_get element_pt e ;
       match el with
       | Some el => unpin_elemental_pressure_dofs el pinned
       | None => Undefined
       end)
    pinned.

(** [num_Z2_flux_terms()] *)
Definition num_Z2_flux_terms : nat := 3.

Section Build.
Variable PARANOID : bool.
Variable OOMPH_CURRENT_FUNCTION : throw_site -> string.
Variable OOMPH_EXCEPTION_LOCATION : throw_site -> string.
(** [strain_rate_by_r(s, strainrate)] is defined in
    polar_navier_stokes_elements.h, which is not part of the sources;
    [strain_rate_by_r s i j] is the entry [(i, j)] it leaves in the
    2 x 2 matrix. *)
Variable strain_rate_by_r : list double -> nat -> nat -> double.

Definition OomphLibError_at (message : string) (site : throw_site)
    : OomphLibError :=
  mkOomphLibError message (OOMPH_CURRENT_FUNCTION site)
                  (OOMPH_EXCEPTION_LOCATION site).

(** [get_Z2_flux(s, flux)]; returns [flux] as the call leaves it. *)
Definition get_Z2_flux (s : list double) (flux : list double)
    : outcome (list double) :=
  let num_entries := 3%nat in
  if PARANOID && negb (length flux =? num_entries)%nat then
    let error_message :=
      ("The flux vector has the wrong number of entries, " ++
       pretty (length flux) ++ ", whereas it should be " ++
       pretty num_entries ++ endl)%string in
    Throws (OomphLibError_at error_message In_get_Z2_flux)
  else
    let strainrate := strain_rate_by_r s in
    let icount := 0%nat in
    st ← for_range 0 2
           (fun i '(flux, icount) =>
              flux ← Vector_set flux icount (strainrate i i) ;
              mret (flux, (icount + 1)%nat))
           (flux, icount) ;
    st ← for_range 0 2
           (fun i st =>
              for_range (i + 1) 2
                (fun j '(flux, icount) =>
                   flux ← Vector_set flux icount (strainrate i j) ;
                   mret (flux, (icount + 1)%nat))
                st)
           st ;
    mret (fst st).

(** The error the two [get_interpolated_values(t, s, values)] throw. *)
Definition too_many_timesteps (t : nat) (site : throw_site)
    : OomphLibError :=
  let error_message :=
    ("The value of t in get_interpolated_values(...), " ++ pretty t ++
     endl ++
     "is greater than the number of previous stored timesteps")%string in
  OomphLibError_at error_message site.

End Build.

Section Element.
(** What the two refineable elements share: the nodes ([node_pt(n)],
    [nnode()]), and from [PolarNavierStokesEquations]
    (polar_navier_stokes_elements.h, not part of the sources)
    [u_index_pnst(i)] and [nodal_value(t, l, i)]. *)
Variable Node_pt : list ptr.
Variable u_index_pnst : nat -> nat.
Variable nodal_value : nat -> nat -> nat -> double.
Variable hanging_pt : ptr -> Z -> option HangInfo.

Definition nnode : nat := length Node_pt.

Definition node_pt (n : nat) : outcome ptr := Vector_get Node_pt n.

(** The loops over the velocity components and the nodes that the two
    [get_interpolated_values(t, s, values)] have in common:
    [values[i] += nodal_value(t, l, u_nodal_index) * psif[l]]. *)
Definition add_nodal_velocities (t : nat) (psif : nat -> double)
    (n_node : nat) (values : list double) : outcome (list double) :=
  for_range 0 2
    (fun i values =>
       let u_nodal_index := u_index_pnst i in
       for_range 0 n_node
         (fun l values =>
            v ← Vector_get values i ;
            Vector_set values i
              (d_add v (d_mul (nodal_value t l u_nodal_index) (psif l))))
         values)
    values.

(** The loop over the nodes that the two [insert_load_data] have in
    common: the velocities of the node, or of its masters if it
    hangs. *)
Definition insert_velocity_load_data (paired_load_data : load_data)
    : outcome load_data :=
  let u_index := [u_index_pnst 0; u_index_pnst 1] in
  let n_node := nnode in
  for_range 0 n_node
    (fun n paired_load_data =>
       nod_pt ← node_pt n ;
       if is_hanging hanging_pt nod_pt then
         hang_info ← (match hanging_pt nod_pt (-1) with
                      | Some h => Returns h
                      | None => Undefined
                      end) ;
         let nmaster := length hang_info in
         for_range 0 nmaster
           (fun j paired_load_data =>
              master_nod_pt ← Vector_get hang_info j ;
              for_range 0 2
                (fun i paired_load_data =>
                   u ← Vector_get u_index i ;
                   mret (paired_load_data ∪ {[(master_nod_pt, u)]}))
                paired_load_data)
           paired_load_data
       else
         for_range 0 2
           (fun i paired_load_data =>
              u ← Vector_get u_index i ;
              nod_pt ← node_pt n ;
              mret (paired_load_data ∪ {[(nod_pt, u)]}))
           paired_load_data)
    paired_load_data.

(** *** Terms used in the statements *)

(** The sum over the nodes that gives velocity [i] at time [t], added up
    from [0.0], first node first. *)
Definition velocity_sum (psif : nat -> double) (t i : nat) : double :=
  foldl (fun acc l =>
           d_add acc (d_mul (nodal_value t l (u_index_pnst i)) (psif l)))
        lit_0 (seq 0 nnode).

(** The nodes whose values stand for node [nod_pt]: its masters if it
    hangs, else the node itself. *)
Definition masters_or_self (i : Z) (nod_pt : ptr) : list ptr :=
  match hanging_pt nod_pt i with
  | Some hang_info => hang_info
  | None => [nod_pt]
  end.

(** The velocity values that go into the load data. *)
Definition velocity_load_data : list (ptr * nat) :=
  nod_pt ← Node_pt ;
  master_nod_pt ← masters_or_self (-1) nod_pt ;
  [(master_nod_pt, u_index_pnst 0); (master_nod_pt, u_index_pnst 1)].

End Element.

(** The error thrown by [get_Z2_flux] for a vector of [n] entries. *)
Definition flux_size_error (F L : throw_site -> string) (n : nat)
    : OomphLibError :=
  mkOomphLibError
    ("The flux vector has the wrong number of entries, " ++
     pretty n ++ ", whereas it should be " ++ "3" ++ endl)%string
    (F In_get_Z2_flux) (L In_get_Z2_flux).

End RefineablePolarNavierStokesEquations.

(* ===================================================================== *)
(** ** RefineablePolarTaylorHoodElement                                   *)
(* ===================================================================== *)

Module RefineablePolarTaylorHoodElement.
Import PolarCR NodeNS RefineablePolarNavierStokesEquations.

Section Element.
Variable PARANOID : bool.
Variable OOMPH_CURRENT_FUNCTION : throw_site -> string.
Variable OOMPH_EXCEPTION_LOCATION : throw_site -> string.

(** The element: its nodes, and what it inherits from
    [PolarTaylorHoodElement] (polar_navier_stokes_elements.h, not part
    of the sources): [Pconv], [npres_pnst()], [p_nodal_index_pnst()],
    [u_index_pnst(i)], [shape(s, psi)], [nodal_value(t, l, i)],
    [interpolated_u_pnst(s, i)] and [interpolated_p_pnst(s)]. *)
Variable Node_pt : list ptr.
Variable Pconv : list nat.
Variable npres_pnst : nat.
Variable p_nodal_index_pnst : nat.
Variable u_index_pnst : nat -> nat.
Variable shape : list double -> nat -> double.
Variable nodal_value : nat -> nat -> nat -> double.
Variable interpolated_u_pnst : list double -> nat -> double.
Variable interpolated_p_pnst : list double -> double.
Variable hanging_pt : ptr -> Z -> option HangInfo.
(** The number of previous values the time stepper of the first node
    of the root element keeps. *)
Variable N_prev_time : nat.

(** [pressure_node_pt(n_p)]: [node_pt(Pconv[n_p])] *)
Definition pressure_node_pt (n_p : nat) : outcome ptr :=
  k ← Vector_get Pconv n_p ; node_pt Node_pt k.

(** [unpin_elemental_pressure_dofs()] *)
Definition unpin_elemental_pressure_dofs (pinned : pinned_values)
    : outcome pinned_values :=
  let p_index := p_nodal_index_pnst in
  let n_node := nnode Node_pt in
  for_range 0 n_node
    (fun n pinned =>
       nod_pt ← node_pt Node_pt n ; mret (unpin nod_pt p_index pinned))
    pinned.

(** [pin_elemental_redundant_nodal_pressure_dofs()] *)
Definition pin_elemental_redundant_nodal_pressure_dofs
    (pinned : pinned_values) : outcome pinned_values :=
  let p_index := p_nodal_index_pnst in
  let n_node := nnode Node_pt in
  pinned ← for_range 0 n_node
             (fun n pinned =>
                nod_pt ← node_pt Node_pt n ;
                mret (pin nod_pt p_index pinned))
             pinned ;
  let n_pres := npres_pnst in
  for_range 0 n_pres
    (fun l pinned =>
       nod_pt ← pressure_node_pt l ;
       if negb (is_hanging_value hanging_pt nod_pt p_index)
       then mret (unpin nod_pt p_index pinned)
       else mret pinned)
    pinned.

(** The element as the static functions of
    [RefineablePolarNavierStokesEquations] see it. *)
Definition as_Equations : Equations :=
  mkEquations unpin_elemental_pressure_dofs
              pin_elemental_redundant_nodal_pressure_dofs.

(** [get_interpolated_values(s, values)]; returns [values] as the call
    leaves it. *)
Definition get_interpolated_values (s : list double) (values : list double)
    : outcome (list double) :=
  let values := resize 3 lit_0 values in
  values ← for_range 0 2
             (fun i values => Vector_set values i (interpolated_u_pnst s i))
             values ;
  Vector_set values 2 (interpolated_p_pnst s).

(** [get_interpolated_values(t, s, values)] *)
Definition get_interpolated_values_at (t : nat) (s : list double)
    (values : list double) : outcome (list double) :=
  if PARANOID && (N_prev_time <? t)%nat then
    Throws (too_many_timesteps OOMPH_CURRENT_FUNCTION
              OOMPH_EXCEPTION_LOCATION t
              In_TaylorHood_get_interpolated_values)
  else
    let values := resize (2 + 1) lit_0 values in
    values ← for_range 0 (2 + 1)
               (fun i values => Vector_set values i lit_0) values ;
    let n_node := nnode Node_pt in
    let psif := shape s in
    values ← add_nodal_velocities u_index_pnst nodal_value
               t psif n_node values ;
    Vector_set values 2 (interpolated_p_pnst s).

(** [insert_load_data(paired_load_data)] *)
Definition insert_load_data (paired_load_data : load_data)
    : outcome load_data :=
  paired_load_data ←
    insert_velocity_load_data Node_pt u_index_pnst hanging_pt
                              paired_load_data ;
  let p_index := p_nodal_index_pnst in
  let n_pres := npres_pnst in
  for_range 0 n_pres
    (fun l paired_load_data =>
       pres_node_pt ← pressure_node_pt l ;
       if is_hanging_value hanging_pt pres_node_pt p_index then
         hang_info_pt ← (match hanging_pt pres_node_pt
                                 (Z.of_nat p_index) with
                         | Some h => Returns h
                         | None => Undefined
                         end) ;
         let nmaster := length hang_info_pt in
         for_range 0 nmaster
           (fun m paired_load_data =>
              master_node_pt ← Vector_get hang_info_pt m ;
              mret (paired_load_data ∪ {[(master_node_pt, p_index)]}))
           paired_load_data
       else mret (paired_load_data ∪ {[(pres_node_pt, p_index)]}))
    paired_load_data.

(** *** Terms used in the statements *)

(** The pressure nodes: [pressure_node_pt(l)] for [l < npres_pnst()],
    where defined. *)
Definition pressure_nodes : list ptr :=
  omap (fun l => k ← Pconv !! l ; Node_pt !! k) (seq 0 npres_pnst).

(** [Pconv] names a node of the element for each of the
    [npres_pnst()] pressure values. *)
Definition Pconv_in_range : Prop :=
  forall l, (l < npres_pnst)%nat ->
            exists k, Pconv !! l = Some k /\ (k < length Node_pt)%nat.

(** The pressure values that go into the load data. *)
Definition pressure_load_data : list (ptr * nat) :=
  pres_node_pt ← pressure_nodes ;
  master_node_pt ←
    masters_or_self hanging_pt (Z.of_nat p_nodal_index_pnst) pres_node_pt ;
  [(master_node_pt, p_nodal_index_pnst)].

End Element.

(** [x > y] on doubles; false when one of them is not a number. *)
Definition d_gtb (x y : double) : bool := SFltb y x.

(** The literal [-1.0]. *)
Definition lit_minus_1 : double := S754_finite true 4503599627370496 (-52).

(** [int(x)]: the integer part of a double; not defined when the
    integer part is no [int] (32 bits), or [x] is no number. *)
Definition int_of_double (x : double) : outcome Z :=
  match x with
  | S754_zero _ => Returns 0
  | S754_finite s m e =>
      let n := if 0 <=? e then Zpos m * 2 ^ e else Zpos m / 2 ^ (- e) in
      let n := if s then - n else n in
      if (- 2 ^ 31 <=? n) && (n <? 2 ^ 31) then Returns n else Undefined
  | _ => Undefined
  end.

(** [static_cast<unsigned>(x)] for a double: the integer part; not
    defined when it is no [unsigned] (32 bits). *)
Definition unsigned_of_double (x : double) : outcome Z :=
  match x with
  | S754_zero _ => Returns 0
  | S754_finite s m e =>
      let n := if 0 <=? e then Zpos m * 2 ^ e else Zpos m / 2 ^ (- e) in
      let n := if s then - n else n in
      if (0 <=? n) && (n <? 2 ^ 32) then Returns n else Undefined
  | _ => Undefined
  end.

(** The conversion of an [int] or [unsigned] to [double]; exact, these
    having 32 bits. *)
Definition double_of_int (n : Z) : double :=
  binary_normalize prec emax n 0 false.

(** The conversion of an [int] to [unsigned]. *)
Definition unsigned_of_int (n : Z) : Z := n mod 2 ^ 32.

Section Nodes.
Variable Node_pt : list ptr.
Variable Pconv : list nat.
(** [FiniteElement::Node_location_tolerance] and
    [get_node_at_local_coordinate(s)], declared in elements.h, which is
    not part of the sources. *)
Variable Node_location_tolerance : double.
Variable get_node_at_local_coordinate : list double -> outcome ptr.

(** The body of the loop over the coordinates of
    [get_interpolating_node_at_local_coordinate]; [None] is the
    [return 0] inside the loop. *)
Definition coordinate_index (NNODE_1D : Z) (s : list double) (i : nat)
    (total_index : Z) : outcome (option Z) :=
  s_i ← Vector_get s i ;
  index_i ←
    (if d_eqb s_i lit_minus_1 then mret (Some 0)
     else if d_eqb s_i d_1 then mret (Some (NNODE_1D - 1))
     else
       let float_index :=
         d_mul (d_mul lit_0_5 (d_add d_1 s_i))
               (double_of_int (NNODE_1D - 1)) in
       index_i ← int_of_double float_index ;
       let excess := d_sub float_index (double_of_int index_i) in
       if d_gtb excess Node_location_tolerance &&
          d_gtb (d_sub d_1 excess) Node_location_tolerance
       then mret None
       else mret (Some index_i)) ;
  match index_i with
  | None => mret None
  | Some index_i =>
      (* pow(static_cast<float>(NNODE_1D), static_cast<int>(i)): the
         power of two, 1.0 or 2.0 *)
      let power := double_of_int (NNODE_1D ^ Z.of_nat i) in
      power ← unsigned_of_double power ;
      mret (Some ((total_index + unsigned_of_int index_i * power)
                  mod 2 ^ 32))
  end.

(** [get_interpolating_node_at_local_coordinate(s, value_id)]; the
    null pointer where there is no node. *)
Definition get_interpolating_node_at_local_coordinate
    (s : list double) (value_id : Z) : outcome ptr :=
  if decide (value_id = 2) then
    let total_index := 0 in
    let NNODE_1D := 2 in
    total_index ←
      for_range 0 2
        (fun i total_index =>
           match total_index with
           | None => mret None
           | Some total_index => coordinate_index NNODE_1D s i total_index
           end)
        (Some total_index) ;
    match total_index with
    | None => mret null
    | Some total_index =>
        pressure_node_pt
          Node_pt Pconv (Z.to_nat total_index)
    end
  else get_node_at_local_coordinate s.

End Nodes.

(** The end of the range of a local coordinate that [b] stands for:
    [-1.0] for false, [1.0] for true. *)
Definition end_of_range (b : bool) : double :=
  if b then d_1 else lit_minus_1.

(** [1.0e-14], the value of [Node_location_tolerance] in elements.cc,
    and the double [1 - 2 ^ -52], the second below [1.0]. *)
Definition d_1em14 : double := S754_finite false 6338253001141147 (-99).
Definition just_below_1 : double :=
  S754_finite false 9007199254740990 (-53).

(** An element used in the examples: nine nodes at the addresses 1 to
    9, the pressure at the four corner nodes, stored as value 2 of each
    node; the node at address 2 hangs on the nodes 1 and 3, and the
    pressure of the node at address 3 hangs on the node at address
    10. *)
Definition some_Node_pt : list ptr := [1; 2; 3; 4; 5; 6; 7; 8; 9]%N.
Definition some_Pconv : list nat := [0; 2; 6; 8]%nat.
Definition some_hanging_pt (nod_pt : ptr) (i : Z) : option HangInfo :=
  if decide (nod_pt = 2%N /\ i = -1) then Some [1%N; 3%N]
  else if decide (nod_pt = 3%N /\ i = 2) then Some [10%N]
  else None.

End RefineablePolarTaylorHoodElement.

(* ===================================================================== *)
(** ** RefineablePolarCrouzeixRaviartElement                              *)
(* ===================================================================== *)

Module RefineablePolarCrouzeixRaviartElement.
Import PolarCR NodeNS RefineablePolarNavierStokesEquations.

Section Element.
Variable PARANOID : bool.
Variable OOMPH_CURRENT_FUNCTION : throw_site -> string.
Variable OOMPH_EXCEPTION_LOCATION : throw_site -> string.

(** The element: its nodes, the address of its pressure data
    ([internal_data_pt(P_pnst_internal_index)]), and what it inherits
    from [PolarCrouzeixRaviartElement] (polar_navier_stokes_elements.h,
    not part of the sources). *)
Variable Node_pt : list ptr.
Variable internal_data_pt_P_pnst_internal_index : ptr.
Variable npres_pnst : nat.
Variable u_index_pnst : nat -> nat.
Variable shape : list double -> nat -> double.
Variable nodal_value : nat -> nat -> nat -> double.
Variable interpolated_u_pnst : list double -> nat -> double.
Variable hanging_pt : ptr -> Z -> option HangInfo.
Variable N_prev_time : nat.

(** [unpin_elemental_pressure_dofs()] *)
Definition unpin_elemental_pressure_dofs (pinned : pinned_values)
    : outcome pinned_values :=
  let n_pres := npres_pnst in
  for_range 0 n_pres
    (fun l pinned =>
       mret (unpin internal_data_pt_P_pnst_internal_index l pinned))
    pinned.

(** The element as the static functions of
    [RefineablePolarNavierStokesEquations] see it; it does not override
    [pin_elemental_redundant_nodal_pressure_dofs]. *)
Definition as_Equations : Equations :=
  mkEquations unpin_elemental_pressure_dofs
              default_pin_elemental_redundant_nodal_pressure_dofs.

(** [get_interpolated_values(s, values)] *)
Definition get_interpolated_values (s : list double) (values : list double)
    : outcome (list double) :=
  let values := resize 2 lit_0 values in
  for_range 0 2
    (fun i values => Vector_set values i (interpolated_u_pnst s i))
    values.

(** [get_interpolated_values(t, s, values)] *)
Definition get_interpolated_values_at (t : nat) (s : list double)
    (values : list double) : outcome (list double) :=
  if PARANOID && (N_prev_time <? t)%nat then
    Throws (too_many_timesteps OOMPH_CURRENT_FUNCTION
              OOMPH_EXCEPTION_LOCATION t
              In_CrouzeixRaviart_get_interpolated_values)
  else
    let values := resize 2 lit_0 values in
    values ← for_range 0 2
               (fun i values => Vector_set values i lit_0) values ;
    let n_node := nnode Node_pt in
    let psif := shape s in
    add_nodal_velocities u_index_pnst nodal_value t psif n_node values.

(** [insert_load_data(paired_load_data)] *)
Definition insert_load_data (paired_load_data : load_data)
    : outcome load_data :=
  paired_load_data ←
    insert_velocity_load_data Node_pt u_index_pnst hanging_pt
                              paired_load_data ;
  let n_pres := npres_pnst in
  for_range 0 n_pres
    (fun l paired_load_data =>
       mret (paired_load_data ∪
             {[(internal_data_pt_P_pnst_internal_index, l)]}))
    paired_load_data.

(** *** Terms used in the statements *)

(** The pressure values: the values [l < npres_pnst()] of the pressure
    data. *)
Definition pressure_values : list (ptr * nat) :=
  map (fun l => (internal_data_pt_P_pnst_internal_index, l))
      (seq 0 npres_pnst).

End Element.

End RefineablePolarCrouzeixRaviartElement.

(* ===================================================================== *)
(** ** The elements of a mesh, for the static functions                   *)
(* ===================================================================== *)

Module PolarElements.
Import NodeNS RefineablePolarNavierStokesEquations.

(** The kinds of element a [Vector<GeneralisedElement*>] can hold, with
    what the pinning functions use of each. *)
Inductive element :=
| TaylorHood (Node_pt : list ptr) (Pconv : list nat)
             (npres_pnst p_nodal_index_pnst : nat)
| CrouzeixRaviart (internal_data_pt_P_pnst_internal_index : ptr)
                  (npres_pnst : nat)
| Other.

#[global] Instance element_eq_dec : EqDecision element.
Proof. solve_decision. Defined.

Section Hanging.
Variable hanging_pt : ptr -> Z -> option HangInfo.

(** [dynamic_cast<RefineablePolarNavierStokesEquations*>(element_pt[e])]
    with the virtual functions of the element's class. *)
Definition cast (el : element) : GeneralisedElement :=
  match el with
  | TaylorHood Node_pt Pconv npres_pnst p_nodal_index_pnst =>
      Some (RefineablePolarTaylorHoodElement.as_Equations
              Node_pt Pconv npres_pnst p_nodal_index_pnst hanging_pt)
  | CrouzeixRaviart data_pt npres_pnst =>
      Some (RefineablePolarCrouzeixRaviartElement.as_Equations
              data_pt npres_pnst)
  | Other => None
  end.

(** The pressure values of an element. *)
Definition pressure_dofs (el : element) : list (ptr * nat) :=
  match el with
  | TaylorHood Node_pt _ _ p_nodal_index_pnst =>
      map (fun nod_pt => (nod_pt, p_nodal_index_pnst)) Node_pt
  | CrouzeixRaviart data_pt npres_pnst =>
      map (fun l => (data_pt, l)) (seq 0 npres_pnst)
  | Other => []
  end.

(** The pressure values of a Taylor-Hood element that its
    [pin_elemental_redundant_nodal_pressure_dofs] leaves free: those of
    the pressure nodes whose pressure does not hang. *)
Definition free_pressure_dofs (el : element) : list (ptr * nat) :=
  match el with
  | TaylorHood Node_pt Pconv npres_pnst p_nodal_index_pnst =>
      map (fun nod_pt => (nod_pt, p_nodal_index_pnst))
          (filter (fun nod_pt =>
                     is_hanging_value hanging_pt nod_pt p_nodal_index_pnst
                     = false)
                  (RefineablePolarTaylorHoodElement.pressure_nodes
                     Node_pt Pconv npres_pnst))
  | _ => []
  end.

(** The values whose pinning
    [pin_elemental_redundant_nodal_pressure_dofs] of the element
    decides. *)
Definition decided_dofs (el : element) : list (ptr * nat) :=
  match el with
  | TaylorHood _ _ _ _ => pressure_dofs el
  | _ => []
  end.

(** An element the pinning functions are defined on. *)
Definition well_formed (el : element) : Prop :=
  match el with
  | TaylorHood Node_pt Pconv npres_pnst _ =>
      RefineablePolarTaylorHoodElement.Pconv_in_range
        Node_pt Pconv npres_pnst
  | CrouzeixRaviart _ _ => True
  | Other => False
  end.

End Hanging.

(** Two elements used in the examples: a large one on the nodes 1 to 9,
    and a small one on the nodes 6, 11 to 18, next to it; node 6, in the
    middle of an edge of the large element, is a corner of the small
    one. *)
Definition some_large_element : element :=
  TaylorHood [1; 2; 3; 4; 5; 6; 7; 8; 9]%N [0; 2; 6; 8]%nat 4 2.
Definition some_small_element : element :=
  TaylorHood [6; 11; 12; 13; 14; 15; 16; 17; 18]%N [0; 2; 6; 8]%nat 4 2.
Definition nothing_hangs (nod_pt : ptr) (i : Z) : option HangInfo := None.

End PolarElements.

(* ===================================================================== *)
(** ** Rounding of binary64, in integer arithmetic                        *)
(* ===================================================================== *)

Module Rounding.

(** The exponent of the last place of a binary64 number whose leading
    bit has weight [2 ^ (x - 1)]. *)
Definition fexp64 (x : Z) : Z := Z.max (x - 53) (-1074).

(** The round bit and the sticky bit after shifting [V] right by [n]. *)
Definition round_bit (V n : Z) : bool := (V / 2 ^ (n - 1)) mod 2 =? 1.
Definition sticky_bit (V n : Z) : bool := negb (V mod 2 ^ (n - 1) =? 0).

(** Round to nearest, ties to even, of [V / 2 ^ n]. *)
Definition rne (V n : Z) : Z :=
  let q := V / 2 ^ n in
  if round_bit V n
  then (if sticky_bit V n then q + 1
        else if q mod 2 =? 0 then q else q + 1)
  else q.

(** Mantissa and exponent of the binary64 number nearest to
    [V * 2 ^ E]. *)
Definition bra_Z (V E : Z) : Z * Z :=
  let n := fexp64 (Zdigits2 V + E) - E in
  let R := if 0 <? n then rne V n else V in
  let E1 := if 0 <? n then E + n else E in
  let n2 := fexp64 (Zdigits2 R + E1) - E1 in
  if 0 <? n2 then (R / 2 ^ n2, E1 + n2) else (R, E1).

Definition of_mantissa (s : bool) (RE : Z * Z) : spec_float :=
  match fst RE with
  | Z0 => S754_zero s
  | Zpos m => if snd RE <=? 971 then S754_finite s m (snd RE)
              else S754_infinity s
  | Zneg _ => S754_nan
  end.

End Rounding.

Module TreeFacts.
Import RefineableElement TreeNS.

(** Induction over a tree with the hypothesis for every son. *)
Lemma Tree_ind (P : Tree -> Prop) :
  (forall this obj fa st lv rt sons,
      Forall P sons -> P (mkTree this obj fa st lv rt sons)) ->
  forall t, P t.
Proof.
  intros step. fix IH 1. intros [this obj fa st lv rt sons].
  apply step. induction sons as [|s sons IHsons]; constructor.
  - apply IH.
  - exact IHsons.
Qed.

Lemma exec_bind {A B} (c : M A) (k : A -> M B) (w : world) :
  exec (c ≫= k) w = exec (k (eval c w)) (exec c w).
Proof.
  unfold exec, eval, mbind, M_bind. destruct (c w) as [a w']. reflexivity.
Qed.

Lemma eval_bind {A B} (c : M A) (k : A -> M B) (w : world) :
  eval (c ≫= k) w = eval (k (eval c w)) (exec c w).
Proof.
  unfold exec, eval, mbind, M_bind. destruct (c w) as [a w']. reflexivity.
Qed.

Lemma exec_ret {A} (a : A) (w : world) : exec (mret a) w = w.
Proof. reflexivity. Qed.

Lemma trace_log e w : trace (exec (log e) w) = trace w ++ [e].
Proof. reflexivity. Qed.

Lemma emits_events_of {A} (c : M A) tr : emits c tr -> events_of c = tr.
Proof. intros H. unfold events_of. rewrite H. reflexivity. Qed.

Lemma emits_bind {A B} (c : M A) (k : A -> M B) tr1 tr2 :
  emits c tr1 -> (forall a, emits (k a) tr2) -> emits (c ≫= k) (tr1 ++ tr2).
Proof.
  intros H1 H2 w. rewrite exec_bind, H2, H1, app_assoc. reflexivity.
Qed.

Lemma emits_ret {A} (a : A) : emits (mret a) [].
Proof. intros w. rewrite exec_ret, app_nil_r. reflexivity. Qed.

Lemma emits_log e : emits (log e) [e].
Proof. intros w. apply trace_log. Qed.

Lemma emits_delete_object p : emits (delete_object p) [Ev_delete_object p].
Proof.
  intros w. unfold delete_object, exec, mbind, M_bind. cbn [log modify].
  destruct (decide (p = null)); reflexivity.
Qed.

Lemma emits_unbuild p : emits (unbuild p) [Ev_unbuild p].
Proof. intros w. reflexivity. Qed.

Lemma emits_for_each {A} (body : A -> M unit) (f : A -> list event) v :
  Forall (fun x => emits (body x) (f x)) v ->
  emits (for_each body v) (concat (map f v)).
Proof.
  induction 1 as [|x v Hx _ IH]; simpl.
  - apply emits_ret.
  - apply emits_bind; [exact Hx | intros _; exact IH].
Qed.

(** *** The destructor *)

Lemma Tree_dtor_emits_step t :
  Forall (fun s => emits (Tree_dtor s) (events_of (Tree_dtor s))) (Son_pt t) ->
  emits (Tree_dtor t)
        (concat (map delete_son_events (Son_pt t)) ++ own_object_events t).
Proof.
  destruct t as [this obj fa st lv rt sons]. cbn [Son_pt Object_pt].
  intros Hsons. cbn [Tree_dtor Son_pt Object_pt This].
  apply emits_bind.
  - induction Hsons as [|s sons Hs _ IH]; cbn [map concat].
    + apply emits_ret.
    + unfold delete_son_events at 1. rewrite <- app_assoc.
      apply emits_bind; [exact Hs | intros _].
      apply emits_bind; [apply emits_log | intros _; exact IH].
  - intros _. unfold own_object_events. cbn [Son_pt Object_pt].
    destruct (decide (0 < length sons)%nat).
    + apply emits_delete_object.
    + apply emits_ret.
Qed.

Lemma Tree_dtor_emits t : emits (Tree_dtor t) (events_of (Tree_dtor t)).
Proof.
  induction t as [this obj fa st lv rt sons IH] using Tree_ind.
  pose proof (Tree_dtor_emits_step (mkTree this obj fa st lv rt sons) IH)
    as Hstep.
  rewrite (emits_events_of _ _ Hstep). exact Hstep.
Qed.

Lemma Tree_dtor_events t :
  events_of (Tree_dtor t) =
  concat (map delete_son_events (Son_pt t)) ++ own_object_events t.
Proof.
  apply emits_events_of, Tree_dtor_emits_step.
  apply Forall_forall. intros s _. apply Tree_dtor_emits.
Qed.

Lemma delete_tree_emits t : emits (delete_tree t) (delete_son_events t).
Proof.
  unfold delete_tree, delete_son_events.
  apply emits_bind; [apply Tree_dtor_emits | intros _; apply emits_log].
Qed.

Lemma omap_concat_map {A B C} (g : B -> option C) (h : A -> list B) l :
  omap g (concat (map h l)) = concat (map (fun x => omap g (h x)) l).
Proof.
  induction l as [|x l IH]; cbn [map concat]; [reflexivity|].
  rewrite omap_app, IH. reflexivity.
Qed.

Lemma concat_map_ext_Forall {A B} (f g : A -> list B) l :
  Forall (fun x => f x = g x) l -> concat (map f l) = concat (map g l).
Proof.
  induction 1 as [|x l Hx _ IH]; cbn [map concat]; [reflexivity|].
  rewrite Hx, IH. reflexivity.
Qed.

Lemma deleted_trees_delete_son t :
  deleted_trees (delete_son_events t) = map This (postorder t).
Proof.
  induction t as [this obj fa st lv rt sons IH] using Tree_ind.
  unfold delete_son_events. rewrite Tree_dtor_events.
  cbn [Son_pt This postorder]. unfold deleted_trees in *.
  rewrite !omap_app, omap_concat_map, map_app, concat_map, map_map.
  rewrite (concat_map_ext_Forall _ (fun s => map This (postorder s)) sons IH).
  unfold own_object_events. cbn [Son_pt].
  destruct (decide (0 < length sons)%nat); cbn; rewrite ?app_nil_r;
    reflexivity.
Qed.

Lemma filter_concat_map {A B} (P : B -> Prop) `{forall x, Decision (P x)}
    (h : A -> list B) l :
  filter P (concat (map h l)) = concat (map (fun x => filter P (h x)) l).
Proof.
  induction l as [|x l IH]; cbn [map concat]; [reflexivity|].
  rewrite filter_app, IH. reflexivity.
Qed.

Lemma deleted_objects_delete_son t :
  deleted_objects (delete_son_events t) =
  map Object_pt (filter (fun n => ¬ is_leaf n) (postorder t)).
Proof.
  induction t as [this obj fa st lv rt sons IH] using Tree_ind.
  unfold delete_son_events. rewrite Tree_dtor_events.
  cbn [Son_pt This postorder]. unfold deleted_objects in *.
  rewrite !omap_app, omap_concat_map, filter_app, map_app.
  rewrite filter_concat_map, concat_map, map_map.
  rewrite (concat_map_ext_Forall _
             (fun s => map Object_pt
                         (filter (fun n => ¬ is_leaf n) (postorder s)))
             sons IH).
  unfold own_object_events. cbn [Son_pt Object_pt omap].
  rewrite app_nil_r. f_equal.
  rewrite filter_cons, filter_nil. unfold is_leaf, nsons. cbn [Son_pt].
  destruct (decide (0 < length sons)%nat);
    destruct (decide (¬ length sons = 0%nat)); try lia; reflexivity.
Qed.

(** *** Traversals *)

Lemma nonleaf_cases (sons : list Tree) :
  (0 < length sons)%nat \/ sons = [].
Proof. destruct sons; cbn; [right; reflexivity | left; lia]. Qed.

Lemma stick_all_preorder t v :
  stick_all_tree_nodes_into_vector t v = v ++ preorder t.
Proof.
  revert v.
  induction t as [this obj fa st lv rt sons IH] using Tree_ind. intros v.
  cbn [stick_all_tree_nodes_into_vector Son_pt preorder].
  set (t := mkTree this obj fa st lv rt sons).
  assert (Hloop : forall acc,
    (fix loop (sons : list Tree) (all_tree_nodes : list Tree) :=
       match sons with
       | [] => all_tree_nodes
       | son :: rest =>
           loop rest (stick_all_tree_nodes_into_vector son all_tree_nodes)
       end) sons acc = acc ++ concat (map preorder sons)).
  { clear t. induction IH as [|s sons Hs _ IHsons]; intros acc;
      cbn [map concat].
    - rewrite app_nil_r. reflexivity.
    - rewrite IHsons, Hs, <- app_assoc. reflexivity. }
  destruct (decide (0 < length sons)%nat) as [Hn|Hn].
  - rewrite Hloop, <- app_assoc. reflexivity.
  - destruct (nonleaf_cases sons) as [?| ->]; [lia|]. reflexivity.
Qed.

Lemma stick_leaves_preorder t v :
  stick_leaves_into_vector t v = v ++ filter is_leaf (preorder t).
Proof.
  revert v.
  induction t as [this obj fa st lv rt sons IH] using Tree_ind. intros v.
  cbn [stick_leaves_into_vector Son_pt preorder].
  set (t := mkTree this obj fa st lv rt sons).
  assert (Hloop : forall acc,
    (fix loop (sons : list Tree) (tree_nodes : list Tree) :=
       match sons with
       | [] => tree_nodes
       | son :: rest => loop rest (stick_leaves_into_vector son tree_nodes)
       end) sons acc
    = acc ++ filter is_leaf (concat (map preorder sons))).
  { clear t. induction IH as [|s sons Hs _ IHsons]; intros acc;
      cbn [map concat].
    - rewrite app_nil_r. reflexivity.
    - rewrite IHsons, Hs, filter_app, <- app_assoc. reflexivity. }
  rewrite filter_cons.
  destruct (decide (0 < length sons)%nat) as [Hn|Hn].
  - rewrite Hloop. destruct (decide (is_leaf t)) as [Hl|Hl];
      [unfold is_leaf, nsons in Hl; cbn in Hl; lia | reflexivity].
  - destruct (nonleaf_cases sons) as [?|Hs]; [lia|]. subst t sons.
    destruct (decide _) as [Hl|Hl];
      [reflexivity | exfalso; apply Hl; reflexivity].
Qed.

Lemma for_each_app {A} (body : A -> M unit) (a b : list A) (w : world) :
  for_each body (a ++ b) w = for_each body b (exec (for_each body a) w).
Proof.
  revert w. induction a as [|x a IH]; intros w; cbn [app for_each].
  - reflexivity.
  - unfold mbind, M_bind, exec in *. destruct (body x w) as [u w1].
    rewrite IH. destruct (for_each body a w1). reflexivity.
Qed.

Lemma M_unit_eta (c : M unit) (w : world) : c w = (tt, exec c w).
Proof. unfold exec. destruct (c w) as [[] w']. reflexivity. Qed.

Lemma traverse_leaves_for_each (f : VoidMemberFctPt) t w :
  traverse_leaves f t w = for_each f (filter is_leaf (preorder t)) w.
Proof.
  revert w.
  induction t as [this obj fa st lv rt sons IH] using Tree_ind. intros w.
  cbn [traverse_leaves Son_pt preorder].
  set (t := mkTree this obj fa st lv rt sons).
  assert (Hloop : forall w,
    (fix loop (sons : list Tree) : M unit :=
       match sons with
       | [] => mret tt
       | son :: rest => traverse_leaves f son ;; loop rest
       end) sons w
    = for_each f (filter is_leaf (concat (map preorder sons))) w).
  { clear t. induction IH as [|s sons Hs _ IHsons]; intros w0;
      cbn [map concat].
    - reflexivity.
    - rewrite filter_app, for_each_app.
      unfold mbind, M_bind. rewrite Hs.
      rewrite (M_unit_eta (for_each f (filter is_leaf (preorder s))) w0).
      apply IHsons. }
  rewrite filter_cons.
  destruct (decide (0 < length sons)%nat) as [Hn|Hn].
  - rewrite Hloop. destruct (decide (is_leaf t)) as [Hl|Hl];
      [unfold is_leaf, nsons in Hl; cbn in Hl; lia | reflexivity].
  - destruct (nonleaf_cases sons) as [?|Hs]; [lia|]. subst t sons.
    destruct (decide _) as [Hl|Hl];
      [|exfalso; apply Hl; reflexivity].
    cbn [map concat filter for_each]. unfold mbind, M_bind.
    rewrite filter_nil. cbn [for_each].
    destruct (f _ w) as [[] w']. reflexivity.
Qed.

Lemma traverse_leaves_mesh_traverse_leaves
    (f : VoidMeshPtArgumentMemberFctPt) (mesh_pt : ptr) t w :
  traverse_leaves_mesh f t mesh_pt w =
  traverse_leaves (fun n => f n mesh_pt) t w.
Proof.
  revert w.
  induction t as [this obj fa st lv rt sons IH] using Tree_ind. intros w.
  cbn [traverse_leaves traverse_leaves_mesh Son_pt].
  destruct (decide (0 < length sons)%nat) as [Hn|Hn]; [|reflexivity].
  clear Hn. revert w.
  induction IH as [|s sons Hs _ IHsons]; intros w; [reflexivity|].
  unfold mbind, M_bind. rewrite Hs.
  destruct (traverse_leaves _ s w) as [u w1]. apply IHsons.
Qed.

(** *** Unrefinement *)

Lemma eval_sons_to_be_unrefined p w :
  eval (sons_to_be_unrefined p) w =
  bool_decide (p ∈ Sons_to_be_unrefined w).
Proof. reflexivity. Qed.

Lemma exec_sons_to_be_unrefined p w :
  exec (sons_to_be_unrefined p) w =
  mkWorld (Tree_pt w) (Sons_to_be_unrefined w)
          (trace w ++ [Ev_sons_to_be_unrefined p])
          (Deleted w) (Undefined_behaviour w).
Proof. reflexivity. Qed.

Lemma exec_deselect p w :
  exec (deselect_sons_for_unrefinement p) w =
  mkWorld (Tree_pt w) (Sons_to_be_unrefined w ∖ {[p]})
          (trace w ++ [Ev_deselect_sons_for_unrefinement p])
          (Deleted w) (Undefined_behaviour w).
Proof. reflexivity. Qed.

Lemma kill_sons_emits sons :
  emits (for_each (fun son =>
                     unbuild (object_pt son) ;;
                     delete_object (object_pt son) ;;
                     delete_tree son) sons)
        (concat (map kill_son_events sons)).
Proof.
  apply emits_for_each, Forall_forall. intros son _.
  unfold kill_son_events, object_pt.
  change [Ev_unbuild (Object_pt son); Ev_delete_object (Object_pt son)]
    with ([Ev_unbuild (Object_pt son)] ++ [Ev_delete_object (Object_pt son)]).
  rewrite <- app_assoc.
  apply emits_bind; [apply emits_unbuild | intros _].
  apply emits_bind; [apply emits_delete_object | intros _].
  apply delete_tree_emits.
Qed.

(** A son that has sons of its own has its element deleted twice by the
    loop: once by the [delete] in the loop body and once more by the son's
    destructor.  For a son that is a leaf the loop issues the three events
    and no more. *)
Lemma kill_son_events_cases son :
  (is_leaf son ->
   kill_son_events son =
   [Ev_unbuild (Object_pt son); Ev_delete_object (Object_pt son);
    Ev_delete_tree (This son)])
  /\ (¬ is_leaf son ->
      kill_son_events son =
      [Ev_unbuild (Object_pt son); Ev_delete_object (Object_pt son)] ++
      concat (map delete_son_events (Son_pt son)) ++
      [Ev_delete_object (Object_pt son); Ev_delete_tree (This son)]).
Proof.
  unfold kill_son_events, is_leaf, nsons. rewrite Tree_dtor_events.
  unfold own_object_events.
  split; intros Hl.
  - destruct (Son_pt son); [reflexivity | discriminate].
  - destruct (decide (0 < length (Son_pt son))%nat); [|lia].
    rewrite <- !app_assoc. reflexivity.
Qed.

(** The loop body of [merge_sons_if_required] run on a son without
    sons: the son's destructor does nothing. *)
Lemma kill_leaf_sons_events sons :
  Forall is_leaf sons ->
  concat (map kill_son_events sons) =
  concat (map (fun son =>
                 [Ev_unbuild (Object_pt son);
                  Ev_delete_object (Object_pt son);
                  Ev_delete_tree (This son)]) sons).
Proof.
  induction 1 as [|son sons Hson _ IH]; [reflexivity|].
  cbn [map concat]. rewrite IH.
  rewrite (proj1 (kill_son_events_cases son) Hson). reflexivity.
Qed.




(** C3.  The destructor of a node first deletes every son, in [Son_pt]
    order, each deletion running the son's destructor before the son's
    storage is released, and only then deletes the node's own element,
    which it does exactly when the node has at least one son.  Over the
    whole tree the nodes are released sons first and father last, the
    elements deleted are those of the nodes that have sons, and the
    destructor of a leaf does nothing, so the element of a leaf is left
    alone. *)
Theorem Tree_dtor_sons_first_leaf_object_kept (t : Tree) (w : world) :
  trace (exec (Tree_dtor t) w) =
    trace w ++
    concat (map (fun son => events_of (Tree_dtor son) ++
                            [Ev_delete_tree (This son)]) (Son_pt t)) ++
    (if decide (0 < nsons t)%nat
     then [Ev_delete_object (Object_pt t)] else [])
  /\ deleted_trees (events_of (delete_tree t)) = map This (postorder t)
  /\ deleted_objects (events_of (delete_tree t)) =
       map Object_pt (filter (fun n => ¬ is_leaf n) (postorder t))
  /\ exec (Tree_dtor (resize_sons_0 t)) w = w.
Proof.
  split; [|split; [|split]].
  - rewrite (Tree_dtor_emits t w), Tree_dtor_events. reflexivity.
  - rewrite (emits_events_of _ _ (delete_tree_emits t)).
    apply deleted_trees_delete_son.
  - rewrite (emits_events_of _ _ (delete_tree_emits t)).
    apply deleted_objects_delete_son.
  - destruct w. reflexivity.
Qed.

(** C5.  [traverse_leaves(f)], in both its forms, has the effect of
    calling [f] once on each entry of the vector filled by
    [stick_leaves_into_vector], in the order of the vector; every entry
    of that vector is a node without sons; and the vector is the one
    filled by [stick_all_tree_nodes_into_vector] (the nodes in preorder)
    with the nodes that have sons left out. *)
Theorem traverse_leaves_visits_stuck_leaves
    (f : VoidMemberFctPt) (g : VoidMeshPtArgumentMemberFctPt)
    (mesh_pt : ptr) (t : Tree) (tree_nodes : list Tree) (w : world) :
  traverse_leaves f t w = for_each f (stick_leaves_into_vector t []) w
  /\ traverse_leaves_mesh g t mesh_pt w =
     for_each (fun n => g n mesh_pt) (stick_leaves_into_vector t []) w
  /\ Forall (fun n => Son_pt n = []) (stick_leaves_into_vector t [])
  /\ stick_leaves_into_vector t tree_nodes =
       tree_nodes ++
       filter (fun n => nsons n = 0%nat)
              (stick_all_tree_nodes_into_vector t [])
  /\ stick_all_tree_nodes_into_vector t tree_nodes =
       tree_nodes ++ preorder t.
Proof.
  split; [|split; [|split; [|split]]].
  - rewrite traverse_leaves_for_each, stick_leaves_preorder. reflexivity.
  - rewrite traverse_leaves_mesh_traverse_leaves, traverse_leaves_for_each,
      stick_leaves_preorder. reflexivity.
  - rewrite stick_leaves_preorder. cbn [app].
    apply Forall_forall. intros n Hn.
    apply list_elem_of_filter in Hn as [Hl _].
    unfold is_leaf, nsons in Hl. destruct (Son_pt n); [reflexivity|].
    discriminate.
  - rewrite stick_leaves_preorder, stick_all_preorder. reflexivity.
  - apply stick_all_preorder.
Qed.

(** *** Construction *)



Lemma exec_set_tree_pt object_pt this w :
  exec (set_tree_pt object_pt this) w =
  mkWorld (<[object_pt := this]> (Tree_pt w)) (Sons_to_be_unrefined w)
          (trace w ++ [Ev_set_tree_pt object_pt this])
          (Deleted w) (Undefined_behaviour w).
Proof. reflexivity. Qed.

Lemma tree_pt_after_set object_pt this w :
  tree_pt (exec (set_tree_pt object_pt this) w) object_pt = this.
Proof.
  rewrite exec_set_tree_pt. unfold tree_pt. cbn [Tree_pt].
  rewrite lookup_insert_eq. reflexivity.
Qed.




(** C9.  When either constructor of [Tree] (and so [construct_son]) has
    run, the last call it made is [set_tree_pt(this)] on the element it
    was given, the element's tree pointer is the address of the new node,
    and the new node's object pointer is that element. *)
Theorem constructors_set_element_back_pointer
    (this object_pt : ptr) (father : Tree) (son_type : Z) (w : world) :
  let root := eval (Tree_ctor_root this object_pt) w in
  let w_root := exec (Tree_ctor_root this object_pt) w in
  let son := eval (Tree_ctor_son this object_pt father son_type) w in
  let w_son := exec (Tree_ctor_son this object_pt father son_type) w in
  (This root = this /\ Object_pt root = object_pt
   /\ tree_pt w_root (Object_pt root) = This root
   /\ trace w_root = trace w ++ [Ev_set_tree_pt object_pt this])
  /\ (This son = this /\ Object_pt son = object_pt
      /\ tree_pt w_son (Object_pt son) = This son
      /\ trace w_son = trace w ++ [Ev_set_tree_pt object_pt this])
  /\ QuadTreeNS.construct_son this object_pt father son_type w =
       Tree_ctor_son this object_pt father son_type w.
Proof.
  cbv zeta. repeat split.
  - apply (tree_pt_after_set object_pt this w).
  - apply (tree_pt_after_set object_pt this w).
Qed.

(** *** The tree [some_tree] *)

Example some_tree_leaves :
  map This (stick_leaves_into_vector some_tree []) = [2; 5; 4]%N
  /\ map This (stick_all_tree_nodes_into_vector some_tree []) =
     [1; 2; 3; 5; 4]%N.
Proof. split; reflexivity. Qed.

Example some_tree_deleted :
  events_of (delete_tree some_tree) =
  [Ev_delete_tree 2%N; Ev_delete_tree 5%N; Ev_delete_object 30%N;
   Ev_delete_tree 3%N; Ev_delete_tree 4%N; Ev_delete_object 10%N;
   Ev_delete_tree 1%N].
Proof. reflexivity. Qed.

Example some_tree_not_merged :
  merge_sons_if_required some_tree 99%N empty_world =
  (some_tree, mkWorld ∅ ∅ [Ev_sons_to_be_unrefined 10%N] ∅ false).
Proof. reflexivity. Qed.

Example some_tree_merged :
  trace (exec (merge_sons_if_required some_tree 99%N)
              (mkWorld ∅ {[10%N]} [] ∅ false)) =
  [Ev_sons_to_be_unrefined 10%N; Ev_rebuild_from_sons 10%N 99%N;
   Ev_unbuild 20%N; Ev_delete_object 20%N; Ev_delete_tree 2%N;
   Ev_unbuild 30%N; Ev_delete_object 30%N; Ev_delete_tree 5%N;
   Ev_delete_object 30%N; Ev_delete_tree 3%N;
   Ev_unbuild 40%N; Ev_delete_object 40%N; Ev_delete_tree 4%N;
   Ev_deselect_sons_for_unrefinement 10%N]
  /\ Son_pt (eval (merge_sons_if_required some_tree 99%N)
                  (mkWorld ∅ {[10%N]} [] ∅ false)) = [].
Proof. split; vm_compute; reflexivity. Qed.

End TreeFacts.

Module QuadTreeFacts.
Import TreeNS QuadTreeNS TreeFacts.

(** C8.  The default constructors of [QuadTree] and [QuadTreeForest]
    always end by throwing an [OomphLibError].  If the default
    constructor of the base class throws, that error propagates;
    otherwise the error is the one built in the body, with the function
    and the location of the throw.  No object is ever returned. *)
Theorem default_ctors_always_throw
    (F L : throw_site -> string) (base : option OomphLibError)
    (t : Tree) (forest : list QuadTreeRoot) :
  QuadTree_default_ctor F L base =
    Throws (default
              (mkOomphLibError
                 "Don't call an empty constructor for a QuadTree object"
                 (F In_QuadTree_default_ctor) (L In_QuadTree_default_ctor))
              base)
  /\ QuadTreeForest_default_ctor F L base =
    Throws (default
              (mkOomphLibError
                 "Don't call an empty constructor for a QuadTreeForest object"
                 (F In_QuadTreeForest_default_ctor)
                 (L In_QuadTreeForest_default_ctor))
              base)
  /\ QuadTree_default_ctor F L base <> Returns t
  /\ QuadTreeForest_default_ctor F L base <> Returns forest.
Proof.
  destruct base as [e|]; cbn; repeat split; discriminate.
Qed.

(** C6, as the code has it.  In a build with PARANOID, constructing a
    [QuadTreeRoot] while [Static_data_has_been_setup] is false throws the
    [OomphLibError] with the "Static member data hasn't been setup yet"
    message and the function and location of the throw, and no root is
    returned.  With the static data set up, or in a build without
    PARANOID whatever the flag, the constructor returns the root with
    level 0, no father, itself as root and [N] as north equivalent of
    [N], [E], [W] and [S]. *)
Theorem QuadTreeRoot_ctor_checks_static_data_when_PARANOID
    (F L : throw_site -> string) (setup : bool) (this object_pt : ptr)
    (w : world) :
  eval (QuadTreeRoot_ctor true F L false this object_pt) w =
    Throws (static_data_error F L)
  /\ eval (QuadTreeRoot_ctor true F L true this object_pt) w =
    Returns (fresh_root this object_pt)
  /\ eval (QuadTreeRoot_ctor false F L setup this object_pt) w =
    Returns (fresh_root this object_pt).
Proof.
  repeat split.
Qed.

(** C6 as stated fails: in a build without PARANOID the constructor
    returns a root although the static data has not been set up. *)
Lemma QuadTreeRoot_ctor_unchecked_without_PARANOID :
  eval (QuadTreeRoot_ctor false some_function some_location false 1%N 2%N)
       empty_world = Returns (fresh_root 1%N 2%N)
  /\ ~ (forall (PARANOID : bool) (this object_pt : ptr) (w : world),
          exists e,
            eval (QuadTreeRoot_ctor PARANOID some_function some_location
                                    false this object_pt) w = Throws e).
Proof.
  split; [reflexivity|].
  intros H. destruct (H false 1%N 2%N empty_world) as [e He].
  discriminate He.
Qed.

(** C7, as the code has it.  On a root whose [North_equivalent] has the
    27 entries the constructor gives it: in a build with PARANOID,
    [north_equivalent(neighbour)] returns the reference to entry
    [neighbour] when [neighbour] is one of N, S, E, W; for another
    [neighbour] it reads [Direct_string[neighbour]] for the message, so
    that it throws the [OomphLibError] with that name and the function
    and location of the throw when [neighbour] is an index of
    [Direct_string] (0 to 26 for the table of 27 names), and is not
    defined when it is not.  In a build without PARANOID no direction is
    rejected, and the reference to entry [neighbour] is returned for
    every index inside the vector.  Reading through the returned
    reference gives the stored entry. *)
Theorem north_equivalent_checks_direction_when_PARANOID
    (F L : throw_site -> string) (Direct_string : list string)
    (r : QuadTreeRoot) (neighbour : Z)
    (Hsize : length (North_equivalent r) = 27%nat) :
  north_equivalent true F L Direct_string r neighbour =
    (if NSEW_dec neighbour
     then Returns (mk_int_ref (Z.to_nat neighbour))
     else if decide (0 <= neighbour < Z.of_nat (length Direct_string))
     then Throws (neighbour_error F L
                    (default EmptyString
                             (Direct_string !! Z.to_nat neighbour)))
     else Undefined)
  /\ (length Direct_string = 27%nat -> 0 <= neighbour < 27 ->
      NSEW_dec neighbour = false ->
      exists direct_string,
        Direct_string !! Z.to_nat neighbour = Some direct_string
        /\ north_equivalent true F L Direct_string r neighbour =
           Throws (neighbour_error F L direct_string))
  /\ north_equivalent false F L Direct_string r neighbour =
    (if bool_decide (0 <= neighbour < 27)
     then Returns (mk_int_ref (Z.to_nat neighbour))
     else Undefined)
  /\ load r (mk_int_ref (Z.to_nat neighbour)) =
    North_equivalent r !! Z.to_nat neighbour.
Proof.
  assert (Hfirst :
    north_equivalent true F L Direct_string r neighbour =
    (if NSEW_dec neighbour
     then Returns (mk_int_ref (Z.to_nat neighbour))
     else if decide (0 <= neighbour < Z.of_nat (length Direct_string))
     then Throws (neighbour_error F L
                    (default EmptyString
                             (Direct_string !! Z.to_nat neighbour)))
     else Undefined)).
  { unfold north_equivalent, NSEW_dec, Vector_index, Vector_read.
    rewrite Hsize. cbn [andb].
    unfold QuadTreeNames.N, QuadTreeNames.S, QuadTreeNames.E,
      QuadTreeNames.W.
    repeat case_bool_decide; cbn [andb]; try (case_decide; [reflexivity|lia]);
      try lia.
    destruct (decide (0 <= neighbour)) as [Hn|Hn].
    - destruct (Direct_string !! Z.to_nat neighbour) as [name|] eqn:Hname.
      + apply lookup_lt_Some in Hname.
        rewrite decide_True by lia. reflexivity.
      + apply lookup_ge_None in Hname.
        rewrite decide_False by lia. reflexivity.
    - rewrite decide_False by lia. reflexivity. }
  split; [exact Hfirst|split; [|split; [|reflexivity]]].
  - intros HD Hn Hdir.
    destruct (lookup_lt_is_Some_2 Direct_string (Z.to_nat neighbour))
      as [name Hname]; [lia|].
    exists name. split; [exact Hname|].
    rewrite Hfirst, Hdir, Hname, decide_True by lia. reflexivity.
  - clear Hfirst.
    unfold north_equivalent, Vector_index. rewrite Hsize. cbn [andb].
    case_bool_decide; case_decide; try reflexivity; lia.
Qed.

Lemma north_equivalent_checks_direction_when_PARANOID_witness :
  length (North_equivalent (fresh_root 1%N 2%N)) = 27%nat
  /\ north_equivalent true some_function some_location some_Direct_string
                      (fresh_root 1%N 2%N) QuadTreeNames.NE =
     Throws (neighbour_error some_function some_location "NE").
Proof.
  split; [reflexivity|].
  exact (proj1 (north_equivalent_checks_direction_when_PARANOID
                  some_function some_location some_Direct_string
                  (fresh_root 1%N 2%N) QuadTreeNames.NE eq_refl)).
Defined.

(** In a build with PARANOID a direction that is outside
    [Direct_string] is not rejected with an error: the message cannot
    be built. *)
Example north_equivalent_outside_Direct_string :
  north_equivalent true some_function some_location some_Direct_string
                   (fresh_root 1%N 2%N) 27 = Undefined
  /\ north_equivalent true some_function some_location some_Direct_string
                      (fresh_root 1%N 2%N) (-1) = Undefined
  /\ north_equivalent true some_function some_location []
                      (fresh_root 1%N 2%N) QuadTreeNames.NE = Undefined.
Proof. repeat split. Qed.

(** C7 as stated fails: in a build without PARANOID the direction NE is
    not rejected; the call returns the reference to entry NE. *)
Lemma north_equivalent_unchecked_without_PARANOID :
  north_equivalent false some_function some_location some_Direct_string
                   (fresh_root 1%N 2%N) QuadTreeNames.NE =
    Returns (mk_int_ref 3)
  /\ ~ (forall (PARANOID : bool) (r : QuadTreeRoot) (d : Z),
          d <> QuadTreeNames.N -> d <> QuadTreeNames.S ->
          d <> QuadTreeNames.E -> d <> QuadTreeNames.W ->
          exists e,
            north_equivalent PARANOID some_function some_location
                             some_Direct_string r d = Throws e).
Proof.
  split; [reflexivity|].
  intros H.
  destruct (H false (fresh_root 1%N 2%N) QuadTreeNames.NE) as [e He];
    try discriminate.
Qed.

(** C10.  [direction_of_neighbour(p)] is the first of N, E, S, W (in
    this order) whose neighbour pointer equals [p], and OMEGA if there
    is none; it is OMEGA only in that case.  So a root whose pointer in
    a direction is null answers the null pointer with a direction, not
    OMEGA, and a root that stores [p] to the north answers N whatever
    its other pointers are. *)
Theorem direction_of_neighbour_first_match (r : QuadTreeRoot) (p : ptr) :
  direction_of_neighbour r p =
    default QuadTreeNames.OMEGA
            (head (filter (fun d => neighbour_pt r d = p) NESW))
  /\ (direction_of_neighbour r p = QuadTreeNames.OMEGA <->
      Forall (fun d => neighbour_pt r d <> p) NESW)
  /\ Forall (fun d =>
               direction_of_neighbour (set_neighbour r d null) null ∈ NESW)
            NESW
  /\ direction_of_neighbour (set_neighbour r QuadTreeNames.N p) p =
      QuadTreeNames.N
  /\ direction_of_neighbour
       (set_neighbour (set_neighbour (set_neighbour r
          QuadTreeNames.N (p + 1)%N) QuadTreeNames.E p) QuadTreeNames.W p)
       p = QuadTreeNames.E.
Proof.
  assert (Hset : forall r' d q, neighbour_pt (set_neighbour r' d q) d = q).
  { intros r' d q. unfold neighbour_pt, set_neighbour. cbn [Neighbour_pt].
    rewrite lookup_insert_eq. reflexivity. }
  assert (Hne : forall r' d d' q,
             d <> d' ->
             neighbour_pt (set_neighbour r' d q) d' = neighbour_pt r' d').
  { intros r' d d' q Hd. unfold neighbour_pt, set_neighbour.
    cbn [Neighbour_pt]. rewrite lookup_insert_ne by exact Hd. reflexivity. }
  split; [|split; [|split; [|split]]].
  - unfold direction_of_neighbour, NESW.
    rewrite !filter_cons, filter_nil.
    repeat case_decide; reflexivity.
  - unfold direction_of_neighbour, NESW.
    rewrite !Forall_cons, Forall_nil.
    repeat case_decide; split; try tauto; try discriminate.
  - unfold NESW. repeat apply Forall_cons_2; [| | | |apply Forall_nil_2].
    all: match goal with
         | |- direction_of_neighbour (set_neighbour _ ?d _) _ ∈ _ =>
             pose proof (Hset r d null) as Hd
         end.
    all: unfold direction_of_neighbour; repeat case_decide;
      rewrite !elem_of_cons; tauto.
  - unfold direction_of_neighbour. rewrite Hset.
    case_decide; [reflexivity | contradiction].
  - unfold direction_of_neighbour.
    rewrite (Hne _ QuadTreeNames.W QuadTreeNames.N) by discriminate.
    rewrite (Hne _ QuadTreeNames.E QuadTreeNames.N) by discriminate.
    rewrite (Hne _ QuadTreeNames.W QuadTreeNames.E) by discriminate.
    rewrite !Hset.
    case_decide as H1; [lia|].
    case_decide; [reflexivity | contradiction].
Qed.

(** *** The root [some_root] *)

Example some_root_directions :
  direction_of_neighbour some_root 7%N = QuadTreeNames.E
  /\ direction_of_neighbour some_root null = QuadTreeNames.N
  /\ direction_of_neighbour some_root 9%N = QuadTreeNames.OMEGA.
Proof. repeat split. Qed.

End QuadTreeFacts.

(* ===================================================================== *)
(** ** Facts about binary64: sums and products through [bra_Z]            *)
(* ===================================================================== *)

Module Binary64Facts.
Import PolarCR Rounding.

(** *** Digits and shifts *)

Lemma digits2_pos_size p : digits2_pos p = Pos.size p.
Proof. induction p; simpl; congruence. Qed.

Lemma Zdigits2_log2 V : 0 < V -> Zdigits2 V = Z.log2 V + 1.
Proof.
  destruct V as [|p|p]; try lia. intros _. simpl.
  rewrite digits2_pos_size. destruct p; simpl; lia.
Qed.

(** A number between [2 ^ (k - 1)] and [2 ^ k] has [k] binary digits. *)
Lemma Zdigits2_unique V k :
  0 < k -> 2 ^ (k - 1) <= V < 2 ^ k -> Zdigits2 V = k.
Proof.
  intros Hk HV.
  assert (0 < V) by (pose proof (Z.pow_pos_nonneg 2 (k - 1)); lia).
  rewrite Zdigits2_log2 by assumption.
  rewrite (Z.log2_unique V (k - 1)); try lia.
  replace (Z.succ (k - 1)) with k by lia. exact HV.
Qed.

(** One right shift halves the mantissa and moves the bits out. *)
Lemma shr_1_nonneg m r s :
  0 <= m ->
  shr_1 (Build_shr_record m r s) =
  Build_shr_record (m / 2) (Z.odd m) (r || s).
Proof.
  intros Hm. destruct m as [|p|p]; try lia.
  - reflexivity.
  - destruct p as [p|p|]; cbn [shr_1].
    + f_equal. rewrite <- Z.div2_div. reflexivity.
    + f_equal. rewrite <- Z.div2_div. reflexivity.
    + reflexivity.
Qed.

Lemma iter_pos_nat {A} (f : A -> A) n : forall x,
  SpecFloat.iter_pos f n x = Nat.iter (Pos.to_nat n) f x.
Proof.
  induction n as [n IH|n IH|]; intros x; cbn [SpecFloat.iter_pos].
  - rewrite !IH, Pos2Nat.inj_xI.
    replace (S (2 * Pos.to_nat n))%nat
      with (Pos.to_nat n + (Pos.to_nat n + 1))%nat by lia.
    rewrite !Nat.iter_add. reflexivity.
  - rewrite !IH, Pos2Nat.inj_xO.
    replace (2 * Pos.to_nat n)%nat with (Pos.to_nat n + Pos.to_nat n)%nat by lia.
    rewrite Nat.iter_add. reflexivity.
  - reflexivity.
Qed.

Lemma odd_mod2 x : Z.odd x = (x mod 2 =? 1).
Proof. rewrite Zmod_odd. destruct (Z.odd x); reflexivity. Qed.

Lemma even_mod2 x : Z.even x = (x mod 2 =? 0).
Proof. rewrite Zmod_even. destruct (Z.even x); reflexivity. Qed.

(** [k + 1] right shifts: the quotient, the round bit, the sticky bit. *)
Lemma shr_nat_spec V k :
  0 <= V ->
  Nat.iter (S k) shr_1 (Build_shr_record V false false) =
  Build_shr_record (V / 2 ^ Z.of_nat (S k)) (round_bit V (Z.of_nat (S k)))
                   (sticky_bit V (Z.of_nat (S k))).
Proof.
  intros HV. induction k as [|k IH].
  - cbn [Nat.iter]. rewrite shr_1_nonneg by assumption.
    unfold round_bit, sticky_bit. cbn. rewrite Z.div_1_r, Z.mod_1_r.
    rewrite odd_mod2. reflexivity.
  - rewrite Nat.iter_succ, IH.
    rewrite shr_1_nonneg by (apply Z.div_pos; lia).
    unfold round_bit, sticky_bit. rewrite !Nat2Z.inj_succ.
    set (j := Z.of_nat k). assert (Hj : 0 <= j) by lia. clearbody j.
    replace (Z.succ (Z.succ j) - 1) with (Z.succ j) by lia.
    replace (Z.succ j - 1) with j by lia.
    assert (H2j : 0 < 2 ^ j) by (apply Z.pow_pos_nonneg; lia).
    rewrite odd_mod2. f_equal.
    + rewrite Z.div_div by lia.
      rewrite (Z.pow_succ_r 2 (Z.succ j)) by lia.
      f_equal. lia.
    + rewrite (Z.pow_succ_r 2 j) by lia.
      rewrite (Z.mul_comm 2 (2 ^ j)).
      rewrite Z.rem_mul_r by lia.
      pose proof (Z.mod_pos_bound V (2 ^ j) H2j) as Hb.
      pose proof (Z.mod_pos_bound (V / 2 ^ j) 2 ltac:(lia)) as Hb2.
      destruct (Z.eqb_spec ((V / 2 ^ j) mod 2) 1) as [Hodd|Hodd].
      * rewrite Hodd.
        cbn [orb]. symmetry. apply negb_true_iff, Z.eqb_neq. nia.
      * replace ((V / 2 ^ j) mod 2) with 0 by lia.
        rewrite Z.mul_0_r, Z.add_0_r. reflexivity.
Qed.

Lemma fexp_fexp64 x : fexp prec emax x = fexp64 x.
Proof. reflexivity. Qed.

Lemma shr_fexp_spec V E :
  0 <= V ->
  shr_fexp prec emax V E loc_Exact =
  let n := fexp64 (Zdigits2 V + E) - E in
  if 0 <? n
  then (Build_shr_record (V / 2 ^ n) (round_bit V n) (sticky_bit V n), E + n)
  else (Build_shr_record V false false, E).
Proof.
  intros HV. unfold shr_fexp. rewrite fexp_fexp64. cbv zeta.
  cbn [shr_record_of_loc].
  destruct (fexp64 (Zdigits2 V + E) - E) as [|p|p] eqn:Hn; cbn [shr Z.ltb Z.compare].
  - reflexivity.
  - rewrite iter_pos_nat.
    destruct (Pos2Nat.is_succ p) as [k Hk]. rewrite Hk.
    rewrite shr_nat_spec by assumption.
    replace (Z.of_nat (S k)) with (Z.pos p) by lia. reflexivity.
  - reflexivity.
Qed.

Lemma rne_nonneg V n : 0 <= V -> 0 <= rne V n.
Proof.
  intros HV. unfold rne. cbv zeta.
  assert (0 <= V / 2 ^ n).
  { destruct (Z.le_gt_cases 0 n).
    - apply Z.div_pos; [lia | apply Z.pow_pos_nonneg; lia].
    - rewrite Z.pow_neg_r by lia. rewrite Z.div_0_r. lia. }
  repeat match goal with |- context [if ?b then _ else _] => destruct b end; lia.
Qed.

Lemma round_nearest_even_rne V n :
  round_nearest_even (V / 2 ^ n)
    (loc_of_shr_record
       (Build_shr_record (V / 2 ^ n) (round_bit V n) (sticky_bit V n)))
  = rne V n.
Proof.
  unfold rne. cbv zeta. cbn [loc_of_shr_record].
  destruct (round_bit V n), (sticky_bit V n); cbn [round_nearest_even];
    try reflexivity.
  rewrite even_mod2. reflexivity.
Qed.

(** *** Rounding a mantissa and an exponent to binary64 *)

(** [binary_round_aux] of SpecFloat, in integer arithmetic. *)
Lemma binary_round_aux_spec s V E :
  0 <= V ->
  binary_round_aux prec emax s V E loc_Exact = of_mantissa s (bra_Z V E).
Proof.
  intros HV. unfold binary_round_aux, bra_Z.
  rewrite shr_fexp_spec by assumption. cbv zeta.
  destruct (0 <? fexp64 (Zdigits2 V + E) - E) eqn:Hn.
  - cbv beta iota. cbn [shr_m].
    rewrite round_nearest_even_rne.
    set (R := rne V _).
    assert (0 <= R) by (apply rne_nonneg; assumption).
    rewrite shr_fexp_spec by assumption. cbv zeta.
    match goal with
    | |- context [if 0 <? ?x then _ else _] => destruct (0 <? x)
    end; reflexivity.
  - cbv beta iota. cbn [shr_m round_nearest_even loc_of_shr_record].
    rewrite shr_fexp_spec by assumption. cbv zeta.
    rewrite Hn. reflexivity.
Qed.

Lemma binary_round_spec s v e :
  e <= fexp64 (Zdigits2 (Zpos v) + e) ->
  binary_round prec emax s v e = of_mantissa s (bra_Z (Zpos v) e).
Proof.
  intros He. unfold binary_round, shl_align. rewrite fexp_fexp64.
  change (Z.pos (digits2_pos v)) with (Zdigits2 (Zpos v)).
  destruct (fexp64 (Zdigits2 (Z.pos v) + e) - e) eqn:Hd; try lia;
    apply binary_round_aux_spec; lia.
Qed.

Lemma iter_xO_pow m d : Zpos (Pos.iter xO m d) = Zpos m * 2 ^ Zpos d.
Proof.
  induction d as [|d IH] using Pos.peano_ind.
  - cbn. lia.
  - rewrite Pos.iter_succ, Pos2Z.inj_succ, Z.pow_succ_r by lia.
    rewrite Pos2Z.inj_xO, IH. lia.
Qed.

Lemma shl_align_spec m e ez :
  ez <= e -> Zpos (fst (shl_align m e ez)) = Zpos m * 2 ^ (e - ez).
Proof.
  intros He. unfold shl_align.
  destruct (ez - e) as [|d|d] eqn:Hd; try lia; cbn [fst].
  - replace (e - ez) with 0 by lia. lia.
  - rewrite iter_xO_pow. f_equal. f_equal. lia.
Qed.

(** *** Sums of two numbers of one sign, and products *)
Lemma fadd_same_sign s m1 e1 m2 e2 :
  e2 <= e1 ->
  e2 <= fexp64 (Zdigits2 (Zpos m1 * 2 ^ (e1 - e2) + Zpos m2) + e2) ->
  d_add (S754_finite s m1 e1) (S754_finite s m2 e2) =
  of_mantissa s (bra_Z (Zpos m1 * 2 ^ (e1 - e2) + Zpos m2) e2).
Proof.
  intros He Hf. unfold d_add, SFadd.
  replace (Z.min e1 e2) with e2 by lia.
  assert (H1 := shl_align_spec m1 e1 e2 He).
  assert (H2 := shl_align_spec m2 e2 e2 (Z.le_refl _)).
  rewrite Z.sub_diag, Z.pow_0_r, Z.mul_1_r in H2.
  set (a := fst (shl_align m1 e1 e2)) in *.
  set (b := fst (shl_align m2 e2 e2)) in *.
  assert (Hab : Zpos (a + b) = Zpos m1 * 2 ^ (e1 - e2) + Zpos m2).
  { rewrite Pos2Z.inj_add, H1, H2. reflexivity. }
  rewrite <- Hab in *.
  destruct s; cbn [cond_Zopp Z.opp Z.add binary_normalize];
    apply binary_round_spec; assumption.
Qed.

Lemma fmul_finite s1 m1 e1 s2 m2 e2 :
  d_mul (S754_finite s1 m1 e1) (S754_finite s2 m2 e2) =
  of_mantissa (xorb s1 s2) (bra_Z (Zpos m1 * Zpos m2) (e1 + e2)).
Proof.
  unfold d_mul, SFmul. rewrite binary_round_aux_spec by lia.
  rewrite Pos2Z.inj_mul. reflexivity.
Qed.

Lemma fexp_digits_exact V E k :
  0 < k -> 2 ^ (k - 1) <= V < 2 ^ k ->
  fexp64 (Zdigits2 V + E) = Z.max (k + E - 53) (-1074).
Proof. intros Hk HV. rewrite (Zdigits2_unique V k Hk HV). reflexivity. Qed.

Lemma Zdigits2_le V k : 0 < k -> 0 < V < 2 ^ k -> Zdigits2 V <= k.
Proof.
  intros Hk HV. rewrite Zdigits2_log2 by lia.
  assert (Z.log2 V < k); [|lia].
  apply Z.log2_lt_pow2; lia.
Qed.

Lemma fexp_digits_small V E k :
  0 < k -> 0 < V < 2 ^ k -> k + E - 53 <= -1074 ->
  fexp64 (Zdigits2 V + E) = -1074.
Proof.
  intros Hk HV HE. pose proof (Zdigits2_le V k Hk HV).
  unfold fexp64. lia.
Qed.

(** *** Evaluating [bra_Z] *)

(** At most 53 bits: the number is representable as it is. *)
Lemma bra_Z_noshift V E :
  0 < V < 2 ^ 53 -> -1074 <= E -> bra_Z V E = (V, E).
Proof.
  intros HV HE. unfold bra_Z.
  pose proof (Zdigits2_le V 53 ltac:(lia) HV) as Hd.
  assert (Hf : fexp64 (Zdigits2 V + E) - E <= 0) by (unfold fexp64; lia).
  cbv zeta.
  destruct (Z.ltb_spec 0 (fexp64 (Zdigits2 V + E) - E)); [lia|].
  destruct (Z.ltb_spec 0 (fexp64 (Zdigits2 V + E) - E)); [lia|].
  reflexivity.
Qed.

(** [n] bits too many: one rounding. *)
Lemma bra_Z_shift V E n R :
  0 < V -> fexp64 (Zdigits2 V + E) - E = n -> 0 < n ->
  rne V n = R -> 0 < R < 2 ^ 53 -> -1074 <= E + n ->
  bra_Z V E = (R, E + n).
Proof.
  intros HV Hn Hpos HR HRb HE. unfold bra_Z. rewrite Hn. cbv zeta.
  destruct (Z.ltb_spec 0 n); [|lia]. rewrite HR.
  pose proof (Zdigits2_le R 53 ltac:(lia) HRb) as Hd.
  destruct (Z.ltb_spec 0 (fexp64 (Zdigits2 R + (E + n)) - (E + n)));
    [unfold fexp64 in *; lia|].
  reflexivity.
Qed.

(** The rounding carries into a 54th bit. *)
Lemma bra_Z_shift_carry V E n :
  0 < V -> fexp64 (Zdigits2 V + E) - E = n -> 0 < n ->
  rne V n = 2 ^ 53 -> -1074 <= E + n ->
  bra_Z V E = (2 ^ 52, E + n + 1).
Proof.
  intros HV Hn Hpos HR HE. unfold bra_Z. rewrite Hn. cbv zeta.
  destruct (Z.ltb_spec 0 n); [|lia]. rewrite HR.
  assert (Hd : Zdigits2 (2 ^ 53) = 54) by reflexivity.
  rewrite Hd.
  assert (Hf : fexp64 (54 + (E + n)) - (E + n) = 1) by (unfold fexp64; lia).
  rewrite Hf. cbn [Z.ltb Z.compare]. f_equal; lia.
Qed.

Ltac rne_solve :=
  unfold rne, round_bit, sticky_bit; cbv zeta;
  repeat match goal with
         | |- context [?a =? ?b] => destruct (Z.eqb_spec a b)
         end;
  cbn [negb]; cbv iota;
  try (Z.div_mod_to_equations; lia).

Lemma fexp_54 V E : 9007199254740992 <= V < 18014398509481984 ->
  -1075 <= E -> fexp64 (Zdigits2 V + E) - E = 1.
Proof.
  intros HV HE. rewrite (fexp_digits_exact V E 54); lia.
Qed.

(** *** Four times a normal number, and a quarter of it *)

Section Normal.
Variables (s : bool) (m : positive) (e : Z).
Hypothesis Hm : 4503599627370496 <= Zpos m < 9007199254740992.
Hypothesis He : -1074 <= e <= 969.

(** [p + p]: the exponent goes up by one. *)
Lemma p_plus_p :
  d_add (S754_finite s m e) (S754_finite s m e) = S754_finite s m (e + 1).
Proof.
  assert (Hf : fexp64 (Zdigits2 (Zpos m * 2 ^ (e - e) + Zpos m) + e) - e = 1).
  { rewrite Z.sub_diag. apply fexp_54; lia. }
  rewrite fadd_same_sign by lia.
  rewrite (bra_Z_shift _ e 1 (Zpos m)); try lia.
  - unfold of_mantissa. cbn [fst snd].
    destruct (Z.leb_spec (e + 1) 971); [reflexivity | lia].
  - rewrite Z.sub_diag. change (2 ^ 0) with 1. change (2 ^ 1) with 2.
    rne_solve.
Qed.

(** [2p + p]: rounded to 53 bits, one or two bits being dropped; the
    rounded value is within reach of [4p] at the next step. *)
Lemma two_p_plus_p :
  exists (M3 : positive) (k : Z),
    d_add (S754_finite s m (e + 1)) (S754_finite s m e) =
      S754_finite s M3 (e + k)
    /\ (k = 1 \/ k = 2)
    /\ 4503599627370496 <= Zpos M3 < 9007199254740992
    /\ 18014398509481984 <= Zpos M3 * 2 ^ k + Zpos m < 36028797018963968
    /\ rne (Zpos M3 * 2 ^ k + Zpos m) 2 = Zpos m.
Proof.
  assert (Hee : e + 1 - e = 1) by lia.
  destruct (Z.lt_ge_cases (3 * Zpos m) 18014398509481984) as [Hlt|Hge].
  - (* 54 digits *)
    assert (Hf : fexp64 (Zdigits2 (Zpos m * 2 ^ (e + 1 - e) + Zpos m) + e)
                 - e = 1).
    { rewrite Hee. change (2 ^ 1) with 2. apply fexp_54; lia. }
    rewrite fadd_same_sign by lia.
    rewrite Hee in *. change (2 ^ 1) with 2 in *.
    set (R := rne (Zpos m * 2 + Zpos m) 1).
    assert (HR : 4503599627370496 <= R <= 9007199254740992
                 /\ -1 <= 2 * R - 3 * Zpos m <= 1).
    { subst R. change (2 ^ 1) with 2. rne_solve. }
    destruct (Z.eq_dec R 9007199254740992) as [Hc|Hc].
    + rewrite (bra_Z_shift_carry _ e 1); try lia.
      exists 4503599627370496%positive, 2.
      split.
      { unfold of_mantissa. cbn [fst snd]. change (2 ^ 52) with 4503599627370496.
        cbv iota beta.
        replace (e + 1 + 1) with (e + 2) by lia.
        destruct (Z.leb_spec (e + 2) 971); [reflexivity | lia]. }
      change (2 ^ 2) with 4.
      split; [lia|]. split; [lia|]. split; [lia|].
      rne_solve.
    + rewrite (bra_Z_shift _ e 1 R); try lia.
      destruct R as [|M3|M3] eqn:HM3; try lia.
      exists M3, 1. change (2 ^ 1) with 2.
      split.
      { unfold of_mantissa. cbn [fst snd].
        destruct (Z.leb_spec (e + 1) 971); [reflexivity | lia]. }
      split; [lia|]. split; [lia|].
      assert (Hnot : Zpos m <> 4503599627370496 \/ 2 * Zpos M3 = 3 * Zpos m).
      { destruct (Z.eq_dec (Zpos m) 4503599627370496) as [Hm0|Hm0];
          [right|left; assumption].
        subst R. rewrite Hm0 in HM3. vm_compute in HM3.
        injection HM3 as <-. rewrite Hm0. reflexivity. }
      split; [lia|].
      rne_solve.
  - (* 55 digits *)
    assert (Hf : fexp64 (Zdigits2 (Zpos m * 2 ^ (e + 1 - e) + Zpos m) + e)
                 - e = 2).
    { rewrite Hee. change (2 ^ 1) with 2.
      rewrite (fexp_digits_exact _ e 55); lia. }
    rewrite fadd_same_sign by lia.
    rewrite Hee in *. change (2 ^ 1) with 2 in *.
    set (R := rne (Zpos m * 2 + Zpos m) 2).
    assert (HR : 4503599627370496 <= R < 9007199254740992
                 /\ -2 <= 4 * R - 3 * Zpos m <= 2
                 /\ (4 * R - 3 * Zpos m = 2 -> R mod 2 = 0)
                 /\ (4 * R - 3 * Zpos m = -2 -> R mod 2 = 0)).
    { subst R. change (2 ^ 2) with 4. rne_solve. }
    rewrite (bra_Z_shift _ e 2 R); try lia.
    destruct R as [|M3|M3] eqn:HM3; try lia.
    exists M3, 2. change (2 ^ 2) with 4.
    split.
    { unfold of_mantissa. cbn [fst snd].
      destruct (Z.leb_spec (e + 2) 971); [reflexivity | lia]. }
    split; [lia|]. split; [lia|]. split; [lia|].
    rne_solve.
Qed.

(** [3p + p]: the rounding error of the step before is rounded away. *)
Lemma three_p_plus_p (M3 : positive) (k : Z) :
  k = 1 \/ k = 2 ->
  18014398509481984 <= Zpos M3 * 2 ^ k + Zpos m < 36028797018963968 ->
  rne (Zpos M3 * 2 ^ k + Zpos m) 2 = Zpos m ->
  d_add (S754_finite s M3 (e + k)) (S754_finite s m e) =
    S754_finite s m (e + 2).
Proof.
  intros Hk HV Hrne.
  assert (Hee : e + k - e = k) by lia.
  assert (Hf : fexp64 (Zdigits2 (Zpos M3 * 2 ^ (e + k - e) + Zpos m) + e)
               - e = 2).
  { rewrite Hee. rewrite (fexp_digits_exact _ e 55); lia. }
  rewrite fadd_same_sign by lia.
  rewrite Hee in *.
  rewrite (bra_Z_shift _ e 2 (Zpos m)); try lia.
  unfold of_mantissa. cbn [fst snd].
  destruct (Z.leb_spec (e + 2) 971); [reflexivity | lia].
Qed.

(** [0.25 * 4p] *)
Lemma quarter_times_4p :
  d_mul lit_0_25 (S754_finite s m (e + 2)) = S754_finite s m e.
Proof.
  unfold lit_0_25. rewrite fmul_finite. cbn [xorb].
  rewrite (bra_Z_shift _ _ 52 (Zpos m)); try lia.
  - unfold of_mantissa. cbn [fst snd].
    replace (-54 + (e + 2) + 52) with e by lia.
    destruct (Z.leb_spec e 971); [reflexivity | lia].
  - rewrite (fexp_digits_exact _ _ 105); lia.
  - change (2 ^ 52) with 4503599627370496. rne_solve.
Qed.

(** [0.25 * ((((0.0 + p) + p) + p) + p) = p] for a normal [p] below
    [2 ^ 1022]. *)
Lemma central_normal :
  d_mul lit_0_25
    (d_add (d_add (d_add (d_add (S754_zero false) (S754_finite s m e))
                      (S754_finite s m e))
                (S754_finite s m e))
          (S754_finite s m e))
  = S754_finite s m e.
Proof.
  change (d_add (S754_zero false) (S754_finite s m e))
    with (S754_finite s m e).
  rewrite p_plus_p.
  destruct two_p_plus_p as (M3 & k & H3 & Hk & HM3 & HV & Hrne).
  rewrite H3.
  rewrite (three_p_plus_p M3 k Hk HV Hrne).
  apply quarter_times_4p.
Qed.
End Normal.

Lemma of_mantissa_pos s V E :
  0 < V -> E <= 971 -> of_mantissa s (V, E) = S754_finite s (Z.to_pos V) E.
Proof.
  intros HV HE. unfold of_mantissa. cbn [fst snd].
  destruct V as [|v|v]; try lia.
  destruct (Z.leb_spec E 971); [reflexivity | lia].
Qed.

Lemma fexp64_ge x : -1074 <= fexp64 x.
Proof. unfold fexp64. lia. Qed.

(** *** Four times a subnormal number, and a quarter of it *)

Section Subnormal.
Variables (s : bool) (m : positive).
Hypothesis Hm : Zpos m < 4503599627370496.

(** Sums at the smallest exponent that still fit in 53 bits are exact. *)
Lemma fadd_emin_exact (a b : positive) :
  Zpos a + Zpos b < 9007199254740992 ->
  d_add (S754_finite s a (-1074)) (S754_finite s b (-1074)) =
  S754_finite s (a + b) (-1074).
Proof.
  intros Hab.
  rewrite fadd_same_sign by (try apply fexp64_ge; lia).
  rewrite Z.sub_diag. change (2 ^ 0) with 1. rewrite Z.mul_1_r.
  rewrite bra_Z_noshift by lia.
  rewrite of_mantissa_pos by lia. reflexivity.
Qed.

(** Sums at the smallest exponent that need 54 bits are rounded once. *)
Lemma fadd_emin_round (a : positive) (ea : Z) (b : positive) (R : Z) :
  ea = -1074 \/ ea = -1073 ->
  9007199254740992 <= Zpos a * 2 ^ (ea - -1074) + Zpos b
                   < 18014398509481984 ->
  rne (Zpos a * 2 ^ (ea - -1074) + Zpos b) 1 = R ->
  0 < R < 9007199254740992 ->
  d_add (S754_finite s a ea) (S754_finite s b (-1074)) =
  S754_finite s (Z.to_pos R) (-1073).
Proof.
  intros Hea HV HR HRb.
  assert (Hf : fexp64 (Zdigits2 (Zpos a * 2 ^ (ea - -1074) + Zpos b)
                       + -1074) - -1074 = 1).
  { apply fexp_54; lia. }
  rewrite fadd_same_sign by lia.
  rewrite (bra_Z_shift _ _ 1 R); try lia.
  change (-1074 + 1) with (-1073).
  apply of_mantissa_pos; lia.
Qed.

Lemma quarter_times_emin (M : positive) (E n : Z) :
  (E = -1074 /\ n = 54 /\ Zpos M = 4 * Zpos m) \/
  (E = -1073 /\ n = 53 /\ Zpos M = 2 * Zpos m) ->
  d_mul lit_0_25 (S754_finite s M E) = S754_finite s m (-1074).
Proof.
  intros HM. unfold lit_0_25. rewrite fmul_finite. cbn [xorb].
  assert (HV : 0 < 4503599627370496 * Zpos M < 2 ^ 106).
  { change (2 ^ 106) with 81129638414606681695789005144064. lia. }
  assert (Hf : fexp64 (Zdigits2 (4503599627370496 * Zpos M) + (-54 + E))
               - (-54 + E) = n).
  { rewrite (fexp_digits_small _ _ 106); lia. }
  rewrite (bra_Z_shift _ _ n (Zpos m)); try lia.
  - replace (-54 + E + n) with (-1074) by lia.
    apply of_mantissa_pos; lia.
  - destruct HM as [(-> & -> & HM)|(-> & -> & HM)]; rewrite HM.
    + change (2 ^ 54) with 18014398509481984. rne_solve.
    + change (2 ^ 53) with 9007199254740992. rne_solve.
Qed.

(** [0.25 * ((((0.0 + p) + p) + p) + p) = p] for a subnormal [p]. *)
Lemma central_subnormal :
  d_mul lit_0_25
    (d_add (d_add (d_add (d_add (S754_zero false) (S754_finite s m (-1074)))
                      (S754_finite s m (-1074)))
                (S754_finite s m (-1074)))
          (S754_finite s m (-1074)))
  = S754_finite s m (-1074).
Proof.
  change (d_add (S754_zero false) (S754_finite s m (-1074)))
    with (S754_finite s m (-1074)).
  rewrite (fadd_emin_exact m m) by lia.
  destruct (Z.lt_ge_cases (3 * Zpos m) 9007199254740992) as [H3|H3].
  - rewrite (fadd_emin_exact (m + m) m) by lia.
    destruct (Z.lt_ge_cases (4 * Zpos m) 9007199254740992) as [H4|H4].
    + rewrite (fadd_emin_exact (m + m + m) m) by lia.
      apply (quarter_times_emin _ (-1074) 54). left. lia.
    + rewrite (fadd_emin_round (m + m + m) (-1074) m (2 * Zpos m));
        try lia.
      * apply (quarter_times_emin _ (-1073) 53). right. lia.
      * change (-1074 - -1074) with 0. change (2 ^ 0) with 1.
        change (2 ^ 1) with 2. rne_solve.
  - set (R := rne (Zpos (m + m) * 2 ^ (-1074 - -1074) + Zpos m) 1).
    assert (HR : 4503599627370496 <= R < 9007199254740992
                 /\ -1 <= 2 * R - 3 * Zpos m <= 1).
    { subst R. change (-1074 - -1074) with 0. change (2 ^ 0) with 1.
      change (2 ^ 1) with 2. rne_solve. }
    rewrite (fadd_emin_round (m + m) (-1074) m R); try lia; try reflexivity.
    clearbody R.
    rewrite (fadd_emin_round (Z.to_pos R) (-1073) m (2 * Zpos m));
      try lia.
    + apply (quarter_times_emin _ (-1073) 53). right. lia.
    + rewrite Z2Pos.id by lia. change (-1073 - -1074) with 1.
      change (2 ^ 1) with 2. rne_solve.
Qed.
End Subnormal.

End Binary64Facts.

Module PolarCRFacts.
Import PolarCR Rounding Binary64Facts.

Lemma bounded_cases (m : positive) (e : Z) :
  bounded prec emax m e = true ->
  (4503599627370496 <= Zpos m < 9007199254740992 /\ -1074 <= e <= 971)
  \/ (Zpos m < 4503599627370496 /\ e = -1074).
Proof.
  unfold bounded, canonical_mantissa. rewrite fexp_fexp64.
  intros H. apply andb_true_iff in H as [Hc He].
  apply Z.eqb_eq in Hc. apply Z.leb_le in He.
  change (emax - prec) with 971 in He.
  change (Z.pos (digits2_pos m)) with (Zdigits2 (Zpos m)) in Hc.
  rewrite Zdigits2_log2 in Hc by lia.
  pose proof (Z.log2_spec (Zpos m) ltac:(lia)) as Hlog.
  pose proof (Z.log2_nonneg (Zpos m)) as Hnn.
  unfold fexp64 in Hc.
  destruct (Z.le_gt_cases (-1074) (Z.log2 (Zpos m) + 1 + e - 53)) as [Hn|Hs].
  - left. assert (Hl : Z.log2 (Zpos m) = 52) by lia.
    rewrite Hl in Hlog. change (2 ^ 52) with 4503599627370496 in Hlog.
    change (2 ^ Z.succ 52) with 9007199254740992 in Hlog. lia.
  - right. assert (Hl : Z.succ (Z.log2 (Zpos m)) <= 52) by lia.
    split; [|lia].
    apply (Z.pow_le_mono_r 2) in Hl; [|lia].
    change (2 ^ 52) with 4503599627370496 in Hl. lia.
Qed.

(** The sum of four copies of [p], started from [0.0], times [0.25]. *)
Lemma quarter_of_fourfold_sum (p : double) :
  fourfold_is_finite p = true ->
  d_mul lit_0_25 (d_add (d_add (d_add (d_add lit_0 p) p) p) p) = plus_zero p.
Proof.
  destruct p as [s|s| |s m e]; cbn [fourfold_is_finite plus_zero];
    try discriminate.
  - intros _. destruct s; reflexivity.
  - intros H. apply andb_true_iff in H as [Hb He]. apply Z.leb_le in He.
    destruct (bounded_cases m e Hb) as [[Hm Hr]|[Hm ->]].
    + apply central_normal; lia.
    + apply central_subnormal; lia.
Qed.

Lemma d_sub_diag (p : double) :
  fourfold_is_finite p = true -> d_sub p p = lit_0.
Proof.
  destruct p as [s|s| |s m e]; cbn [fourfold_is_finite]; try discriminate;
    intros _.
  - destruct s; reflexivity.
  - unfold d_sub, SFsub. rewrite Z.sub_diag. reflexivity.
Qed.

Lemma half_of_zero_slopes (p : double) :
  fourfold_is_finite p = true ->
  d_mul lit_0_5 (d_add (d_sub p p) (d_sub p p)) = lit_0.
Proof. intros H. rewrite (d_sub_diag p H). reflexivity. Qed.

Lemma d_eqb_plus_zero (p : double) :
  fourfold_is_finite p = true -> d_eqb (plus_zero p) p = true.
Proof.
  destruct p as [s|s| |s m e]; cbn [fourfold_is_finite plus_zero];
    try discriminate; intros _.
  - destruct s; reflexivity.
  - unfold d_eqb, SFeqb, SFcompare.
    destruct s; rewrite Z.compare_refl, ?Pos.compare_cont_refl;
      reflexivity.
Qed.

Section Pressure.
Variable P : nat.

Lemma set_pressure_value_ok (e : Element) (d : Data) (i : nat)
    (x : double) :
  internal_data_pt e P = Some d ->
  (i < length (Value d))%nat ->
  set_pressure_value P e i x =
    Some (mkElement (<[P := mkData (<[i := x]> (Value d))]>
                       (Internal_data_pt e))).
Proof.
  intros Hd Hi. unfold set_pressure_value, set_value.
  rewrite Hd. cbn [mbind option_bind].
  destruct (decide (i < length (Value d))%nat); [|contradiction].
  reflexivity.
Qed.

Lemma internal_data_pt_insert (l : list Data) (d d' : Data) :
  l !! P = Some d ->
  internal_data_pt (mkElement (<[P := d']> l)) P = Some d'.
Proof.
  intros Hd. unfold internal_data_pt. cbn [Internal_data_pt].
  apply list_lookup_insert_eq. eapply lookup_lt_Some, Hd.
Qed.

(** The three values [rebuild_from_sons] writes, for any four central
    pressures of the sons. *)
Lemma rebuild_from_sons_values (this : Element) (d : Data)
    (sons : list Element) (p_SW p_SE p_NW p_NE : double) :
  internal_data_pt this P = Some d ->
  (3 <= length (Value d))%nat ->
  son_central_pressure P sons QuadTreeNames.SW = Some p_SW ->
  son_central_pressure P sons QuadTreeNames.SE = Some p_SE ->
  son_central_pressure P sons QuadTreeNames.NW = Some p_NW ->
  son_central_pressure P sons QuadTreeNames.NE = Some p_NE ->
  rebuild_from_sons P this sons =
    Some (with_pressure P this d
            (d_mul lit_0_25
               (d_add (d_add (d_add (d_add lit_0 p_SW) p_SE) p_NW) p_NE))
            (d_mul lit_0_5 (d_add (d_sub p_SE p_SW) (d_sub p_NE p_NW)))
            (d_mul lit_0_5 (d_add (d_sub p_NE p_SE) (d_sub p_NW p_SW)))).
Proof.
  unfold QuadTreeNames.SW, QuadTreeNames.SE, QuadTreeNames.NW,
    QuadTreeNames.NE.
  intros Hd Hlen HSW HSE HNW HNE.
  unfold rebuild_from_sons, QuadTreeNames.SW, QuadTreeNames.SE,
    QuadTreeNames.NW, QuadTreeNames.NE.
  cbn [add_sons_pressure]. rewrite HSW, HSE, HNW, HNE.
  cbn [mbind option_bind].
  pose proof (lookup_lt_Some _ _ _ Hd) as HP.
  rewrite (set_pressure_value_ok this d 0 _ Hd) by lia.
  cbn [mbind option_bind].
  set (x0 := d_mul lit_0_25 _).
  set (x1 := d_mul lit_0_5 (d_add (d_sub p_SE p_SW) (d_sub p_NE p_NW))).
  set (x2 := d_mul lit_0_5 (d_add (d_sub p_NE p_SE) (d_sub p_NW p_SW))).
  set (d0 := mkData (<[0%nat := x0]> (Value d))).
  rewrite (set_pressure_value_ok _ d0 1 x1);
    [| apply (internal_data_pt_insert _ d); exact Hd
     | subst d0; cbn [Value]; rewrite length_insert; lia].
  cbn [mbind option_bind Internal_data_pt].
  set (d1 := mkData (<[1%nat := x1]> (Value d0))).
  rewrite (set_pressure_value_ok _ d1 2 x2);
    [| apply (internal_data_pt_insert _ d0);
       apply list_lookup_insert_eq; exact HP
     | subst d1 d0; cbn [Value]; rewrite !length_insert; lia].
  subst d1 d0.
  cbn [Internal_data_pt Value]. unfold with_pressure.
  rewrite !list_insert_insert_eq. reflexivity.
Qed.

Lemma pressure_value_with_pressure (this : Element) (d : Data)
    (p0 p1 p2 : double) :
  internal_data_pt this P = Some d ->
  (3 <= length (Value d))%nat ->
  pressure_value P (with_pressure P this d p0 p1 p2) 0 = Some p0
  /\ pressure_value P (with_pressure P this d p0 p1 p2) 1 = Some p1
  /\ pressure_value P (with_pressure P this d p0 p1 p2) 2 = Some p2.
Proof.
  intros Hd Hlen. unfold pressure_value, with_pressure.
  rewrite (internal_data_pt_insert _ d _ Hd).
  cbn [mbind option_bind]. unfold value. cbn [Value].
  repeat split.
  - rewrite !list_lookup_insert_ne by lia.
    apply list_lookup_insert_eq. lia.
  - rewrite list_lookup_insert_ne by lia.
    apply list_lookup_insert_eq. rewrite length_insert. lia.
  - apply list_lookup_insert_eq. rewrite !length_insert. lia.
Qed.

(** The three values the pressure part of [further_build] writes into a
    son, for any body of [interpolated_p_pnst]. *)
Lemma further_build_values
    (interpolated_p_pnst : Element -> double * double -> double)
    (this father : Element) (d : Data) (son_type : Z) (a b : double) :
  internal_data_pt this P = Some d ->
  (3 <= length (Value d))%nat ->
  pressure_value P father 1 = Some a ->
  pressure_value P father 2 = Some b ->
  further_build P interpolated_p_pnst this father son_type =
    Some (with_pressure P this d
            (interpolated_p_pnst father (s_father_of son_type))
            (d_mul lit_0_5 a) (d_mul lit_0_5 b)).
Proof.
  intros Hd Hlen Ha Hb. unfold further_build. cbv zeta.
  pose proof (lookup_lt_Some _ _ _ Hd) as HP.
  rewrite (set_pressure_value_ok this d 0 _ Hd) by lia.
  cbn [mbind option_bind]. rewrite Ha. cbn [mbind option_bind].
  set (x0 := interpolated_p_pnst father (s_father_of son_type)).
  set (d0 := mkData (<[0%nat := x0]> (Value d))).
  rewrite (set_pressure_value_ok _ d0 1 (d_mul lit_0_5 a));
    [| apply (internal_data_pt_insert _ d); exact Hd
     | subst d0; cbn [Value]; rewrite length_insert; lia].
  cbn [mbind option_bind Internal_data_pt]. rewrite Hb.
  cbn [mbind option_bind].
  set (d1 := mkData (<[1%nat := d_mul lit_0_5 a]> (Value d0))).
  rewrite (set_pressure_value_ok _ d1 2 (d_mul lit_0_5 b));
    [| apply (internal_data_pt_insert _ d0);
       apply list_lookup_insert_eq; exact HP
     | subst d1 d0; cbn [Value]; rewrite !length_insert; lia].
  subst d1 d0.
  cbn [Internal_data_pt Value]. unfold with_pressure.
  rewrite !list_insert_insert_eq. reflexivity.
Qed.

End Pressure.

Lemma with_pressure_same (P : nat) (this : Element) (d : Data)
    (p : double) (rest : list double) :
  internal_data_pt this P = Some d ->
  Value d = p :: lit_0 :: lit_0 :: rest ->
  with_pressure P this d p lit_0 lit_0 = this.
Proof.
  intros Hd HV. unfold with_pressure. rewrite HV. cbn.
  rewrite <- HV. destruct d as [v]. cbn [Value].
  rewrite list_insert_id by exact Hd. destruct this. reflexivity.
Qed.

(** X1.  Splitting and merging at once: a father whose pressure is the
    constant [p] (slopes [0.0]), four sons built from it by
    [further_build], [interpolated_p_pnst] returning [p] at the sons'
    midpoints; then [rebuild_from_sons] gives the father its pressure
    back. *)
Lemma split_then_merge_restores_pressure
    (P : nat) (interpolated_p_pnst : Element -> double * double -> double)
    (father : Element) (d : Data) (p : double) (rest : list double)
    (s_SW s_SE s_NW s_NE b_SW b_SE b_NW b_NE : Element) :
  internal_data_pt father P = Some d ->
  Value d = p :: lit_0 :: lit_0 :: rest ->
  (forall son_type,
      interpolated_p_pnst father (s_father_of son_type) = p) ->
  fourfold_is_finite p = true ->
  Forall (fun s0 => exists d0, internal_data_pt s0 P = Some d0
                               /\ (3 <= length (Value d0))%nat)
         [s_SW; s_SE; s_NW; s_NE] ->
  further_build P interpolated_p_pnst s_SW father QuadTreeNames.SW
    = Some b_SW ->
  further_build P interpolated_p_pnst s_SE father QuadTreeNames.SE
    = Some b_SE ->
  further_build P interpolated_p_pnst s_NW father QuadTreeNames.NW
    = Some b_NW ->
  further_build P interpolated_p_pnst s_NE father QuadTreeNames.NE
    = Some b_NE ->
  rebuild_from_sons P father [b_SW; b_SE; b_NW; b_NE] =
    Some (with_pressure P father d (plus_zero p) lit_0 lit_0)
  /\ (plus_zero p = p ->
      rebuild_from_sons P father [b_SW; b_SE; b_NW; b_NE] = Some father).
Proof.
  intros Hd HV Hinterp Hfin Hsons HSW HSE HNW HNE.
  assert (Hlen : (3 <= length (Value d))%nat) by (rewrite HV; cbn; lia).
  assert (Hf1 : pressure_value P father 1 = Some lit_0).
  { unfold pressure_value. rewrite Hd. cbn [mbind option_bind].
    unfold value. rewrite HV. reflexivity. }
  assert (Hf2 : pressure_value P father 2 = Some lit_0).
  { unfold pressure_value. rewrite Hd. cbn [mbind option_bind].
    unfold value. rewrite HV. reflexivity. }
  assert (Hcentral : forall s0 b st,
             (exists d0, internal_data_pt s0 P = Some d0
                         /\ (3 <= length (Value d0))%nat) ->
             further_build P interpolated_p_pnst s0 father st = Some b ->
             pressure_value P b 0 = Some p).
  { intros s0 b st (d0 & Hd0 & Hl0) Hb.
    rewrite (further_build_values P _ s0 father d0 st lit_0 lit_0
               Hd0 Hl0 Hf1 Hf2) in Hb.
    injection Hb as <-. rewrite Hinterp.
    apply (pressure_value_with_pressure P s0 d0 _ _ _ Hd0 Hl0). }
  rewrite !Forall_cons in Hsons.
  destruct Hsons as (H1 & H2 & H3 & H4 & _).
  assert (Hreb : rebuild_from_sons P father [b_SW; b_SE; b_NW; b_NE] =
                 Some (with_pressure P father d (plus_zero p) lit_0 lit_0)).
  { rewrite (rebuild_from_sons_values P father d _ p p p p Hd Hlen).
    - rewrite quarter_of_fourfold_sum, half_of_zero_slopes by assumption.
      reflexivity.
    - apply (Hcentral _ _ _ H1 HSW).
    - apply (Hcentral _ _ _ H2 HSE).
    - apply (Hcentral _ _ _ H3 HNW).
    - apply (Hcentral _ _ _ H4 HNE). }
  split; [exact Hreb|].
  intros Hpz. rewrite Hreb, Hpz.
  rewrite (with_pressure_same P father d p rest Hd HV). reflexivity.
Qed.

(** C4, as the code has it.  Let the father's pressure [Data] hold at
    least three values, let the central pressure (value 0) of each of the
    four sons be the same double [p], and let [p] be a zero or a finite
    number of magnitude below [2 ^ 1022], so that the sum of the four
    values does not overflow.  Then [rebuild_from_sons] succeeds; it sets
    the father's central pressure to a double equal to [p] ([p] itself,
    [0.0] in place of a negative zero), being a quarter of the sum of
    the four values; it sets both slopes (values 1 and 2) to [0.0]; and
    it leaves every other value of the father as it was. *)
Theorem rebuild_from_sons_restores_constant_pressure
    (P : nat) (this : Element) (d : Data) (sons : list Element)
    (p : double)
    (Hdata : internal_data_pt this P = Some d)
    (Hvalues : (3 <= length (Value d))%nat)
    (Hsons : Forall (fun ison => son_central_pressure P sons ison = Some p)
                    [QuadTreeNames.SW; QuadTreeNames.SE;
                     QuadTreeNames.NW; QuadTreeNames.NE])
    (Hfinite : fourfold_is_finite p = true) :
  rebuild_from_sons P this sons =
    Some (with_pressure P this d (plus_zero p) lit_0 lit_0)
  /\ pressure_value P (with_pressure P this d (plus_zero p) lit_0 lit_0) 0 =
     Some (plus_zero p)
  /\ d_eqb (plus_zero p) p = true
  /\ pressure_value P (with_pressure P this d (plus_zero p) lit_0 lit_0) 1 =
     Some lit_0
  /\ pressure_value P (with_pressure P this d (plus_zero p) lit_0 lit_0) 2 =
     Some lit_0.
Proof.
  rewrite !Forall_cons in Hsons.
  destruct Hsons as (HSW & HSE & HNW & HNE & _).
  destruct (pressure_value_with_pressure P this d (plus_zero p) lit_0 lit_0
              Hdata Hvalues) as (H0 & H1 & H2).
  split; [|split; [exact H0|split; [|split; [exact H1|exact H2]]]].
  - rewrite (rebuild_from_sons_values P this d sons p p p p)
      by assumption.
    rewrite quarter_of_fourfold_sum, half_of_zero_slopes by assumption.
    reflexivity.
  - apply d_eqb_plus_zero, Hfinite.
Qed.

Lemma rebuild_from_sons_restores_constant_pressure_witness :
  rebuild_from_sons 0 (some_element lit_0_5 lit_0_5 lit_0_5)
                    (some_sons one_and_a_half) =
    Some (with_pressure 0 (some_element lit_0_5 lit_0_5 lit_0_5)
                        (mkData [lit_0_5; lit_0_5; lit_0_5])
                        (plus_zero one_and_a_half) lit_0 lit_0)
  /\ pressure_value 0
       (with_pressure 0 (some_element lit_0_5 lit_0_5 lit_0_5)
                      (mkData [lit_0_5; lit_0_5; lit_0_5])
                      (plus_zero one_and_a_half) lit_0 lit_0) 0 =
     Some (plus_zero one_and_a_half)
  /\ d_eqb (plus_zero one_and_a_half) one_and_a_half = true
  /\ pressure_value 0
       (with_pressure 0 (some_element lit_0_5 lit_0_5 lit_0_5)
                      (mkData [lit_0_5; lit_0_5; lit_0_5])
                      (plus_zero one_and_a_half) lit_0 lit_0) 1 =
     Some lit_0
  /\ pressure_value 0
       (with_pressure 0 (some_element lit_0_5 lit_0_5 lit_0_5)
                      (mkData [lit_0_5; lit_0_5; lit_0_5])
                      (plus_zero one_and_a_half) lit_0 lit_0) 2 =
     Some lit_0.
Proof.
  apply (rebuild_from_sons_restores_constant_pressure
           0 (some_element lit_0_5 lit_0_5 lit_0_5)
           (mkData [lit_0_5; lit_0_5; lit_0_5])
           (some_sons one_and_a_half) one_and_a_half).
  - reflexivity.
  - cbn. lia.
  - repeat constructor.
  - reflexivity.
Defined.

(** C4 as stated fails: with the largest finite double as the central
    pressure of each of the four sons, the sum overflows and the father's
    central pressure is set to infinity, which is not equal to it. *)
Lemma rebuild_from_sons_overflows_at_DBL_MAX :
  Forall (fun ison => son_central_pressure 0 (some_sons DBL_MAX) ison
                      = Some DBL_MAX)
         [QuadTreeNames.SW; QuadTreeNames.SE;
          QuadTreeNames.NW; QuadTreeNames.NE]
  /\ rebuild_from_sons 0 (some_element lit_0_5 lit_0_5 lit_0_5)
                       (some_sons DBL_MAX) =
     Some (some_element (S754_infinity false) lit_0 lit_0)
  /\ pressure_value 0 (some_element (S754_infinity false) lit_0 lit_0) 0 =
     Some (S754_infinity false)
  /\ d_eqb (S754_infinity false) DBL_MAX = false.
Proof.
  split; [repeat constructor|].
  split; [vm_compute; reflexivity|].
  split; reflexivity.
Qed.

(** Sons with the central pressures 1.0 (SW), 2.0 (SE), 3.0 (NW) and
    4.0 (NE): the father gets the mean 2.5 and the slopes 1.0 and 2.0. *)
Example rebuild_from_sons_1_2_3_4 :
  rebuild_from_sons 0 (some_element lit_0 lit_0 lit_0)
    [some_element d_1 lit_0 lit_0; some_element d_2 lit_0 lit_0;
     some_element d_3 lit_0 lit_0; some_element d_4 lit_0 lit_0] =
  Some (some_element d_2_5 d_1 d_2).
Proof. vm_compute. reflexivity. Qed.

End PolarCRFacts.

(* ===================================================================== *)
(** ** More facts about trees                                             *)
(* ===================================================================== *)

Module TreeTraversalFacts.
Import RefineableElement TreeNS TreeFacts.

Lemma for_each_cons_eq {A} (body : A -> M unit) x (v : list A) w :
  for_each body (x :: v) w = for_each body v (exec (body x) w).
Proof.
  cbn [for_each]. unfold mbind, M_bind, exec.
  destruct (body x w) as [u w1]. reflexivity.
Qed.

Lemma exec_for_each_cons {A} (body : A -> M unit) x (v : list A) w :
  exec (for_each body (x :: v)) w = exec (for_each body v) (exec (body x) w).
Proof. unfold exec at 1. rewrite for_each_cons_eq. reflexivity. Qed.

Lemma exec_for_each_app {A} (body : A -> M unit) (a b : list A) w :
  exec (for_each body (a ++ b)) w =
  exec (for_each body b) (exec (for_each body a) w).
Proof. unfold exec at 1. rewrite for_each_app. reflexivity. Qed.

Lemma keeps_node_run (f : VoidMemberFctPt) t w :
  keeps_node f t w = (t, exec (f t) w).
Proof.
  unfold keeps_node, mbind, M_bind, exec.
  destruct (f t w) as [[] w']. reflexivity.
Qed.

Lemma with_sons_same t : with_sons t (Son_pt t) = t.
Proof. destruct t. reflexivity. Qed.

Lemma height_sons (sons : list Tree) (n : nat) :
  (foldr Nat.max 0 (map height sons) <= n)%nat ->
  Forall (fun s => (height s <= n)%nat) sons.
Proof.
  induction sons as [|s sons IH]; intros Hn; [constructor|].
  cbn [map foldr] in Hn. constructor; [lia | apply IH; lia].
Qed.

Lemma traverse_sons_ext (f g : Tree -> M (option Tree)) sons :
  (forall s w, f s w = g s w) ->
  forall w, traverse_sons f sons w = traverse_sons g sons w.
Proof.
  intros Hfg. induction sons as [|s sons IH]; intros w; [reflexivity|].
  cbn [traverse_sons]. unfold mbind at 1 3, M_bind at 1 3. rewrite Hfg.
  destruct (g s w) as [[s1|] w1]; [|reflexivity].
  unfold mbind, M_bind. rewrite IH. reflexivity.
Qed.

Lemma traverse_sons_keeps (f : VoidMemberFctPt)
    (traverse : Tree -> M (option Tree)) sons :
  Forall (fun s => forall w,
            traverse s w = (Some s, exec (for_each f (preorder s)) w))
         sons ->
  forall w,
  traverse_sons traverse sons w =
  (Some sons, exec (for_each f (concat (map preorder sons))) w).
Proof.
  induction 1 as [|s sons Hs _ IH]; intros w; [reflexivity|].
  cbn [traverse_sons map concat]. rewrite exec_for_each_app.
  unfold mbind at 1, M_bind at 1. rewrite Hs.
  unfold mbind at 1, M_bind at 1. rewrite IH. reflexivity.
Qed.

(** A traversal with a member function that leaves the nodes as they
    are, with fuel for the levels of the tree. *)
Lemma traverse_all_keeps_node (f : VoidMemberFctPt) t :
  forall fuel w, (height t <= fuel)%nat ->
  traverse_all fuel (keeps_node f) t w =
  (Some t, exec (for_each f (preorder t)) w).
Proof.
  induction t as [this obj fa st lv rt sons IH] using Tree_ind.
  intros fuel w Hfuel.
  set (t := mkTree this obj fa st lv rt sons) in *.
  assert (Hheight : height t = S (foldr Nat.max 0%nat (map height sons)))
    by reflexivity.
  destruct fuel as [|fuel]; [lia|].
  assert (Hsons : Forall (fun s => (height s <= fuel)%nat) sons)
    by (apply height_sons; lia).
  clear Hheight Hfuel.
  cbn [traverse_all].
  change (preorder t) with (t :: concat (map preorder sons)).
  rewrite exec_for_each_cons.
  unfold mbind at 1, M_bind at 1. rewrite keeps_node_run.
  unfold mbind at 1, M_bind at 1.
  change (Son_pt t) with sons.
  rewrite (traverse_sons_keeps f).
  - cbn [mret M_ret fmap option_fmap option_map].
    rewrite <- (with_sons_same t) at 2. reflexivity.
  - apply Forall_forall. intros s Hs w'.
    rewrite Forall_forall in IH. rewrite Forall_forall in Hsons.
    apply IH; [exact Hs | apply Hsons, Hs].
Qed.

Lemma traverse_all_mesh_traverse_all
    (g : NodeMeshPtArgumentMemberFctPt) (mesh_pt : ptr) (fuel : nat) :
  forall t w,
  traverse_all_mesh fuel g t mesh_pt w =
  traverse_all fuel (fun n => g n mesh_pt) t w.
Proof.
  induction fuel as [|fuel IH]; intros t w; [reflexivity|].
  cbn [traverse_all traverse_all_mesh].
  unfold mbind at 1 3, M_bind at 1 3.
  destruct (g t mesh_pt w) as [t1 w1].
  unfold mbind, M_bind.
  rewrite (traverse_sons_ext _ (traverse_all fuel (fun n => g n mesh_pt)))
    by exact IH.
  reflexivity.
Qed.

(** A traversal with [merge_sons_if_required] that finds the flag of the
    node set stops at the node: the sons are gone when [Son_pt.size()]
    is read. *)
Lemma traverse_all_mesh_merged t mesh_pt fuel w :
  Object_pt t ∈ Sons_to_be_unrefined w ->
  traverse_all_mesh (S fuel) merge_sons_if_required t mesh_pt w =
  (Some (eval (merge_sons_if_required t mesh_pt) w),
   exec (merge_sons_if_required t mesh_pt) w).
Proof.
  intros Hflag. cbn [traverse_all_mesh].
  unfold mbind at 1, M_bind at 1.
  assert (Hsons : Son_pt (eval (merge_sons_if_required t mesh_pt) w) = []).
  { unfold merge_sons_if_required. rewrite eval_bind.
    rewrite eval_sons_to_be_unrefined, bool_decide_eq_true_2 by exact Hflag.
    rewrite !eval_bind. reflexivity. }
  unfold eval, exec in *.
  destruct (merge_sons_if_required t mesh_pt w) as [t1 w1].
  cbn [fst snd] in *. rewrite Hsons.
  transitivity (Some (with_sons t1 []), w1); [reflexivity|].
  rewrite <- Hsons, with_sons_same. reflexivity.
Qed.

Lemma traverse_all_but_leaves_for_each (f : VoidMemberFctPt) t w :
  traverse_all_but_leaves f t w =
  for_each f (filter (fun n => ¬ is_leaf n) (preorder t)) w.
Proof.
  revert w.
  induction t as [this obj fa st lv rt sons IH] using Tree_ind. intros w.
  cbn [traverse_all_but_leaves Son_pt preorder].
  set (t := mkTree this obj fa st lv rt sons).
  rewrite filter_cons.
  destruct (decide (0 < length sons)%nat) as [Hn|Hn].
  - destruct (decide (¬ is_leaf t)) as [Hl|Hl];
      [|exfalso; apply Hl; unfold is_leaf, nsons; cbn; lia].
    rewrite for_each_cons_eq.
    unfold mbind at 1, M_bind at 1. rewrite (M_unit_eta (f t) w).
    generalize (exec (f t) w). clear w Hn Hl. intros w.
    clear t. revert w.
    induction IH as [|s sons Hs _ IHsons]; intros w; cbn [map concat].
    + reflexivity.
    + rewrite filter_app, for_each_app. unfold mbind, M_bind. rewrite Hs.
      rewrite (M_unit_eta (for_each f _) w). apply IHsons.
  - destruct (nonleaf_cases sons) as [?|Hs]; [lia|]. subst t sons.
    destruct (decide _) as [Hl|Hl]; [exfalso; apply Hl; reflexivity|].
    reflexivity.
Qed.

(** X2.  [traverse_all], in both its forms, runs the member function on
    the node and then goes into the sons the node has after that call.
    With a member function that leaves the nodes as they are, and fuel
    for the levels of the tree, it has the effect of calling the member
    function once on each entry of the vector filled by
    [stick_all_tree_nodes_into_vector], in the order of the vector: the
    node itself first, then the nodes below each son, son after son.
    With [merge_sons_if_required] as the member function, on a node
    whose element has the flag set and whose sons have no sons, it is
    that one call on the node and nothing more: the sons, which are
    entries of the vector, are not visited. *)
Theorem traverse_all_visits_every_node_in_preorder
    (f : VoidMemberFctPt) (g : VoidMeshPtArgumentMemberFctPt)
    (mesh_pt : ptr) (t : Tree) (fuel : nat) (w : world) :
  traverse_all (height t + fuel) (keeps_node f) t w =
    (Some t, exec (for_each f (stick_all_tree_nodes_into_vector t [])) w)
  /\ traverse_all_mesh (height t + fuel)
       (fun n mesh_pt => keeps_node (fun n => g n mesh_pt) n) t mesh_pt w =
     (Some t,
      exec (for_each (fun n => g n mesh_pt)
                     (stick_all_tree_nodes_into_vector t [])) w)
  /\ stick_all_tree_nodes_into_vector t [] =
     t :: concat (map (fun son => stick_all_tree_nodes_into_vector son [])
                      (Son_pt t))
  /\ (Object_pt t ∈ Sons_to_be_unrefined w ->
      Forall is_leaf (Son_pt t) ->
      traverse_all_mesh (S fuel) merge_sons_if_required t mesh_pt w =
        (Some (eval (merge_sons_if_required t mesh_pt) w),
         exec (merge_sons_if_required t mesh_pt) w)
      /\ stick_all_tree_nodes_into_vector t [] = t :: Son_pt t).
Proof.
  split; [|split; [|split]].
  - rewrite traverse_all_keeps_node by lia.
    rewrite stick_all_preorder. reflexivity.
  - rewrite traverse_all_mesh_traverse_all.
    rewrite (traverse_all_keeps_node (fun n => g n mesh_pt)) by lia.
    rewrite stick_all_preorder. reflexivity.
  - rewrite stick_all_preorder. cbn [app]. destruct t as [? ? ? ? ? ? sons].
    cbn [preorder Son_pt]. f_equal. f_equal.
    apply map_ext. intros s. rewrite stick_all_preorder. reflexivity.
  - intros Hflag Hleaves. split.
    + apply traverse_all_mesh_merged, Hflag.
    + clear Hflag.
      rewrite stick_all_preorder. cbn [app]. destruct t as [? ? ? ? ? ? sons].
      cbn [preorder Son_pt] in *. f_equal.
      induction Hleaves as [|s sons Hs _ IH]; [reflexivity|].
      cbn [map concat]. rewrite IH.
      destruct s as [? ? ? ? ? ? sons']. unfold is_leaf, nsons in Hs.
      cbn in Hs. destruct sons'; [reflexivity|discriminate].
Qed.

(** On [some_father], with the flag of its element set: the traversal
    with [merge_sons_if_required] asks the element of the node and of no
    other node, although the vector of all nodes has five entries. *)
Lemma traverse_all_visits_every_node_in_preorder_witness :
  (30%N ∈ ({[30%N]} : gset ptr) /\ Forall is_leaf (Son_pt some_father))
  /\ traverse_all_mesh 3 merge_sons_if_required some_father 99%N
       (mkWorld ∅ {[30%N]} [] ∅ false) =
     (Some (eval (merge_sons_if_required some_father 99%N)
                 (mkWorld ∅ {[30%N]} [] ∅ false)),
      exec (merge_sons_if_required some_father 99%N)
           (mkWorld ∅ {[30%N]} [] ∅ false)).
Proof.
  assert (Hflag : 30%N ∈ ({[30%N]} : gset ptr))
    by (apply elem_of_singleton; reflexivity).
  assert (Hleaves : Forall is_leaf (Son_pt some_father))
    by (repeat constructor).
  split; [exact (conj Hflag Hleaves)|].
  exact (proj1 (proj2 (proj2 (proj2
           (traverse_all_visits_every_node_in_preorder
              (fun _ => mret tt) (fun _ _ => mret tt) 99%N some_father 2%nat
              (mkWorld ∅ {[30%N]} [] ∅ false)))) Hflag Hleaves)).
Defined.

(** X3.  [traverse_all_but_leaves] calls the member function on exactly
    the nodes that have sons, in preorder; on a node without sons it does
    nothing at all.  The nodes it visits and the nodes [traverse_leaves]
    visits together are the entries of the vector filled by
    [stick_all_tree_nodes_into_vector], each once. *)
Theorem traverse_all_but_leaves_visits_nodes_with_sons
    (f : VoidMemberFctPt) (t : Tree) (w : world) :
  traverse_all_but_leaves f t w =
    for_each f (filter (fun n => (0 < nsons n)%nat)
                       (stick_all_tree_nodes_into_vector t [])) w
  /\ traverse_all_but_leaves f (resize_sons_0 t) w = (tt, w)
  /\ filter (fun n => (0 < nsons n)%nat)
            (stick_all_tree_nodes_into_vector t []) ++
     stick_leaves_into_vector t []
     ≡ₚ stick_all_tree_nodes_into_vector t []
  /\ Forall (fun n => Son_pt n <> [])
            (filter (fun n => (0 < nsons n)%nat)
                    (stick_all_tree_nodes_into_vector t [])).
Proof.
  assert (Hfilter : forall l : list Tree,
             filter (fun n => (0 < nsons n)%nat) l =
             filter (fun n => ¬ is_leaf n) l).
  { intros l. apply list_filter_iff. intros n. unfold is_leaf. lia. }
  split; [|split; [|split]].
  - rewrite traverse_all_but_leaves_for_each, stick_all_preorder, Hfilter.
    reflexivity.
  - reflexivity.
  - rewrite stick_leaves_preorder, stick_all_preorder, Hfilter. cbn [app].
    rewrite Permutation_app_comm. apply filter_app_complement.
  - apply Forall_forall. intros n Hn.
    apply list_elem_of_filter in Hn as [Hl _].
    unfold nsons in Hl. destruct (Son_pt n); [cbn in Hl; lia | discriminate].
Qed.

End TreeTraversalFacts.

Module TreeMergeFacts.
Import RefineableElement TreeNS TreeFacts TreeTraversalFacts.

Lemma emits_rebuild_from_sons p m :
  emits (rebuild_from_sons p m) [Ev_rebuild_from_sons p m].
Proof. intros w. reflexivity. Qed.

Lemma emits_deselect p :
  emits (deselect_sons_for_unrefinement p)
        [Ev_deselect_sons_for_unrefinement p].
Proof. intros w. reflexivity. Qed.

(** The events of a call of [merge_sons_if_required] that finds the
    flag set, after the query. *)
Lemma merge_sons_emits t mesh_pt :
  emits (rebuild_from_sons (object_pt t) mesh_pt ;;
         for_each (fun son =>
                     unbuild (object_pt son) ;;
                     delete_object (object_pt son) ;;
                     delete_tree son) (Son_pt t) ;;
         deselect_sons_for_unrefinement (Object_pt (resize_sons_0 t)) ;;
         mret (resize_sons_0 t))
        ([Ev_rebuild_from_sons (Object_pt t) mesh_pt] ++
         concat (map kill_son_events (Son_pt t)) ++
         [Ev_deselect_sons_for_unrefinement (Object_pt t)] ++ []).
Proof.
  apply emits_bind; [apply emits_rebuild_from_sons | intros _].
  apply emits_bind; [apply kill_sons_emits | intros _].
  apply emits_bind; [apply emits_deselect | intros _].
  apply emits_ret.
Qed.

Lemma merge_sons_if_required_set t mesh_pt w :
  Object_pt t ∈ Sons_to_be_unrefined w ->
  merge_sons_if_required t mesh_pt w =
  (rebuild_from_sons (object_pt t) mesh_pt ;;
   for_each (fun son =>
               unbuild (object_pt son) ;;
               delete_object (object_pt son) ;;
               delete_tree son) (Son_pt t) ;;
   deselect_sons_for_unrefinement (Object_pt (resize_sons_0 t)) ;;
   mret (resize_sons_0 t))
    (exec (sons_to_be_unrefined (Object_pt t)) w).
Proof.
  intros Hflag. unfold merge_sons_if_required.
  unfold mbind at 1, M_bind at 1.
  unfold sons_to_be_unrefined at 1.
  unfold mbind at 1, M_bind at 1. cbn [log modify gets].
  rewrite bool_decide_eq_true_2 by exact Hflag. reflexivity.
Qed.

Lemma merge_sons_if_required_clear t mesh_pt w :
  Object_pt t ∉ Sons_to_be_unrefined w ->
  merge_sons_if_required t mesh_pt w =
  (t, exec (sons_to_be_unrefined (Object_pt t)) w).
Proof.
  intros Hflag. unfold merge_sons_if_required.
  unfold mbind at 1, M_bind at 1.
  unfold sons_to_be_unrefined at 1.
  unfold mbind at 1, M_bind at 1. cbn [log modify gets].
  rewrite bool_decide_eq_false_2 by exact Hflag. reflexivity.
Qed.

(** *** Elements deleted twice *)

Lemma grows_ext {A} (c c' : M A) :
  (forall w, c w = c' w) -> grows c' -> grows c.
Proof. intros Hc Hg w. unfold exec. rewrite Hc. apply Hg. Qed.

Lemma grows_ret {A} (a : A) : grows (mret a).
Proof. intros w. split; [reflexivity | tauto]. Qed.

Lemma grows_bind {A B} (c : M A) (k : A -> M B) :
  grows c -> (forall a, grows (k a)) -> grows (c ≫= k).
Proof.
  intros Hc Hk w. rewrite exec_bind.
  destruct (Hc w) as [Hc1 Hc2].
  destruct (Hk (eval c w) (exec c w)) as [Hk1 Hk2].
  split; [etrans; eassumption | tauto].
Qed.

Lemma grows_log e : grows (log e).
Proof. intros w. split; [reflexivity | tauto]. Qed.

(** What [delete] does to the record of the deleted elements. *)
Lemma exec_delete_object p w :
  p <> null ->
  Deleted (exec (delete_object p) w) = {[p]} ∪ Deleted w
  /\ Undefined_behaviour (exec (delete_object p) w) =
     Undefined_behaviour w || bool_decide (p ∈ Deleted w).
Proof.
  intros Hp. unfold delete_object. rewrite exec_bind.
  destruct (decide (p = null)); [contradiction|]. split; reflexivity.
Qed.

Lemma exec_delete_null w :
  Deleted (exec (delete_object null) w) = Deleted w
  /\ Undefined_behaviour (exec (delete_object null) w) =
     Undefined_behaviour w.
Proof. split; reflexivity. Qed.

Lemma grows_delete_object p : grows (delete_object p).
Proof.
  intros w. destruct (decide (p = null)) as [->|Hp].
  - destruct (exec_delete_null w) as [-> ->]. split; [reflexivity | tauto].
  - destruct (exec_delete_object p w Hp) as [-> ->]. split.
    + apply union_subseteq_r.
    + intros ->. reflexivity.
Qed.

Lemma grows_for_each {A} (body : A -> M unit) v :
  (forall x, grows (body x)) -> grows (for_each body v).
Proof.
  intros Hbody. induction v as [|x v IH]; [apply grows_ret|].
  cbn [for_each]. apply grows_bind; [apply Hbody | intros _; exact IH].
Qed.

(** The destructor: the sons are deleted, then the element if there are
    sons. *)
Lemma Tree_dtor_unfold t w :
  Tree_dtor t w =
  (for_each delete_tree (Son_pt t) ;;
   if decide (0 < nsons t)%nat then delete_object (Object_pt t)
   else mret tt) w.
Proof.
  destruct t as [this obj fa st lv rt sons].
  cbn [Tree_dtor Son_pt Object_pt nsons].
  unfold mbind at 1 3, M_bind at 1 3.
  match goal with
  | |- (let (a, w') := ?loop sons w in _) = _ =>
      assert (Hloop : forall sons w,
                loop sons w = for_each delete_tree sons w)
  end.
  { clear. induction sons as [|s sons IH]; intros w; [reflexivity|].
    cbn [for_each]. unfold delete_tree, mbind, M_bind.
    destruct (Tree_dtor s w) as [u w1].
    destruct (log (Ev_delete_tree (This s)) w1) as [u' w2].
    apply IH. }
  rewrite Hloop. reflexivity.
Qed.

Lemma grows_Tree_dtor t : grows (Tree_dtor t).
Proof.
  induction t as [this obj fa st lv rt sons IH] using Tree_ind.
  apply (grows_ext _ _ (Tree_dtor_unfold _)).
  apply grows_bind.
  - cbn [Son_pt]. clear -IH.
    induction IH as [|s sons Hs _ IHsons]; [apply grows_ret|].
    cbn [for_each]. apply grows_bind; [|intros _; exact IHsons].
    apply grows_bind; [exact Hs | intros _; apply grows_log].
  - intros _. destruct (decide _); [apply grows_delete_object|].
    apply grows_ret.
Qed.

Lemma grows_delete_tree t : grows (delete_tree t).
Proof.
  apply grows_bind; [apply grows_Tree_dtor | intros _; apply grows_log].
Qed.

Lemma grows_kill_son son : grows (kill_son son).
Proof.
  apply grows_bind; [apply grows_log | intros _].
  apply grows_bind; [apply grows_delete_object | intros _].
  apply grows_delete_tree.
Qed.

(** The destructor of a node that has sons deletes the element of the
    node: a second time, if the element is deleted already. *)
Lemma Tree_dtor_deletes_again t w :
  ¬ is_leaf t -> Object_pt t <> null -> Object_pt t ∈ Deleted w ->
  Undefined_behaviour (exec (Tree_dtor t) w) = true.
Proof.
  intros Hleaf Hnull Hdel. unfold exec. rewrite Tree_dtor_unfold.
  fold (exec (for_each delete_tree (Son_pt t) ;;
              if decide (0 < nsons t)%nat then delete_object (Object_pt t)
              else mret tt) w).
  rewrite exec_bind.
  destruct (decide (0 < nsons t)%nat) as [_|Hn];
    [|exfalso; apply Hleaf; unfold is_leaf; lia].
  set (w1 := exec (for_each delete_tree (Son_pt t)) w).
  assert (Hdel1 : Object_pt t ∈ Deleted w1).
  { apply (proj1 (grows_for_each delete_tree (Son_pt t) grows_delete_tree w)).
    exact Hdel. }
  rewrite (proj2 (exec_delete_object _ w1 Hnull)).
  rewrite bool_decide_eq_true_2 by exact Hdel1.
  apply orb_true_r.
Qed.

(** The loop body on a son that has sons: the son's element is deleted
    by the loop body and again by the son's destructor. *)
Lemma kill_son_deletes_twice son w :
  ¬ is_leaf son -> Object_pt son <> null ->
  Undefined_behaviour (exec (kill_son son) w) = true.
Proof.
  intros Hleaf Hnull. unfold kill_son, delete_tree.
  rewrite !exec_bind.
  apply (proj2 (grows_log (Ev_delete_tree (This son)) _)).
  apply Tree_dtor_deletes_again; [exact Hleaf | exact Hnull |].
  unfold object_pt.
  set (w1 := exec (unbuild (Object_pt son)) w).
  rewrite (proj1 (exec_delete_object _ w1 Hnull)).
  apply elem_of_union_l, elem_of_singleton. reflexivity.
Qed.

Lemma kill_sons_delete_twice sons :
  Exists (fun son => ¬ is_leaf son /\ Object_pt son <> null) sons ->
  forall w, Undefined_behaviour (exec (for_each kill_son sons) w) = true.
Proof.
  induction 1 as [son sons [Hleaf Hnull]|son sons _ IH]; intros w;
    rewrite exec_for_each_cons.
  - apply (proj2 (grows_for_each kill_son sons grows_kill_son _)).
    apply kill_son_deletes_twice; assumption.
  - apply IH.
Qed.

(** The loop body on a son without sons. *)
Lemma kill_leaf_son son w :
  is_leaf son ->
  Deleted (exec (kill_son son) w) =
    (if decide (Object_pt son = null) then Deleted w
     else {[Object_pt son]} ∪ Deleted w)
  /\ Undefined_behaviour (exec (kill_son son) w) =
     Undefined_behaviour w ||
     bool_decide (Object_pt son ≠ null /\ Object_pt son ∈ Deleted w).
Proof.
  destruct son as [this obj fa st lv rt sons]. unfold is_leaf, nsons.
  cbn [Son_pt Object_pt]. intros Hleaf. destruct sons; [|discriminate].
  unfold kill_son, delete_tree, object_pt. cbn [Object_pt].
  rewrite !exec_bind.
  change (exec (log _) (exec (Tree_dtor _) ?w0)) with
    (exec (log (Ev_delete_tree this)) w0).
  set (w1 := exec (unbuild obj) w).
  change (Deleted (exec (log (Ev_delete_tree this))
                        (exec (delete_object obj) w1)))
    with (Deleted (exec (delete_object obj) w1)).
  change (Undefined_behaviour (exec (log (Ev_delete_tree this))
                                    (exec (delete_object obj) w1)))
    with (Undefined_behaviour (exec (delete_object obj) w1)).
  destruct (decide (obj = null)) as [->|Hp].
  - destruct (exec_delete_null w1) as [-> ->].
    rewrite bool_decide_eq_false_2 by tauto. rewrite orb_false_r.
    split; reflexivity.
  - destruct (exec_delete_object obj w1 Hp) as [-> ->].
    split; [reflexivity|]. f_equal. apply bool_decide_ext. tauto.
Qed.

Lemma kill_leaf_sons_once sons :
  Forall is_leaf sons -> NoDup (map Object_pt sons) ->
  forall w, Forall (fun son => Object_pt son ∉ Deleted w) sons ->
  Undefined_behaviour (exec (for_each kill_son sons) w) =
  Undefined_behaviour w.
Proof.
  induction 1 as [|son sons Hson _ IH]; intros Hdup w Hw; [reflexivity|].
  rewrite exec_for_each_cons.
  cbn [map] in Hdup. apply NoDup_cons in Hdup as [Hnotin Hdup].
  apply Forall_cons in Hw as [Hw1 Hw].
  destruct (kill_leaf_son son w Hson) as [Hdel Hub].
  rewrite IH; [| exact Hdup |].
  - rewrite Hub, bool_decide_eq_false_2 by tauto. apply orb_false_r.
  - apply Forall_forall. intros s Hs. rewrite Hdel.
    rewrite Forall_forall in Hw. specialize (Hw s Hs).
    assert (Object_pt s <> Object_pt son).
    { intros Heq. apply Hnotin. rewrite <- Heq.
      apply list_elem_of_fmap. exists s. split; [reflexivity | exact Hs]. }
    destruct (decide (Object_pt son = null)); [exact Hw|].
    rewrite elem_of_union, elem_of_singleton. tauto.
Qed.

Lemma merge_sons_if_required_set_kill t mesh_pt w :
  Object_pt t ∈ Sons_to_be_unrefined w ->
  exec (merge_sons_if_required t mesh_pt) w =
  exec (deselect_sons_for_unrefinement (Object_pt t))
    (exec (for_each kill_son (Son_pt t))
       (exec (rebuild_from_sons (Object_pt t) mesh_pt)
          (exec (sons_to_be_unrefined (Object_pt t)) w))).
Proof.
  intros Hflag. unfold exec at 1.
  rewrite (merge_sons_if_required_set t mesh_pt w Hflag).
  match goal with
  | |- snd (?c ?w0) = _ => change (snd (c w0)) with (exec c w0)
  end.
  rewrite !exec_bind, exec_ret. reflexivity.
Qed.

(** X4.  What a merging call deletes.  When the flag of the node's element
    is set, [merge_sons_if_required] deletes the element of every son
    and then the son node, whose destructor deletes the element of the
    son again if the son has sons.  So with a son that has sons (and an
    element) the call deletes that element twice, which C++ leaves
    undefined.  When all sons are without sons, the elements deleted are
    those of the sons and the nodes released are the sons, each once, in
    [Son_pt] order; and if these elements are distinct and none was
    deleted before, no element is deleted twice. *)
Theorem merge_sons_if_required_deletions
    (t : Tree) (mesh_pt : ptr) (w : world)
    (Hflag : Object_pt t ∈ Sons_to_be_unrefined w) :
  let w' := exec (merge_sons_if_required t mesh_pt) w in
  (Exists (fun son => ¬ is_leaf son /\ Object_pt son <> null) (Son_pt t) ->
   Undefined_behaviour w' = true)
  /\ (Forall is_leaf (Son_pt t) ->
      (exists tr,
          trace w' = trace w ++ tr
          /\ deleted_objects tr = map Object_pt (Son_pt t)
          /\ deleted_trees tr = map This (Son_pt t))
      /\ (NoDup (map Object_pt (Son_pt t)) ->
          Forall (fun son => Object_pt son ∉ Deleted w) (Son_pt t) ->
          Undefined_behaviour w' = Undefined_behaviour w)).
Proof.
  cbv zeta. split.
  - intros Hsons.
    rewrite (merge_sons_if_required_set_kill t mesh_pt w Hflag).
    rewrite exec_deselect. cbn [Undefined_behaviour].
    apply kill_sons_delete_twice, Hsons.
  - intros Hleaves. split.
    + exists ([Ev_sons_to_be_unrefined (Object_pt t)] ++
              [Ev_rebuild_from_sons (Object_pt t) mesh_pt] ++
              concat (map kill_son_events (Son_pt t)) ++
              [Ev_deselect_sons_for_unrefinement (Object_pt t)] ++ []).
      split; [|split].
      * unfold exec at 1.
        rewrite (merge_sons_if_required_set t mesh_pt w Hflag).
        match goal with
        | |- trace (snd (?c ?w0)) = _ => change (snd (c w0)) with (exec c w0)
        end.
        rewrite (merge_sons_emits t mesh_pt).
        rewrite exec_sons_to_be_unrefined. cbn [trace].
        rewrite <- !app_assoc. reflexivity.
      * rewrite (kill_leaf_sons_events _ Hleaves).
        unfold deleted_objects. rewrite !omap_app.
        cbn [omap list_omap app]. rewrite app_nil_r.
        clear. induction (Son_pt t) as [|s sons IH]; [reflexivity|].
        cbn [map concat]. rewrite omap_app, IH. reflexivity.
      * rewrite (kill_leaf_sons_events _ Hleaves).
        unfold deleted_trees. rewrite !omap_app.
        cbn [omap list_omap app]. rewrite app_nil_r.
        clear. induction (Son_pt t) as [|s sons IH]; [reflexivity|].
        cbn [map concat]. rewrite omap_app, IH. reflexivity.
    + intros Hdup Halive.
      rewrite (merge_sons_if_required_set_kill t mesh_pt w Hflag).
      rewrite exec_deselect. cbn [Undefined_behaviour].
      rewrite (kill_leaf_sons_once _ Hleaves Hdup); [reflexivity|].
      exact Halive.
Qed.

Lemma merge_sons_if_required_deletions_witness :
  10%N ∈ ({[10%N]} : gset ptr)
  /\ Exists (fun son => ¬ is_leaf son /\ Object_pt son <> null)
            (Son_pt some_tree)
  /\ Undefined_behaviour
       (exec (merge_sons_if_required some_tree 99%N)
             (mkWorld ∅ {[10%N]} [] ∅ false)) = true.
Proof.
  assert (Hflag : 10%N ∈ ({[10%N]} : gset ptr))
    by (apply elem_of_singleton; reflexivity).
  assert (Hson : Exists (fun son => ¬ is_leaf son /\ Object_pt son <> null)
                        (Son_pt some_tree)).
  { apply Exists_cons_tl, Exists_cons_hd. split; discriminate. }
  split; [exact Hflag|]. split; [exact Hson|].
  exact (proj1 (merge_sons_if_required_deletions some_tree 99%N
                  (mkWorld ∅ {[10%N]} [] ∅ false) Hflag) Hson).
Defined.

Lemma exec_merge_flag t mesh_pt w :
  Object_pt t ∉
    Sons_to_be_unrefined (exec (merge_sons_if_required t mesh_pt) w).
Proof.
  destruct (decide (Object_pt t ∈ Sons_to_be_unrefined w)) as [Hflag|Hflag].
  - unfold exec at 1. rewrite (merge_sons_if_required_set t mesh_pt w Hflag).
    match goal with
    | |- _ ∉ Sons_to_be_unrefined (snd (?c ?w0)) => change (snd (c w0)) with (exec c w0)
    end.
    rewrite !exec_bind, exec_ret, exec_deselect.
    cbn [Sons_to_be_unrefined resize_sons_0 Object_pt].
    rewrite elem_of_difference, elem_of_singleton. tauto.
  - unfold exec at 1. rewrite (merge_sons_if_required_clear t mesh_pt w Hflag).
    cbn [snd]. rewrite exec_sons_to_be_unrefined. exact Hflag.
Qed.

Lemma eval_merge_object t mesh_pt w :
  Object_pt (eval (merge_sons_if_required t mesh_pt) w) = Object_pt t.
Proof.
  destruct (decide (Object_pt t ∈ Sons_to_be_unrefined w)) as [Hflag|Hflag].
  - unfold eval at 1. rewrite (merge_sons_if_required_set t mesh_pt w Hflag).
    match goal with
    | |- Object_pt (fst (?c ?w0)) = _ => change (fst (c w0)) with (eval c w0)
    end.
    rewrite !eval_bind. reflexivity.
  - unfold eval at 1. rewrite (merge_sons_if_required_clear t mesh_pt w Hflag).
    reflexivity.
Qed.

(** X5.  Merging cannot be done twice.  After a call of
    [merge_sons_if_required] that found the flag clear, or found it set
    on a node whose sons have no sons, a second call on the node it
    leaves finds the flag of the element clear: it asks the element and
    does nothing else; the node stays as the first call left it. *)
Theorem merge_sons_if_required_twice_is_once
    (t : Tree) (mesh_pt mesh_pt' : ptr) (w : world)
    (Hleaves : Object_pt t ∈ Sons_to_be_unrefined w ->
               Forall is_leaf (Son_pt t)) :
  let t' := eval (merge_sons_if_required t mesh_pt) w in
  let w' := exec (merge_sons_if_required t mesh_pt) w in
  merge_sons_if_required t' mesh_pt' w' =
    (t', mkWorld (Tree_pt w') (Sons_to_be_unrefined w')
                 (trace w' ++ [Ev_sons_to_be_unrefined (Object_pt t)])
                 (Deleted w') (Undefined_behaviour w')).
Proof.
  cbv zeta.
  rewrite merge_sons_if_required_clear.
  - rewrite exec_sons_to_be_unrefined, eval_merge_object. reflexivity.
  - rewrite eval_merge_object. apply exec_merge_flag.
Qed.

Lemma merge_sons_if_required_twice_is_once_witness :
  (30%N ∈ ({[30%N]} : gset ptr) -> Forall is_leaf (Son_pt some_father))
  /\ trace (exec (merge_sons_if_required
                    (eval (merge_sons_if_required some_father 99%N)
                          (mkWorld ∅ {[30%N]} [] ∅ false)) 98%N)
                 (exec (merge_sons_if_required some_father 99%N)
                       (mkWorld ∅ {[30%N]} [] ∅ false))) =
     trace (exec (merge_sons_if_required some_father 99%N)
                 (mkWorld ∅ {[30%N]} [] ∅ false)) ++
     [Ev_sons_to_be_unrefined 30%N].
Proof.
  assert (Hleaves : 30%N ∈ ({[30%N]} : gset ptr) ->
                    Forall is_leaf (Son_pt some_father))
    by (intros _; repeat constructor).
  split; [exact Hleaves|].
  unfold exec at 1.
  rewrite (merge_sons_if_required_twice_is_once some_father 99%N 98%N
             (mkWorld ∅ {[30%N]} [] ∅ false) Hleaves).
  reflexivity.
Defined.

End TreeMergeFacts.

Module TreeShapeFacts.
Import RefineableElement TreeNS TreeFacts.





Lemma sum_list_with_app {A} (f : A -> nat) l1 l2 :
  sum_list_with f (l1 ++ l2) = (sum_list_with f l1 + sum_list_with f l2)%nat.
Proof. induction l1; cbn; lia. Qed.

(** Every node but the first is a son of exactly one node. *)
Lemma length_preorder t :
  length (preorder t) = (1 + sum_list_with nsons (preorder t))%nat.
Proof.
  induction t as [this obj fa st lv rt sons IH] using Tree_ind.
  cbn [preorder Son_pt length sum_list_with]. unfold nsons at 1.
  cbn [Son_pt]. f_equal.
  induction IH as [|s sons Hs _ IHsons]; cbn [map concat length].
  - reflexivity.
  - rewrite length_app, sum_list_with_app, Hs, IHsons at 1. lia.
Qed.

Lemma sum_nsons_filter (k : nat) (l : list Tree) :
  Forall (fun n => nsons n = 0%nat \/ nsons n = k) l ->
  sum_list_with nsons l =
  (k * length (filter (fun n => (0 < nsons n)%nat) l))%nat.
Proof.
  induction 1 as [|n l Hn _ IH]; [cbn; lia|].
  rewrite filter_cons. cbn [sum_list_with]. rewrite IH.
  destruct (decide (0 < nsons n)%nat); cbn [length]; lia.
Qed.

Lemma length_filter_partition (l : list Tree) :
  length l =
  (length (filter (fun n => (0 < nsons n)%nat) l) +
   length (filter is_leaf l))%nat.
Proof.
  induction l as [|n l IH]; [reflexivity|].
  rewrite !filter_cons. unfold is_leaf at 1.
  destruct (decide (0 < nsons n)%nat); destruct (decide (nsons n = 0%nat));
    cbn [length]; lia.
Qed.

(** X7.  Counting the vectors.  The vector filled by
    [stick_all_tree_nodes_into_vector] holds one entry more than the sons
    of all its entries together.  In a tree whose nodes have either no
    sons or [k] sons (four in a quadtree), the vector filled by
    [stick_leaves_into_vector] therefore holds [(k - 1) * n + 1] entries,
    [n] being the number of nodes with sons. *)
Theorem stick_leaves_count_in_regular_tree
    (k : nat) (t : Tree) (tree_nodes : list Tree)
    (Hk : Forall (fun n => nsons n = 0%nat \/ nsons n = k)
                 (stick_all_tree_nodes_into_vector t [])) :
  let n := length (filter (fun n => (0 < nsons n)%nat)
                          (stick_all_tree_nodes_into_vector t [])) in
  length (stick_all_tree_nodes_into_vector t tree_nodes) =
    (length tree_nodes + k * n + 1)%nat
  /\ (length (stick_leaves_into_vector t tree_nodes) + n =
      length tree_nodes + k * n + 1)%nat.
Proof.
  cbv zeta. rewrite !stick_all_preorder in *. cbn [app] in *.
  rewrite stick_leaves_preorder, !length_app.
  pose proof (length_preorder t) as Hlen.
  rewrite (sum_nsons_filter k _ Hk) in Hlen.
  pose proof (length_filter_partition (preorder t)) as Hpart.
  lia.
Qed.

Lemma stick_leaves_count_in_regular_tree_witness :
  Forall (fun n => nsons n = 0%nat \/ nsons n = 4%nat)
         (stick_all_tree_nodes_into_vector some_quadtree [])
  /\ (let n := length (filter (fun n => (0 < nsons n)%nat)
                 (stick_all_tree_nodes_into_vector some_quadtree [])) in
      length (stick_all_tree_nodes_into_vector some_quadtree []) =
        (length (@nil Tree) + 4 * n + 1)%nat
      /\ (length (stick_leaves_into_vector some_quadtree []) + n =
          length (@nil Tree) + 4 * n + 1)%nat).
Proof.
  assert (Hk : Forall (fun n => nsons n = 0%nat \/ nsons n = 4%nat)
                      (stick_all_tree_nodes_into_vector some_quadtree [])).
  { cbn. repeat (apply Forall_cons; split; [cbn; lia|]). apply Forall_nil.
    exact I. }
  split; [exact Hk|].
  apply (stick_leaves_count_in_regular_tree 4 some_quadtree [] Hk).
Defined.

End TreeShapeFacts.

Module TreeForestFacts.
Import RefineableElement TreeNS TreeForestNS TreeFacts.

Lemma son_loop_leaves (sons : list Tree) (acc : list Tree) :
  (fix loop (sons : list Tree) (forest_nodes : list Tree) : list Tree :=
     match sons with
     | [] => forest_nodes
     | son :: sons =>
         loop sons (TreeNS.stick_leaves_into_vector son forest_nodes)
     end) sons acc =
  acc ++ concat (map (fun s => TreeNS.stick_leaves_into_vector s []) sons).
Proof.
  revert acc. induction sons as [|s sons IH]; intros acc; cbn [map concat].
  - rewrite app_nil_r. reflexivity.
  - rewrite IH, stick_leaves_preorder, (stick_leaves_preorder s []),
      <- app_assoc. reflexivity.
Qed.

Lemma son_loop_all (sons : list Tree) (acc : list Tree) :
  (fix loop (sons : list Tree) (all_forest_nodes : list Tree) : list Tree :=
     match sons with
     | [] => all_forest_nodes
     | son :: sons =>
         loop sons (TreeNS.stick_all_tree_nodes_into_vector
                      son all_forest_nodes)
     end) sons acc =
  acc ++ concat (map preorder sons).
Proof.
  revert acc. induction sons as [|s sons IH]; intros acc; cbn [map concat].
  - rewrite app_nil_r. reflexivity.
  - rewrite IH, stick_all_preorder, <- app_assoc. reflexivity.
Qed.

Lemma leaves_of_sons t :
  (0 < nsons t)%nat ->
  concat (map (fun s => TreeNS.stick_leaves_into_vector s []) (Son_pt t)) =
  TreeNS.stick_leaves_into_vector t [].
Proof.
  intros Hn. destruct t as [this obj fa st lv rt sons].
  unfold nsons in Hn. cbn [Son_pt] in *.
  cbn [TreeNS.stick_leaves_into_vector Son_pt].
  destruct (decide (0 < length sons)%nat); [|lia].
  symmetry. apply (son_loop_leaves sons []).
Qed.

Lemma stick_leaves_loop_spec (trees_pt : list (option Tree)) :
  forall v,
  stick_leaves_loop trees_pt v =
  ts ← mapM id trees_pt ;
  Some (v ++ concat (map (fun t => TreeNS.stick_leaves_into_vector t []) ts)).
Proof.
  induction trees_pt as [|[t|] rest IH]; intros v.
  - cbn. rewrite app_nil_r. reflexivity.
  - cbn [stick_leaves_loop mapM mbind option_bind id].
    destruct (decide (0 < nsons t)%nat) as [Hn|Hn].
    + rewrite IH, son_loop_leaves, (leaves_of_sons t Hn).
      destruct (mapM id rest) as [ts|]; cbn; [|reflexivity].
      rewrite <- app_assoc. reflexivity.
    + rewrite IH. destruct (mapM id rest) as [ts|]; cbn; [|reflexivity].
      rewrite <- app_assoc. do 2 f_equal.
      destruct t as [this obj fa st lv rt sons]. unfold nsons in Hn.
      cbn [Son_pt] in Hn. cbn [TreeNS.stick_leaves_into_vector Son_pt].
      destruct (decide (0 < length sons)%nat); [lia|]. reflexivity.
  - reflexivity.
Qed.

Lemma stick_all_loop_spec (trees_pt : list (option Tree)) :
  forall v,
  stick_all_loop trees_pt v =
  ts ← mapM id trees_pt ;
  Some (v ++ concat (map preorder ts)).
Proof.
  induction trees_pt as [|[t|] rest IH]; intros v.
  - cbn. rewrite app_nil_r. reflexivity.
  - cbn [stick_all_loop mapM mbind option_bind id].
    destruct (decide (0 < nsons t)%nat) as [Hn|Hn].
    + rewrite IH, son_loop_all.
      destruct (mapM id rest) as [ts|]; cbn; [|reflexivity].
      rewrite <- !app_assoc. destruct t. reflexivity.
    + rewrite IH. destruct (mapM id rest) as [ts|]; cbn; [|reflexivity].
      rewrite <- !app_assoc. do 2 f_equal.
      destruct t as [this obj fa st lv rt sons]. unfold nsons in Hn.
      cbn [Son_pt] in Hn. destruct sons; [reflexivity | cbn in Hn; lia].
  - reflexivity.
Qed.

(** X8.  The two [stick] functions of a forest fill the vector with what
    the functions of the same name of [Tree] give for the trees of the
    forest, tree after tree in the order of [Trees_pt], after what the
    vector held before; the leaves are the entries without sons of the
    vector of all nodes.  With a null pointer among the trees neither
    call is defined, and an empty forest leaves the vector as it is. *)
Theorem TreeForest_stick_vectors_are_the_trees_vectors
    (f : TreeForest) (forest_nodes : list Tree) :
  stick_leaves_into_vector f forest_nodes =
    (ts ← trees_of f ;
     Some (forest_nodes ++
           concat (map (fun t => TreeNS.stick_leaves_into_vector t []) ts)))
  /\ stick_all_tree_nodes_into_vector f forest_nodes =
    (ts ← trees_of f ;
     Some (forest_nodes ++
           concat (map (fun t => TreeNS.stick_all_tree_nodes_into_vector t [])
                       ts)))
  /\ stick_leaves_into_vector f forest_nodes =
    (all_forest_nodes ← stick_all_tree_nodes_into_vector f [] ;
     Some (forest_nodes ++
           filter (fun n => nsons n = 0%nat) all_forest_nodes))
  /\ stick_leaves_into_vector (TreeForest_ctor []) forest_nodes =
     Some forest_nodes
  /\ stick_all_tree_nodes_into_vector (TreeForest_ctor []) forest_nodes =
     Some forest_nodes.
Proof.
  unfold stick_leaves_into_vector, stick_all_tree_nodes_into_vector,
    trees_of.
  split; [apply stick_leaves_loop_spec|].
  split; [|split; [|split]].
  - rewrite stick_all_loop_spec.
    destruct (mapM id (Trees_pt f)) as [ts|]; cbn; [|reflexivity].
    do 3 f_equal. apply map_ext. intros t. rewrite stick_all_preorder.
    reflexivity.
  - rewrite stick_leaves_loop_spec, stick_all_loop_spec.
    destruct (mapM id (Trees_pt f)) as [ts|]; cbn; [|reflexivity].
    do 2 f_equal. rewrite filter_concat_map. f_equal.
    apply map_ext. intros t. rewrite stick_leaves_preorder. reflexivity.
  - reflexivity.
  - reflexivity.
Qed.

Lemma emits_delete_tree_root p :
  emits (delete_tree_root p) (delete_root_events p).
Proof.
  destruct p as [t|]; cbn [delete_tree_root delete_root_events].
  - apply delete_tree_emits.
  - apply emits_ret.
Qed.

Lemma dtor_loop_emits (rest : list (option Tree)) :
  forall (nulls : nat),
  emits (TreeForest_dtor_loop (length rest) nulls
           (replicate nulls None ++ rest))
        (concat (map delete_root_events rest)).
Proof.
  induction rest as [|p rest IH]; intros nulls; cbn [length map concat].
  - apply emits_ret.
  - cbn [TreeForest_dtor_loop].
    rewrite lookup_app_r by (rewrite length_replicate; lia).
    rewrite length_replicate, Nat.sub_diag. cbn [lookup list_lookup default].
    apply emits_bind; [apply emits_delete_tree_root | intros _].
    rewrite insert_app_r_alt by (rewrite length_replicate; lia).
    rewrite length_replicate, Nat.sub_diag. cbn [insert list_insert].
    change (None :: rest) with ([None] ++ rest).
    rewrite app_assoc.
    change [None] with (replicate 1 (@None Tree)).
    rewrite <- replicate_add, Nat.add_1_r. apply IH.
Qed.

Lemma dtor_loop_eval (rest : list (option Tree)) :
  forall (nulls : nat) w,
  eval (TreeForest_dtor_loop (length rest) nulls
          (replicate nulls None ++ rest)) w =
  replicate (nulls + length rest) None.
Proof.
  induction rest as [|p rest IH]; intros nulls w; cbn [length].
  - cbn. rewrite app_nil_r, Nat.add_0_r. reflexivity.
  - cbn [TreeForest_dtor_loop]. rewrite eval_bind.
    rewrite insert_app_r_alt by (rewrite length_replicate; lia).
    rewrite length_replicate, Nat.sub_diag. cbn [insert list_insert].
    change (None :: rest) with ([None] ++ rest).
    rewrite app_assoc.
    change [None] with (replicate 1 (@None Tree)).
    rewrite <- replicate_add, Nat.add_1_r, IH. f_equal. lia.
Qed.

Lemma dtor_loop_nulls (n : nat) :
  forall (i m : nat) w,
  TreeForest_dtor_loop n i (replicate m None) w = (replicate m None, w).
Proof.
  induction n as [|n IH]; intros i m w; [reflexivity|].
  cbn [TreeForest_dtor_loop].
  assert (Hl : default None (replicate m (@None Tree) !! i) = None).
  { destruct (replicate m (@None Tree) !! i) as [x|] eqn:Hx; [|reflexivity].
    apply lookup_replicate in Hx as [-> _]. reflexivity. }
  rewrite Hl. cbn [delete_tree_root].
  rewrite insert_replicate. unfold mbind, M_bind, mret, M_ret. apply IH.
Qed.

(** X9.  The destructor of a forest deletes the trees in the order of
    [Trees_pt], each deletion running the destructor of [Tree] on the
    root before the root is released, and passes over null pointers;
    the elements it deletes are those of the nodes with sons, so the
    elements of the leaves stay.  It leaves a null pointer in every
    place of [Trees_pt], so that running the body again does nothing. *)
Theorem TreeForest_dtor_deletes_every_tree
    (f : TreeForest) (w : world) :
  let f' := eval (TreeForest_dtor f) w in
  let w' := exec (TreeForest_dtor f) w in
  let tr := concat (map delete_root_events (Trees_pt f)) in
  Trees_pt f' = replicate (ntree f) None
  /\ trace w' = trace w ++ tr
  /\ deleted_trees tr =
     concat (map (fun p => map This (from_option postorder [] p))
                 (Trees_pt f))
  /\ deleted_objects tr =
     concat (map (fun p => map Object_pt
                             (filter (fun n => (0 < nsons n)%nat)
                                     (from_option postorder [] p)))
                 (Trees_pt f))
  /\ TreeForest_dtor f' w' = (f', w').
Proof.
  cbv zeta. unfold TreeForest_dtor, ntree.
  pose proof (dtor_loop_eval (Trees_pt f) 0) as Heval.
  pose proof (dtor_loop_emits (Trees_pt f) 0) as Hemits.
  cbn [replicate app Nat.add] in Heval, Hemits.
  rewrite eval_bind, exec_bind, exec_ret. cbn [eval mret M_ret fst Trees_pt].
  rewrite Heval.
  split; [reflexivity|]. split; [apply Hemits|].
  split; [|split].
  - unfold deleted_trees. rewrite omap_concat_map.
    apply concat_map_ext_Forall, Forall_forall. intros [t|] _; cbn.
    + apply deleted_trees_delete_son.
    + reflexivity.
  - unfold deleted_objects. rewrite omap_concat_map.
    apply concat_map_ext_Forall, Forall_forall. intros [t|] _; cbn.
    + fold (deleted_objects (delete_son_events t)).
      rewrite deleted_objects_delete_son. f_equal.
      apply list_filter_iff. intros n. unfold is_leaf. lia.
    + reflexivity.
  - rewrite length_replicate.
    unfold mbind at 1, M_bind at 1. rewrite dtor_loop_nulls. reflexivity.
Qed.

Lemma close_streams_loop_spec (output_stream : list ptr) :
  forall done,
  close_streams_loop output_stream done =
  if bool_decide (null ∈ output_stream) then None
  else Some (done ++ map Ev_close output_stream).
Proof.
  induction output_stream as [|p rest IH]; intros done.
  - cbn. rewrite app_nil_r. reflexivity.
  - cbn [close_streams_loop map].
    destruct (decide (p = null)) as [->|Hp].
    + rewrite bool_decide_eq_true_2 by apply list_elem_of_here. reflexivity.
    + rewrite IH.
      destruct (decide (null ∈ rest)) as [Hin|Hin].
      * rewrite !bool_decide_eq_true_2;
          [reflexivity | apply list_elem_of_further, Hin | exact Hin].
      * rewrite !bool_decide_eq_false_2;
          [rewrite <- app_assoc; reflexivity | | exact Hin].
        intros [Heq|Hin']%elem_of_cons; [congruence | contradiction].
Qed.

Lemma delete_streams_loop_spec (output_stream : list ptr) :
  forall (tail : list ptr) done,
  delete_streams_loop (length output_stream) (output_stream ++ tail) done =
  (replicate (length output_stream) null ++ tail,
   done ++ map Ev_delete_stream
               (rev (filter (fun p => p <> null) output_stream))).
Proof.
  induction output_stream as [|p rest IH] using rev_ind; intros tail done.
  - cbn. rewrite app_nil_r. reflexivity.
  - rewrite length_app. cbn [length]. rewrite Nat.add_1_r.
    cbn [delete_streams_loop].
    rewrite <- app_assoc. cbn [app].
    rewrite list_lookup_middle by reflexivity. cbn [default].
    rewrite insert_app_r_alt by lia. rewrite Nat.sub_diag.
    cbn [insert list_insert]. rewrite IH.
    rewrite filter_app, filter_cons, filter_nil, rev_app_distr.
    f_equal.
    + change (null :: tail) with ([null] ++ tail). rewrite app_assoc.
      f_equal. change [null] with (replicate 1 null).
      rewrite <- replicate_add. f_equal. lia.
    + unfold id.
      destruct (decide (p = null)); destruct (decide (p <> null));
        try contradiction; cbn [rev app map].
      * reflexivity.
      * rewrite <- app_assoc. reflexivity.
Qed.

(** X10.  [close_hanging_node_files] leaves the vector of streams empty.
    When documentation is enabled it first closes every stream, first to
    last, which is not defined if one of the pointers is null; then, in
    either case, it deletes every stream that is not null once, last to
    first. *)
Theorem close_hanging_node_files_closes_then_deletes
    (is_doc_enabled : bool) (output_stream : list ptr) :
  close_hanging_node_files is_doc_enabled output_stream =
    if is_doc_enabled && bool_decide (null ∈ output_stream) then None
    else Some ([],
               (if is_doc_enabled then map Ev_close output_stream else []) ++
               map Ev_delete_stream
                   (rev (filter (fun p => p <> null) output_stream))).
Proof.
  unfold close_hanging_node_files.
  pose proof (delete_streams_loop_spec output_stream []) as Hdel.
  rewrite app_nil_r in Hdel.
  destruct is_doc_enabled; cbn [andb].
  - rewrite close_streams_loop_spec.
    case_bool_decide; [reflexivity|].
    cbn [mbind option_bind]. rewrite Hdel. reflexivity.
  - cbn [mbind option_bind]. rewrite Hdel. reflexivity.
Qed.

End TreeForestFacts.

Module QuadTreeRootFacts.
Import RefineableElement TreeNS QuadTreeNS TreeFacts.

Lemma NSEW_cases (d : Z) :
  NSEW_dec d = true ->
  d = QuadTreeNames.N \/ d = QuadTreeNames.S \/ d = QuadTreeNames.E \/
  d = QuadTreeNames.W.
Proof. unfold NSEW_dec. intros H. apply bool_decide_eq_true in H. exact H. Qed.

Lemma north_equivalent_NSEW
    (PARANOID : bool) (F L : throw_site -> string) (D : list string)
    (r : QuadTreeRoot) (d : Z) :
  length (North_equivalent r) = 27%nat ->
  NSEW_dec d = true ->
  north_equivalent PARANOID F L D r d = Returns (mk_int_ref (Z.to_nat d)).
Proof.
  intros Hsize Hd. apply NSEW_cases in Hd.
  unfold north_equivalent, Vector_index. rewrite Hsize.
  unfold QuadTreeNames.N, QuadTreeNames.S, QuadTreeNames.E,
    QuadTreeNames.W in *.
  destruct PARANOID; cbn [andb].
  - repeat case_bool_decide; cbn [andb]; try lia;
      case_decide; try reflexivity; lia.
  - case_decide; [reflexivity | lia].
Qed.

(** X11.  The reference [north_equivalent(neighbour)] returns is a
    reference into the root.  On a root with the 27 entries of the
    constructor and for directions among N, S, E, W, in either build: a
    value assigned through it is the value read back for that direction;
    the value read for another direction is the one that was there
    before; the tree of the root and its neighbour pointers are as
    before, and so is the number of entries.  On the root the
    constructor returns, the value read for each of the four directions
    is N. *)
Theorem north_equivalent_assignment_is_read_back
    (PARANOID : bool) (F L : throw_site -> string) (D : list string)
    (r : QuadTreeRoot) (d d' v : Z) (this object_pt : ptr)
    (Hsize : length (North_equivalent r) = 27%nat)
    (Hd : NSEW_dec d = true) (Hd' : NSEW_dec d' = true) :
  exists r',
    set_north_equivalent PARANOID F L D r d v = Returns r'
    /\ get_north_equivalent PARANOID F L D r' d = Returns v
    /\ get_north_equivalent PARANOID F L D r' d' =
       (if decide (d' = d) then Returns v
        else get_north_equivalent PARANOID F L D r d')
    /\ tree r' = tree r
    /\ Neighbour_pt r' = Neighbour_pt r
    /\ length (North_equivalent r') = 27%nat
    /\ get_north_equivalent PARANOID F L D (fresh_root this object_pt) d =
       Returns QuadTreeNames.N.
Proof.
  exists (store r (mk_int_ref (Z.to_nat d)) v).
  assert (Hsize' : length (North_equivalent
                             (store r (mk_int_ref (Z.to_nat d)) v)) = 27%nat).
  { cbn [store North_equivalent ref_index]. rewrite length_insert.
    exact Hsize. }
  assert (Hrange : forall x, NSEW_dec x = true -> (Z.to_nat x < 27)%nat).
  { intros x Hx. apply NSEW_cases in Hx.
    unfold QuadTreeNames.N, QuadTreeNames.S, QuadTreeNames.E,
      QuadTreeNames.W in Hx. lia. }
  assert (Hget : get_north_equivalent PARANOID F L D
                   (store r (mk_int_ref (Z.to_nat d)) v) d = Returns v).
  { unfold get_north_equivalent.
    rewrite (north_equivalent_NSEW _ _ _ _ _ d Hsize' Hd).
    unfold load, store. cbn [North_equivalent ref_index].
    rewrite list_lookup_insert_eq by (rewrite Hsize; apply Hrange, Hd).
    reflexivity. }
  unfold set_north_equivalent.
  rewrite (north_equivalent_NSEW _ _ _ _ _ d Hsize Hd).
  split; [reflexivity|]. split; [exact Hget|].
  split; [|split; [reflexivity|split; [reflexivity|split; [exact Hsize'|]]]].
  - destruct (decide (d' = d)) as [->|Hne]; [exact Hget|].
    unfold get_north_equivalent.
    rewrite (north_equivalent_NSEW _ _ _ _ _ d' Hsize' Hd').
    rewrite (north_equivalent_NSEW _ _ _ _ _ d' Hsize Hd').
    unfold load, store. cbn [North_equivalent ref_index].
    rewrite list_lookup_insert_ne; [reflexivity|].
    pose proof (NSEW_cases d Hd). pose proof (NSEW_cases d' Hd').
    unfold QuadTreeNames.N, QuadTreeNames.S, QuadTreeNames.E,
      QuadTreeNames.W in *. lia.
  - unfold get_north_equivalent.
    rewrite (north_equivalent_NSEW _ _ _ _ (fresh_root this object_pt) d
               eq_refl Hd).
    destruct (NSEW_cases d Hd) as [->|[->|[->| ->]]]; reflexivity.
Qed.

Lemma north_equivalent_assignment_is_read_back_witness :
  length (North_equivalent some_root) = 27%nat
  /\ NSEW_dec QuadTreeNames.W = true
  /\ NSEW_dec QuadTreeNames.E = true
  /\ exists r',
    set_north_equivalent true some_function some_location some_Direct_string
                         some_root QuadTreeNames.W QuadTreeNames.S =
      Returns r'
    /\ get_north_equivalent true some_function some_location
                            some_Direct_string r' QuadTreeNames.W =
       Returns QuadTreeNames.S
    /\ get_north_equivalent true some_function some_location
                            some_Direct_string r' QuadTreeNames.E =
       (if decide (QuadTreeNames.E = QuadTreeNames.W)
        then Returns QuadTreeNames.S
        else get_north_equivalent true some_function some_location
                                  some_Direct_string some_root
                                  QuadTreeNames.E)
    /\ tree r' = tree some_root
    /\ Neighbour_pt r' = Neighbour_pt some_root
    /\ length (North_equivalent r') = 27%nat
    /\ get_north_equivalent true some_function some_location
                            some_Direct_string (fresh_root 1%N 2%N)
                            QuadTreeNames.W =
       Returns QuadTreeNames.N.
Proof.
  split; [reflexivity|]. split; [reflexivity|]. split; [reflexivity|].
  apply (north_equivalent_assignment_is_read_back
           true some_function some_location some_Direct_string
           some_root QuadTreeNames.W QuadTreeNames.E QuadTreeNames.S
           1%N 2%N); reflexivity.
Defined.

(** X12.  The constructor of [QuadTreeRoot] runs the constructor of [Tree]
    before its own body.  So in every build and whatever the state of
    the static data, also when the body throws, the call
    [set_tree_pt(this)] has been made on the element and is the only call
    made: the element's tree pointer is the address at which the root
    was being constructed. *)
Theorem QuadTreeRoot_ctor_sets_tree_pt_before_it_checks
    (PARANOID : bool) (F L : throw_site -> string) (setup : bool)
    (this object_pt : ptr) (w : world) :
  let w' := exec (QuadTreeRoot_ctor PARANOID F L setup this object_pt) w in
  tree_pt w' object_pt = this
  /\ w' = exec (Tree_ctor_root this object_pt) w
  /\ trace w' = trace w ++ [Ev_set_tree_pt object_pt this]
  /\ Sons_to_be_unrefined w' = Sons_to_be_unrefined w
  /\ eval (QuadTreeRoot_ctor PARANOID F L setup this object_pt) w =
     (if PARANOID && negb setup
      then Throws (static_data_error F L)
      else Returns (fresh_root this object_pt)).
Proof.
  cbv zeta.
  assert (Hw : exec (QuadTreeRoot_ctor PARANOID F L setup this object_pt) w =
               exec (set_tree_pt object_pt this) w).
  { unfold QuadTreeRoot_ctor, Tree_ctor_root.
    destruct PARANOID, setup; reflexivity. }
  rewrite Hw. split; [apply tree_pt_after_set|].
  split; [reflexivity|]. split; [reflexivity|]. split; [reflexivity|].
  destruct PARANOID, setup; reflexivity.
Qed.

End QuadTreeRootFacts.

(* ===================================================================== *)
(** ** Facts about the refineable polar Navier-Stokes elements            *)
(* ===================================================================== *)

Module LoopFacts.

Lemma for_loop_pure {S : Type} (h : nat -> S -> S)
    (body : nat -> S -> outcome S) (n : nat) :
  forall (i : nat) (st : S),
  (forall k st', (i <= k < i + n)%nat -> body k st' = Returns (h k st')) ->
  for_loop n i body st = Returns (foldl (fun st k => h k st) st (seq i n)).
Proof.
  induction n as [|n IH]; intros i st Hbody; [reflexivity|].
  cbn [for_loop seq foldl]. rewrite Hbody by lia.
  cbn [mbind outcome_bind]. rewrite Nat.add_1_r. apply IH.
  intros k st' Hk. apply Hbody. lia.
Qed.

Lemma for_range_pure {S : Type} (h : nat -> S -> S)
    (body : nat -> S -> outcome S) (lo hi : nat) (st : S) :
  (forall k st', (lo <= k < hi)%nat -> body k st' = Returns (h k st')) ->
  for_range lo hi body st =
  Returns (foldl (fun st k => h k st) st (seq lo (hi - lo))).
Proof.
  intros Hbody. unfold for_range. apply for_loop_pure.
  intros k st' Hk. apply Hbody. lia.
Qed.

Lemma Vector_get_lookup {A} (v : list A) (i : nat) (x : A) :
  v !! i = Some x -> Vector_get v i = Returns x.
Proof. intros H. unfold Vector_get. rewrite H. reflexivity. Qed.

Lemma Vector_set_lt {A} (v : list A) (i : nat) (x : A) :
  (i < length v)%nat -> Vector_set v i x = Returns (<[i := x]> v).
Proof.
  intros H. unfold Vector_set. destruct (decide (i < length v)%nat);
    [reflexivity | contradiction].
Qed.

(** A loop over the indices of a vector is a fold over its entries. *)
Lemma foldl_seq_lookup {A S : Type} (f : S -> A -> S) (d : A) (l : list A) :
  forall (pre : list A) (st : S),
  foldl (fun st k => f st (default d ((pre ++ l) !! k))) st
        (seq (length pre) (length l)) =
  foldl f st l.
Proof.
  induction l as [|x l IH]; intros pre st; [reflexivity|].
  cbn [length seq foldl].
  rewrite list_lookup_middle by reflexivity. cbn [default].
  specialize (IH (pre ++ [x])). rewrite <- app_assoc in IH. cbn [app] in IH.
  rewrite length_app in IH. cbn [length] in IH. rewrite Nat.add_1_r in IH.
  unfold id. apply IH.
Qed.

End LoopFacts.

Module PolarEquationsFacts.
Import PolarCR RefineablePolarNavierStokesEquations.

(** X13.  [get_Z2_flux] packs the upper triangle of the strain rate into
    the flux vector: the two diagonal entries first, then the entry
    (0, 1); the entry (1, 0) is not used.  It writes
    [num_Z2_flux_terms()] entries.  On a vector of three entries this is
    the whole vector, in either build.  On a vector of another size a
    build with PARANOID throws the error that names the size; a build
    without PARANOID writes the first three entries of a longer vector,
    leaving the others, and is not defined on a shorter one. *)
Theorem get_Z2_flux_packs_upper_triangle
    (PARANOID : bool) (F L : throw_site -> string)
    (strain_rate_by_r : list double -> nat -> nat -> double)
    (s flux : list double) :
  get_Z2_flux PARANOID F L strain_rate_by_r s flux =
    (if decide (length flux = num_Z2_flux_terms) then
       Returns [strain_rate_by_r s 0%nat 0%nat; strain_rate_by_r s 1%nat 1%nat;
                strain_rate_by_r s 0%nat 1%nat]
     else if PARANOID then Throws (flux_size_error F L (length flux))
     else if decide (num_Z2_flux_terms < length flux)%nat then
       Returns ([strain_rate_by_r s 0%nat 0%nat;
                 strain_rate_by_r s 1%nat 1%nat;
                 strain_rate_by_r s 0%nat 1%nat] ++
                drop num_Z2_flux_terms flux)
     else Undefined).
Proof.
  unfold get_Z2_flux, num_Z2_flux_terms, flux_size_error.
  destruct flux as [|x [|y [|z [|u rest]]]]; destruct PARANOID;
    try reflexivity.
Qed.

End PolarEquationsFacts.

Module PolarTaylorHoodFacts.
Import PolarCR NodeNS RefineablePolarNavierStokesEquations
  RefineablePolarTaylorHoodElement LoopFacts.

Lemma node_loop (Node_pt : list ptr)
    (f : ptr -> pinned_values -> pinned_values)
    (pinned : pinned_values) :
  for_range 0 (nnode Node_pt)
    (fun n pinned => nod_pt ← node_pt Node_pt n ; mret (f nod_pt pinned))
    pinned =
  Returns (foldl (fun pinned nod_pt => f nod_pt pinned) pinned Node_pt).
Proof.
  rewrite (for_range_pure
             (fun n pinned => f (default null (Node_pt !! n)) pinned)).
  - rewrite Nat.sub_0_r. unfold nnode.
    rewrite (foldl_seq_lookup (fun pinned nod_pt => f nod_pt pinned)
               null Node_pt []). reflexivity.
  - intros k st' [_ Hk]. unfold nnode in Hk.
    destruct (lookup_lt_is_Some_2 Node_pt k Hk) as [x Hx].
    unfold node_pt. rewrite (Vector_get_lookup _ _ _ Hx), Hx. reflexivity.
Qed.

Lemma foldl_pin (p_index : nat) (l : list ptr) (pinned : pinned_values) :
  foldl (fun pinned nod_pt => pin nod_pt p_index pinned) pinned l =
  pinned ∪ list_to_set (map (fun d => (d, p_index)) l).
Proof.
  revert pinned. induction l as [|x l IH]; intros pinned;
    cbn [foldl map list_to_set].
  - rewrite (right_id_L ∅ (∪)). reflexivity.
  - rewrite IH. unfold pin. rewrite (assoc_L (∪)). reflexivity.
Qed.

Lemma difference_union_r (X Y Z : pinned_values) :
  X ∖ Y ∖ Z = X ∖ (Y ∪ Z).
Proof.
  apply set_eq. intros x.
  rewrite !elem_of_difference, elem_of_union. tauto.
Qed.

Lemma foldl_unpin (p_index : nat) (l : list ptr) (pinned : pinned_values) :
  foldl (fun pinned nod_pt => unpin nod_pt p_index pinned) pinned l =
  pinned ∖ list_to_set (map (fun d => (d, p_index)) l).
Proof.
  revert pinned. induction l as [|x l IH]; intros pinned;
    cbn [foldl map list_to_set].
  - rewrite difference_empty_L. reflexivity.
  - rewrite IH. unfold unpin. apply difference_union_r.
Qed.

Lemma pressure_loop (Node_pt : list ptr) (Pconv : list nat)
    (npres_pnst p_index : nat) (hanging_pt : ptr -> Z -> option HangInfo)
    (HP : Pconv_in_range Node_pt Pconv npres_pnst)
    (pinned : pinned_values) :
  for_range 0 npres_pnst
    (fun l pinned =>
       nod_pt ← pressure_node_pt Node_pt Pconv l ;
       if negb (is_hanging_value hanging_pt nod_pt p_index)
       then mret (unpin nod_pt p_index pinned)
       else mret pinned)
    pinned =
  Returns (pinned ∖
           list_to_set
             (map (fun d => (d, p_index))
                  (filter (fun d => is_hanging_value hanging_pt d p_index = false)
                          (pressure_nodes Node_pt Pconv npres_pnst)))).
Proof.
  rewrite (for_range_pure
             (fun l pinned =>
                match k ← Pconv !! l ; Node_pt !! k with
                | Some nod_pt =>
                    if negb (is_hanging_value hanging_pt nod_pt p_index)
                    then unpin nod_pt p_index pinned else pinned
                | None => pinned
                end)).
  - f_equal. rewrite Nat.sub_0_r. unfold pressure_nodes.
    clear HP. generalize (seq 0 npres_pnst) as ls. intros ls. revert pinned.
    induction ls as [|l ls IH]; intros pinned;
      cbn [foldl omap list_omap].
    + change (filter _ []) with (@nil ptr).
      cbn [map list_to_set]. rewrite difference_empty_L. reflexivity.
    + rewrite IH. clear IH.
      destruct (Pconv !! l ≫= fun k => Node_pt !! k) as [d|] eqn:Hd;
        [|reflexivity].
      rewrite filter_cons.
      destruct (is_hanging_value hanging_pt d p_index) eqn:Hh; cbn [negb].
      * destruct (decide (true = false)); [discriminate|]. reflexivity.
      * destruct (decide (false = false)); [|contradiction].
        unfold unpin. cbn [map list_to_set]. apply difference_union_r.
  - intros l st' [_ Hl]. destruct (HP l Hl) as (k & Hk & Hlt).
    destruct (lookup_lt_is_Some_2 Node_pt k Hlt) as [x Hx].
    unfold pressure_node_pt, node_pt.
    rewrite (Vector_get_lookup _ _ _ Hk). cbn [mbind outcome_bind].
    rewrite (Vector_get_lookup _ _ _ Hx). cbn [mbind outcome_bind].
    rewrite Hk. cbn [mbind option_bind]. rewrite Hx.
    destruct (is_hanging_value hanging_pt x p_index); reflexivity.
Qed.

Lemma pressure_nodes_are_nodes (Node_pt : list ptr) (Pconv : list nat)
    (npres_pnst : nat) d :
  d ∈ pressure_nodes Node_pt Pconv npres_pnst -> d ∈ Node_pt.
Proof.
  unfold pressure_nodes. intros Hd.
  apply list_elem_of_omap in Hd as (l & _ & Hl).
  destruct (Pconv !! l) as [k|]; [|discriminate]. cbn in Hl.
  eapply list_elem_of_lookup_2, Hl.
Qed.

(** The values that are pinned when
    [pin_elemental_redundant_nodal_pressure_dofs] returns. *)
Lemma pin_redundant_result (Node_pt : list ptr) (Pconv : list nat)
    (npres_pnst p_index : nat) (hanging_pt : ptr -> Z -> option HangInfo)
    (HP : Pconv_in_range Node_pt Pconv npres_pnst)
    (pinned : pinned_values) :
  pin_elemental_redundant_nodal_pressure_dofs
    Node_pt Pconv npres_pnst p_index hanging_pt pinned =
  Returns ((pinned ∪ list_to_set (map (fun d => (d, p_index)) Node_pt)) ∖
           list_to_set
             (map (fun d => (d, p_index))
                  (filter (fun d => is_hanging_value hanging_pt d p_index = false)
                          (pressure_nodes Node_pt Pconv npres_pnst)))).
Proof.
  unfold pin_elemental_redundant_nodal_pressure_dofs.
  rewrite (node_loop Node_pt (fun nod_pt => pin nod_pt p_index)).
  cbn [mbind outcome_bind]. rewrite foldl_pin.
  apply (pressure_loop _ _ _ _ _ HP).
Qed.

Lemma unpin_result (Node_pt : list ptr) (p_index : nat)
    (pinned : pinned_values) :
  unpin_elemental_pressure_dofs Node_pt p_index pinned =
  Returns (pinned ∖ list_to_set (map (fun d => (d, p_index)) Node_pt)).
Proof.
  unfold unpin_elemental_pressure_dofs.
  rewrite (node_loop Node_pt (fun nod_pt => unpin nod_pt p_index)).
  rewrite foldl_unpin. reflexivity.
Qed.

Lemma elem_of_pairs (p_index : nat) (l : list ptr) (d : ptr) (i : nat) :
  (d, i) ∈ (list_to_set (map (fun d => (d, p_index)) l) : pinned_values) <->
  i = p_index /\ d ∈ l.
Proof.
  rewrite elem_of_list_to_set, list_elem_of_fmap. split.
  - intros (x & Heq & Hx). injection Heq as -> ->. split; [reflexivity|].
    exact Hx.
  - intros [-> Hd]. exists d. split; [reflexivity | exact Hd].
Qed.

Lemma some_Pconv_in_range : Pconv_in_range some_Node_pt some_Pconv 4.
Proof.
  intros l Hl. unfold some_Pconv, some_Node_pt.
  destruct l as [|[|[|[|l]]]]; [| | | |lia];
    eexists; (split; [reflexivity | cbn; lia]).
Defined.

(** X14.  [pin_elemental_redundant_nodal_pressure_dofs] pins the pressure
    value of every node of the element and then frees that of the
    pressure nodes that do not hang.  So, [Pconv] naming nodes of the
    element: when it returns, the pressure value of a node of the element
    is free exactly if the node is a pressure node and its pressure does
    not hang; every other value, of these nodes and of all others, is
    pinned or free as it was; and a second call changes nothing more. *)
Theorem pin_elemental_redundant_nodal_pressure_dofs_leaves_pressure_nodes_free
    (Node_pt : list ptr) (Pconv : list nat) (npres_pnst p_index : nat)
    (hanging_pt : ptr -> Z -> option HangInfo) (pinned : pinned_values)
    (HP : Pconv_in_range Node_pt Pconv npres_pnst) :
  exists pinned',
    pin_elemental_redundant_nodal_pressure_dofs
      Node_pt Pconv npres_pnst p_index hanging_pt pinned = Returns pinned'
    /\ (forall d, d ∈ Node_pt ->
          is_pinned d p_index pinned' =
          negb (bool_decide (d ∈ pressure_nodes Node_pt Pconv npres_pnst)
                && negb (is_hanging_value hanging_pt d p_index)))
    /\ (forall d i, ¬ (i = p_index /\ d ∈ Node_pt) ->
          is_pinned d i pinned' = is_pinned d i pinned)
    /\ pin_elemental_redundant_nodal_pressure_dofs
         Node_pt Pconv npres_pnst p_index hanging_pt pinned' =
       Returns pinned'.
Proof.
  eexists. split; [apply (pin_redundant_result _ _ _ _ _ HP)|].
  set (A := list_to_set (map (fun d => (d, p_index)) Node_pt)
            : pinned_values).
  set (P := filter (fun d => is_hanging_value hanging_pt d p_index = false)
                   (pressure_nodes Node_pt Pconv npres_pnst)).
  set (U := list_to_set (map (fun d => (d, p_index)) P) : pinned_values).
  assert (HU : forall d i, (d, i) ∈ U <->
             i = p_index /\
             d ∈ pressure_nodes Node_pt Pconv npres_pnst /\
             is_hanging_value hanging_pt d p_index = false).
  { intros d i. subst U P. rewrite elem_of_pairs, list_elem_of_filter.
    tauto. }
  assert (HA : forall d i, (d, i) ∈ A <-> i = p_index /\ d ∈ Node_pt).
  { intros d i. subst A. apply elem_of_pairs. }
  split; [|split].
  - intros d Hd. unfold is_pinned.
    destruct (is_hanging_value hanging_pt d p_index) eqn:Hh; cbn [negb];
      rewrite ?andb_false_r, ?andb_true_r; cbn [negb].
    + apply bool_decide_eq_true_2.
      rewrite elem_of_difference, elem_of_union, HA, HU. split; [tauto|].
      intros (_ & _ & Hf). congruence.
    + destruct (decide (d ∈ pressure_nodes Node_pt Pconv npres_pnst))
        as [Hp|Hp].
      * rewrite (bool_decide_eq_true_2 _ Hp). cbn [negb].
        apply bool_decide_eq_false_2.
        rewrite elem_of_difference, HU. tauto.
      * rewrite (bool_decide_eq_false_2 _ Hp). cbn [negb].
        apply bool_decide_eq_true_2.
        rewrite elem_of_difference, elem_of_union, HA, HU. tauto.
  - intros d i Hdi. unfold is_pinned. apply bool_decide_ext.
    rewrite elem_of_difference, elem_of_union, HA, HU.
    split; [tauto|]. intros Hin. split; [tauto|].
    intros (-> & Hp & _). apply Hdi. split; [reflexivity|].
    eapply pressure_nodes_are_nodes, Hp.
  - rewrite (pin_redundant_result _ _ _ _ _ HP). f_equal.
    fold A P U. apply set_eq. intros [d i].
    rewrite !elem_of_difference, !elem_of_union, !elem_of_difference,
      !elem_of_union. tauto.
Qed.

Lemma pin_elemental_redundant_nodal_pressure_dofs_leaves_pressure_nodes_free_witness :
  Pconv_in_range some_Node_pt some_Pconv 4
  /\ exists pinned',
    pin_elemental_redundant_nodal_pressure_dofs
      some_Node_pt some_Pconv 4 2 some_hanging_pt ∅ = Returns pinned'
    /\ (forall d, d ∈ some_Node_pt ->
          is_pinned d 2 pinned' =
          negb (bool_decide (d ∈ pressure_nodes some_Node_pt some_Pconv 4)
                && negb (is_hanging_value some_hanging_pt d 2)))
    /\ (forall d i, ¬ (i = 2%nat /\ d ∈ some_Node_pt) ->
          is_pinned d i pinned' = is_pinned d i ∅)
    /\ pin_elemental_redundant_nodal_pressure_dofs
         some_Node_pt some_Pconv 4 2 some_hanging_pt pinned' =
       Returns pinned'.
Proof.
  split; [exact some_Pconv_in_range|].
  apply (pin_elemental_redundant_nodal_pressure_dofs_leaves_pressure_nodes_free
           some_Node_pt some_Pconv 4 2 some_hanging_pt ∅
           some_Pconv_in_range).
Defined.

(** X15.  [unpin_elemental_pressure_dofs] frees the pressure value of every
    node of the element and changes no other value.  Pinning the
    redundant pressure values after it gives what pinning them without
    it gives: the values [pin_elemental_redundant_nodal_pressure_dofs]
    leaves do not depend on which pressure values of the element were
    pinned before. *)
Theorem unpin_elemental_pressure_dofs_frees_every_node
    (Node_pt : list ptr) (Pconv : list nat) (npres_pnst p_index : nat)
    (hanging_pt : ptr -> Z -> option HangInfo) (pinned : pinned_values)
    (HP : Pconv_in_range Node_pt Pconv npres_pnst) :
  exists unpinned,
    unpin_elemental_pressure_dofs Node_pt p_index pinned = Returns unpinned
    /\ (forall d, d ∈ Node_pt -> is_pinned d p_index unpinned = false)
    /\ (forall d i, ¬ (i = p_index /\ d ∈ Node_pt) ->
          is_pinned d i unpinned = is_pinned d i pinned)
    /\ pin_elemental_redundant_nodal_pressure_dofs
         Node_pt Pconv npres_pnst p_index hanging_pt unpinned =
       pin_elemental_redundant_nodal_pressure_dofs
         Node_pt Pconv npres_pnst p_index hanging_pt pinned.
Proof.
  eexists. split; [apply unpin_result|].
  set (A := list_to_set (map (fun d => (d, p_index)) Node_pt)
            : pinned_values).
  assert (HA : forall d i, (d, i) ∈ A <-> i = p_index /\ d ∈ Node_pt).
  { intros d i. subst A. apply elem_of_pairs. }
  split; [|split].
  - intros d Hd. unfold is_pinned. apply bool_decide_eq_false_2.
    rewrite elem_of_difference, HA. tauto.
  - intros d i Hdi. unfold is_pinned. apply bool_decide_ext.
    rewrite elem_of_difference, HA. tauto.
  - rewrite !(pin_redundant_result _ _ _ _ _ HP). f_equal. fold A.
    apply set_eq. intros [d i].
    rewrite !elem_of_difference, !elem_of_union, !elem_of_difference.
    destruct (decide ((d, i) ∈ A)); tauto.
Qed.

Lemma unpin_elemental_pressure_dofs_frees_every_node_witness :
  Pconv_in_range some_Node_pt some_Pconv 4
  /\ exists unpinned,
    unpin_elemental_pressure_dofs some_Node_pt 2 {[(3%N, 2%nat)]} =
      Returns unpinned
    /\ (forall d, d ∈ some_Node_pt -> is_pinned d 2 unpinned = false)
    /\ (forall d i, ¬ (i = 2%nat /\ d ∈ some_Node_pt) ->
          is_pinned d i unpinned = is_pinned d i {[(3%N, 2%nat)]})
    /\ pin_elemental_redundant_nodal_pressure_dofs
         some_Node_pt some_Pconv 4 2 some_hanging_pt unpinned =
       pin_elemental_redundant_nodal_pressure_dofs
         some_Node_pt some_Pconv 4 2 some_hanging_pt {[(3%N, 2%nat)]}.
Proof.
  split; [exact some_Pconv_in_range|].
  apply (unpin_elemental_pressure_dofs_frees_every_node
           some_Node_pt some_Pconv 4 2 some_hanging_pt {[(3%N, 2%nat)]}
           some_Pconv_in_range).
Defined.

End PolarTaylorHoodFacts.

Module PolarInterpolationFacts.
Import PolarCR NodeNS RefineablePolarNavierStokesEquations LoopFacts.

(** The loop over the nodes for one velocity component. *)
Lemma add_nodal_velocity_loop (term : nat -> double) (i n_node : nat)
    (values : list double) (v0 : double) :
  values !! i = Some v0 ->
  for_range 0 n_node
    (fun l values =>
       v ← Vector_get values i ;
       Vector_set values i (d_add v (term l)))
    values =
  Returns (<[i := foldl (fun acc l => d_add acc (term l)) v0 (seq 0 n_node)]>
             values).
Proof.
  intros Hi. unfold for_range. rewrite Nat.sub_0_r.
  assert (Hgen : forall n lo vs v1,
             vs !! i = Some v1 ->
             for_loop n lo
               (fun l values =>
                  v ← Vector_get values i ;
                  Vector_set values i (d_add v (term l))) vs =
             Returns (<[i := foldl (fun acc l => d_add acc (term l)) v1
                                   (seq lo n)]> vs)).
  { clear. induction n as [|n IH]; intros lo vs v1 Hv.
    - cbn [for_loop seq foldl]. rewrite list_insert_id by exact Hv.
      reflexivity.
    - cbn [for_loop seq foldl].
      rewrite (Vector_get_lookup _ _ _ Hv). cbn [mbind outcome_bind].
      pose proof (lookup_lt_Some _ _ _ Hv) as Hlt.
      rewrite Vector_set_lt by exact Hlt. cbn [mbind outcome_bind].
      rewrite Nat.add_1_r.
      rewrite (IH (S lo) _ (d_add v1 (term lo)))
        by (apply list_lookup_insert_eq; exact Hlt).
      rewrite list_insert_insert_eq. reflexivity. }
  apply Hgen, Hi.
Qed.

Lemma add_nodal_velocities_zero
    (u_index_pnst : nat -> nat) (nodal_value : nat -> nat -> nat -> double)
    (t : nat) (psif : nat -> double) (n_node : nat) (p : double) :
  add_nodal_velocities u_index_pnst nodal_value t psif n_node
                       [lit_0; lit_0; p] =
  Returns
    [foldl (fun acc l =>
              d_add acc (d_mul (nodal_value t l (u_index_pnst 0%nat))
                               (psif l)))
           lit_0 (seq 0 n_node);
     foldl (fun acc l =>
              d_add acc (d_mul (nodal_value t l (u_index_pnst 1%nat))
                               (psif l)))
           lit_0 (seq 0 n_node);
     p].
Proof.
  unfold add_nodal_velocities, for_range at 1. cbn [Nat.sub for_loop].
  rewrite (add_nodal_velocity_loop
             (fun l => d_mul (nodal_value t l (u_index_pnst 0%nat)) (psif l))
             0 n_node _ lit_0) by reflexivity.
  cbn [mbind outcome_bind insert list_insert Nat.add].
  rewrite (add_nodal_velocity_loop
             (fun l => d_mul (nodal_value t l (u_index_pnst 1%nat)) (psif l))
             1 n_node _ lit_0) by reflexivity.
  reflexivity.
Qed.

Lemma resize_3 (values : list double) :
  exists a b c, resize 3 lit_0 values = [a; b; c].
Proof.
  destruct values as [|a [|b [|c rest]]];
    [exists lit_0, lit_0, lit_0 | exists a, lit_0, lit_0
     | exists a, b, lit_0 | exists a, b, c]; try reflexivity.
  rewrite resize_le by (cbn; lia). cbn [take]. rewrite take_0. reflexivity.
Qed.

Lemma resize_2 (values : list double) :
  exists a b, resize 2 lit_0 values = [a; b].
Proof.
  destruct values as [|a [|b rest]];
    [exists lit_0, lit_0 | exists a, lit_0 | exists a, b]; try reflexivity.
  rewrite resize_le by (cbn; lia). cbn [take]. rewrite take_0. reflexivity.
Qed.

Lemma ltb_bool_decide (n m : nat) : (n <? m)%nat = bool_decide (n < m)%nat.
Proof.
  case_bool_decide as H.
  - apply Nat.ltb_lt, H.
  - apply Nat.ltb_ge. lia.
Qed.

(** X16.  [get_interpolated_values] of the Taylor-Hood element sets the
    size of the vector itself: whatever the vector held, it comes back
    with three entries, the two velocities and the pressure.  For a
    previous time [t] each velocity is the sum over the nodes of nodal
    value times shape function, added up from [0.0] in the order of the
    nodes, and the pressure is the present one, the same for every [t].
    A build with PARANOID refuses a [t] beyond the number of stored
    previous values with the error that names [t]; the number itself is
    accepted. *)
Theorem TaylorHood_get_interpolated_values_sets_its_own_size
    (PARANOID : bool) (F L : throw_site -> string)
    (Node_pt : list ptr) (u_index_pnst : nat -> nat)
    (shape : list double -> nat -> double)
    (nodal_value : nat -> nat -> nat -> double)
    (interpolated_u_pnst : list double -> nat -> double)
    (interpolated_p_pnst : list double -> double)
    (N_prev_time t : nat) (s values : list double) :
  RefineablePolarTaylorHoodElement.get_interpolated_values
    interpolated_u_pnst interpolated_p_pnst s values =
    Returns [interpolated_u_pnst s 0%nat; interpolated_u_pnst s 1%nat;
             interpolated_p_pnst s]
  /\ RefineablePolarTaylorHoodElement.get_interpolated_values_at
       PARANOID F L Node_pt u_index_pnst shape nodal_value
       interpolated_p_pnst N_prev_time t s values =
    (if PARANOID && bool_decide (N_prev_time < t)%nat
     then Throws (too_many_timesteps F L t
                    In_TaylorHood_get_interpolated_values)
     else Returns
            [velocity_sum Node_pt u_index_pnst nodal_value (shape s) t 0;
             velocity_sum Node_pt u_index_pnst nodal_value (shape s) t 1;
             interpolated_p_pnst s]).
Proof.
  split.
  - unfold RefineablePolarTaylorHoodElement.get_interpolated_values.
    destruct (resize_3 values) as (a & b & c & ->). reflexivity.
  - unfold RefineablePolarTaylorHoodElement.get_interpolated_values_at.
    rewrite ltb_bool_decide.
    destruct (PARANOID && bool_decide (N_prev_time < t)%nat); [reflexivity|].
    change (2 + 1)%nat with 3%nat.
    destruct (resize_3 values) as (a & b & c & ->).
    unfold for_range at 1. cbn [Nat.sub for_loop Nat.add].
    do 3 (rewrite Vector_set_lt by (cbn [length]; lia);
          cbn [mbind outcome_bind insert list_insert]).
    cbn [mret outcome_ret mbind outcome_bind].
    rewrite add_nodal_velocities_zero.
    reflexivity.
Qed.

Lemma add_nodal_velocities_zero_2
    (u_index_pnst : nat -> nat) (nodal_value : nat -> nat -> nat -> double)
    (t : nat) (psif : nat -> double) (n_node : nat) :
  add_nodal_velocities u_index_pnst nodal_value t psif n_node
                       [lit_0; lit_0] =
  Returns
    [foldl (fun acc l =>
              d_add acc (d_mul (nodal_value t l (u_index_pnst 0%nat))
                               (psif l)))
           lit_0 (seq 0 n_node);
     foldl (fun acc l =>
              d_add acc (d_mul (nodal_value t l (u_index_pnst 1%nat))
                               (psif l)))
           lit_0 (seq 0 n_node)].
Proof.
  unfold add_nodal_velocities, for_range at 1. cbn [Nat.sub for_loop].
  rewrite (add_nodal_velocity_loop
             (fun l => d_mul (nodal_value t l (u_index_pnst 0%nat)) (psif l))
             0 n_node _ lit_0) by reflexivity.
  cbn [mbind outcome_bind insert list_insert Nat.add].
  rewrite (add_nodal_velocity_loop
             (fun l => d_mul (nodal_value t l (u_index_pnst 1%nat)) (psif l))
             1 n_node _ lit_0) by reflexivity.
  reflexivity.
Qed.

(** X17.  [get_interpolated_values] of the Crouzeix-Raviart element gives
    the two velocities and no pressure: whatever the vector held, it
    comes back with two entries.  For a previous time [t] each is the
    sum over the nodes of nodal value times shape function, added up
    from [0.0] in the order of the nodes; with no nodes both are [0.0].
    A build with PARANOID refuses a [t] beyond the number of stored
    previous values. *)
Theorem CrouzeixRaviart_get_interpolated_values_gives_two_velocities
    (PARANOID : bool) (F L : throw_site -> string)
    (Node_pt : list ptr) (u_index_pnst : nat -> nat)
    (shape : list double -> nat -> double)
    (nodal_value : nat -> nat -> nat -> double)
    (interpolated_u_pnst : list double -> nat -> double)
    (N_prev_time t : nat) (s values : list double) :
  RefineablePolarCrouzeixRaviartElement.get_interpolated_values
    interpolated_u_pnst s values =
    Returns [interpolated_u_pnst s 0%nat; interpolated_u_pnst s 1%nat]
  /\ RefineablePolarCrouzeixRaviartElement.get_interpolated_values_at
       PARANOID F L Node_pt u_index_pnst shape nodal_value
       N_prev_time t s values =
    (if PARANOID && bool_decide (N_prev_time < t)%nat
     then Throws (too_many_timesteps F L t
                    In_CrouzeixRaviart_get_interpolated_values)
     else Returns
            [velocity_sum Node_pt u_index_pnst nodal_value (shape s) t 0;
             velocity_sum Node_pt u_index_pnst nodal_value (shape s) t 1])
  /\ RefineablePolarCrouzeixRaviartElement.get_interpolated_values_at
       false F L [] u_index_pnst shape nodal_value
       N_prev_time t s values = Returns [lit_0; lit_0].
Proof.
  assert (Hat : forall P nodes,
    RefineablePolarCrouzeixRaviartElement.get_interpolated_values_at
       P F L nodes u_index_pnst shape nodal_value
       N_prev_time t s values =
    (if P && bool_decide (N_prev_time < t)%nat
     then Throws (too_many_timesteps F L t
                    In_CrouzeixRaviart_get_interpolated_values)
     else Returns
            [velocity_sum nodes u_index_pnst nodal_value (shape s) t 0;
             velocity_sum nodes u_index_pnst nodal_value (shape s) t 1])).
  { intros P nodes.
    unfold RefineablePolarCrouzeixRaviartElement.get_interpolated_values_at.
    rewrite ltb_bool_decide.
    destruct (P && bool_decide (N_prev_time < t)%nat); [reflexivity|].
    destruct (resize_2 values) as (a & b & ->).
    unfold for_range at 1. cbn [Nat.sub for_loop Nat.add].
    do 2 (rewrite Vector_set_lt by (cbn [length]; lia);
          cbn [mbind outcome_bind insert list_insert]).
    cbn [mret outcome_ret mbind outcome_bind].
    apply add_nodal_velocities_zero_2. }
  split; [|split].
  - unfold RefineablePolarCrouzeixRaviartElement.get_interpolated_values.
    destruct (resize_2 values) as (a & b & ->). reflexivity.
  - apply Hat.
  - rewrite Hat. reflexivity.
Qed.

End PolarInterpolationFacts.

Module PolarLoadDataFacts.
Import PolarCR NodeNS RefineablePolarNavierStokesEquations LoopFacts.

Lemma list_loop_pure {A S : Type} (l : list A) (g : A -> S -> S)
    (body : nat -> S -> outcome S) (st : S) :
  (forall k x st', l !! k = Some x -> body k st' = Returns (g x st')) ->
  for_range 0 (length l) body st =
  Returns (foldl (fun st x => g x st) st l).
Proof.
  intros Hbody.
  destruct l as [|d l'] eqn:Hl; [reflexivity|]. rewrite <- Hl in *.
  rewrite (for_range_pure (fun k st' => g (default d (l !! k)) st')).
  - rewrite Nat.sub_0_r.
    rewrite (foldl_seq_lookup (fun st x => g x st) d l []). reflexivity.
  - intros k st' [_ Hk].
    destruct (lookup_lt_is_Some_2 l k Hk) as [x Hx].
    rewrite (Hbody k x st' Hx), Hx. reflexivity.
Qed.

Lemma foldl_union_list {A : Type} (f : A -> list (ptr * nat)) (l : list A)
    (acc : load_data) :
  foldl (fun acc x => acc ∪ list_to_set (f x)) acc l =
  acc ∪ list_to_set (l ≫= f).
Proof.
  revert acc. induction l as [|x l IH]; intros acc; cbn [foldl].
  - cbn. rewrite (right_id_L ∅ (∪)). reflexivity.
  - rewrite IH. cbn [mbind list_bind]. rewrite list_to_set_app_L.
    rewrite (assoc_L (∪)). reflexivity.
Qed.

Lemma two_velocities (u0 u1 : nat) (d : ptr) (body_d : outcome ptr)
    (acc : load_data) :
  body_d = Returns d ->
  for_range 0 2
    (fun i paired_load_data =>
       u ← Vector_get [u0; u1] i ;
       nod_pt ← body_d ;
       mret (paired_load_data ∪ {[(nod_pt, u)]}))
    acc =
  Returns (acc ∪ list_to_set [(d, u0); (d, u1)]).
Proof.
  intros ->. unfold for_range. cbn. f_equal.
  rewrite (right_id_L ∅ (∪)), (assoc_L (∪)). reflexivity.
Qed.

Lemma two_velocities_master (u0 u1 : nat) (d : ptr) (acc : load_data) :
  for_range 0 2
    (fun i paired_load_data =>
       u ← Vector_get [u0; u1] i ;
       mret (paired_load_data ∪ {[(d, u)]}))
    acc =
  Returns (acc ∪ list_to_set [(d, u0); (d, u1)]).
Proof.
  unfold for_range. cbn. f_equal.
  rewrite (right_id_L ∅ (∪)), (assoc_L (∪)). reflexivity.
Qed.

Lemma insert_velocity_load_data_result
    (Node_pt : list ptr) (u_index_pnst : nat -> nat)
    (hanging_pt : ptr -> Z -> option HangInfo) (paired : load_data) :
  insert_velocity_load_data Node_pt u_index_pnst hanging_pt paired =
  Returns (paired ∪
           list_to_set (velocity_load_data Node_pt u_index_pnst hanging_pt)).
Proof.
  unfold insert_velocity_load_data, velocity_load_data, nnode.
  rewrite (list_loop_pure Node_pt
             (fun nod_pt acc =>
                acc ∪ list_to_set
                        (masters_or_self hanging_pt (-1) nod_pt ≫=
                         fun m => [(m, u_index_pnst 0%nat);
                                   (m, u_index_pnst 1%nat)]))).
  - rewrite (foldl_union_list
               (fun nod_pt =>
                  masters_or_self hanging_pt (-1) nod_pt ≫=
                  fun m => [(m, u_index_pnst 0%nat);
                            (m, u_index_pnst 1%nat)])).
    reflexivity.
  - intros k nod st' Hk. unfold node_pt.
    rewrite (Vector_get_lookup _ _ _ Hk). cbn [mbind outcome_bind].
    unfold is_hanging, masters_or_self.
    destruct (hanging_pt nod (-1)) as [h|] eqn:Hh.
    + rewrite bool_decide_eq_true_2 by (eexists; reflexivity).
      cbn [mbind outcome_bind].
      rewrite (list_loop_pure h
                 (fun m acc => acc ∪ list_to_set [(m, u_index_pnst 0%nat);
                                                  (m, u_index_pnst 1%nat)])).
      * rewrite (foldl_union_list
                   (fun m => [(m, u_index_pnst 0%nat);
                              (m, u_index_pnst 1%nat)])).
        reflexivity.
      * intros j m st'' Hj.
        rewrite (Vector_get_lookup _ _ _ Hj). cbn [mbind outcome_bind].
        apply two_velocities_master.
    + rewrite bool_decide_eq_false_2 by (intros [x Hx]; discriminate).
      rewrite (two_velocities _ _ nod (Returns nod)) by reflexivity.
      cbn [mbind list_bind app]. reflexivity.
Qed.

Lemma elem_of_velocity_load_data
    (Node_pt : list ptr) (u_index_pnst : nat -> nat)
    (hanging_pt : ptr -> Z -> option HangInfo) (d : ptr) (i : nat) :
  (d, i) ∈ velocity_load_data Node_pt u_index_pnst hanging_pt <->
  (exists nod_pt, nod_pt ∈ Node_pt
                  /\ d ∈ masters_or_self hanging_pt (-1) nod_pt)
  /\ (i = u_index_pnst 0%nat \/ i = u_index_pnst 1%nat).
Proof.
  unfold velocity_load_data. rewrite list_elem_of_bind. split.
  - intros (nod & Hin & Hnod).
    apply list_elem_of_bind in Hin as (m & Hin & Hm).
    rewrite !elem_of_cons, elem_of_nil in Hin.
    destruct Hin as [Heq|[Heq|[]]]; injection Heq as -> ->;
      (split; [exists nod; split; assumption | tauto]).
  - intros [(nod & Hnod & Hm) Hi]. exists nod. split; [|exact Hnod].
    apply list_elem_of_bind. exists d. split; [|exact Hm].
    rewrite !elem_of_cons. destruct Hi as [-> | ->]; tauto.
Qed.

Lemma pressure_values_loop (P : ptr) (npres : nat) (acc : load_data) :
  for_range 0 npres
    (fun l paired_load_data => mret (paired_load_data ∪ {[(P, l)]})) acc =
  Returns (acc ∪ list_to_set
                   (RefineablePolarCrouzeixRaviartElement.pressure_values
                      P npres)).
Proof.
  rewrite (for_range_pure (fun l acc => acc ∪ {[(P, l)]}))
    by reflexivity.
  f_equal. rewrite Nat.sub_0_r.
  unfold RefineablePolarCrouzeixRaviartElement.pressure_values.
  generalize (seq 0 npres) as ls. intros ls. revert acc.
  induction ls as [|l ls IH]; intros acc; cbn [foldl map list_to_set].
  - rewrite (right_id_L ∅ (∪)). reflexivity.
  - rewrite IH, (assoc_L (∪)). reflexivity.
Qed.

(** X18.  [insert_load_data] of the Crouzeix-Raviart element adds to the
    set, and takes nothing out of it.  What it adds is: the two velocity
    values of every node of the element that does not hang; for a node
    that hangs, the two velocity values of each of its masters in place
    of its own; and the values [0] to [npres_pnst() - 1] of the pressure
    data.  A second call adds nothing more. *)
Theorem CrouzeixRaviart_insert_load_data_takes_the_masters
    (Node_pt : list ptr) (P : ptr) (npres_pnst : nat)
    (u_index_pnst : nat -> nat) (hanging_pt : ptr -> Z -> option HangInfo)
    (paired_load_data : load_data) :
  exists result,
    RefineablePolarCrouzeixRaviartElement.insert_load_data
      Node_pt P npres_pnst u_index_pnst hanging_pt paired_load_data =
      Returns result
    /\ (forall d i,
          (d, i) ∈ result <->
          (d, i) ∈ paired_load_data
          \/ ((exists nod_pt,
                  nod_pt ∈ Node_pt
                  /\ d ∈ (match hanging_pt nod_pt (-1) with
                          | Some masters => masters
                          | None => [nod_pt]
                          end))
              /\ (i = u_index_pnst 0%nat \/ i = u_index_pnst 1%nat))
          \/ (d = P /\ (i < npres_pnst)%nat))
    /\ RefineablePolarCrouzeixRaviartElement.insert_load_data
         Node_pt P npres_pnst u_index_pnst hanging_pt result =
       Returns result.
Proof.
  assert (Hres : forall paired,
    RefineablePolarCrouzeixRaviartElement.insert_load_data
      Node_pt P npres_pnst u_index_pnst hanging_pt paired =
    Returns (paired ∪
             list_to_set (velocity_load_data Node_pt u_index_pnst
                                             hanging_pt) ∪
             list_to_set
               (RefineablePolarCrouzeixRaviartElement.pressure_values
                  P npres_pnst))).
  { intros paired.
    unfold RefineablePolarCrouzeixRaviartElement.insert_load_data.
    rewrite insert_velocity_load_data_result. cbn [mbind outcome_bind].
    apply pressure_values_loop. }
  eexists. split; [apply Hres|]. split.
  - intros d i.
    rewrite !elem_of_union, !elem_of_list_to_set,
      elem_of_velocity_load_data.
    unfold RefineablePolarCrouzeixRaviartElement.pressure_values.
    rewrite list_elem_of_fmap. unfold masters_or_self.
    assert (Hp : (exists y, (d, i) = (P, y) /\ y ∈ seq 0 npres_pnst) <->
                 d = P /\ (i < npres_pnst)%nat).
    { split.
      - intros (y & Heq & Hy). injection Heq as -> ->.
        apply elem_of_seq in Hy. split; [reflexivity | lia].
      - intros [-> Hi]. exists i. split; [reflexivity|].
        apply elem_of_seq. lia. }
    rewrite Hp. tauto.
  - rewrite Hres. f_equal. apply set_eq. intros x.
    rewrite !elem_of_union. tauto.
Qed.

Lemma pressure_load_loop
    (Node_pt : list ptr) (Pconv : list nat) (npres_pnst p_index : nat)
    (hanging_pt : ptr -> Z -> option HangInfo)
    (HP : RefineablePolarTaylorHoodElement.Pconv_in_range
            Node_pt Pconv npres_pnst)
    (acc : load_data) :
  for_range 0 npres_pnst
    (fun l paired_load_data =>
       pres_node_pt ←
         RefineablePolarTaylorHoodElement.pressure_node_pt Node_pt Pconv l ;
       if is_hanging_value hanging_pt pres_node_pt p_index then
         hang_info_pt ← (match hanging_pt pres_node_pt
                                 (Z.of_nat p_index) with
                         | Some h => Returns h
                         | None => Undefined
                         end) ;
         let nmaster := length hang_info_pt in
         for_range 0 nmaster
           (fun m paired_load_data =>
              master_node_pt ← Vector_get hang_info_pt m ;
              mret (paired_load_data ∪ {[(master_node_pt, p_index)]}))
           paired_load_data
       else mret (paired_load_data ∪ {[(pres_node_pt, p_index)]}))
    acc =
  Returns (acc ∪
           list_to_set
             (RefineablePolarTaylorHoodElement.pressure_load_data
                Node_pt Pconv npres_pnst p_index hanging_pt)).
Proof.
  set (per_node := fun pn : ptr =>
         masters_or_self hanging_pt (Z.of_nat p_index) pn ≫=
         fun m => [(m, p_index)]).
  rewrite (for_range_pure
             (fun l acc =>
                match k ← Pconv !! l ; Node_pt !! k with
                | Some pn => acc ∪ list_to_set (per_node pn)
                | None => acc
                end)).
  - f_equal. rewrite Nat.sub_0_r.
    unfold RefineablePolarTaylorHoodElement.pressure_load_data,
      RefineablePolarTaylorHoodElement.pressure_nodes.
    fold per_node.
    clear HP. generalize (seq 0 npres_pnst) as ls. intros ls. revert acc.
    induction ls as [|l ls IH]; intros acc; cbn [foldl omap list_omap].
    + cbn. rewrite (right_id_L ∅ (∪)). reflexivity.
    + rewrite IH. clear IH.
      destruct (Pconv !! l ≫= fun k => Node_pt !! k) as [d|] eqn:Hd;
        [|reflexivity].
      cbn [mbind list_bind]. rewrite list_to_set_app_L, (assoc_L (∪)).
      reflexivity.
  - intros l st' [_ Hl]. destruct (HP l Hl) as (k & Hk & Hlt).
    destruct (lookup_lt_is_Some_2 Node_pt k Hlt) as [x Hx].
    unfold RefineablePolarTaylorHoodElement.pressure_node_pt, node_pt.
    rewrite (Vector_get_lookup _ _ _ Hk). cbn [mbind outcome_bind].
    rewrite (Vector_get_lookup _ _ _ Hx). cbn [mbind outcome_bind].
    rewrite Hk. cbn [mbind option_bind]. rewrite Hx.
    unfold is_hanging_value, per_node, masters_or_self.
    destruct (hanging_pt x (Z.of_nat p_index)) as [h|] eqn:Hh.
    + rewrite bool_decide_eq_true_2 by (eexists; reflexivity).
      cbn [mbind outcome_bind].
      rewrite (list_loop_pure h
                 (fun m acc => acc ∪ list_to_set [(m, p_index)])).
      * rewrite (foldl_union_list (fun m => [(m, p_index)])). reflexivity.
      * intros j m st'' Hj.
        rewrite (Vector_get_lookup _ _ _ Hj). cbn [mbind outcome_bind].
        cbn [list_to_set]. rewrite (right_id_L ∅ (∪)). reflexivity.
    + rewrite bool_decide_eq_false_2 by (intros [y Hy]; discriminate).
      cbn [mbind list_bind app list_to_set].
      rewrite (right_id_L ∅ (∪)). reflexivity.
Qed.

Lemma elem_of_pressure_load_data
    (Node_pt : list ptr) (Pconv : list nat) (npres_pnst p_index : nat)
    (hanging_pt : ptr -> Z -> option HangInfo) (d : ptr) (i : nat) :
  (d, i) ∈ RefineablePolarTaylorHoodElement.pressure_load_data
             Node_pt Pconv npres_pnst p_index hanging_pt <->
  (exists pres_node_pt,
      pres_node_pt ∈ RefineablePolarTaylorHoodElement.pressure_nodes
                       Node_pt Pconv npres_pnst
      /\ d ∈ masters_or_self hanging_pt (Z.of_nat p_index) pres_node_pt)
  /\ i = p_index.
Proof.
  unfold RefineablePolarTaylorHoodElement.pressure_load_data.
  rewrite list_elem_of_bind. split.
  - intros (pn & Hin & Hpn).
    apply list_elem_of_bind in Hin as (m & Hin & Hm).
    apply list_elem_of_singleton in Hin. injection Hin as -> ->.
    split; [exists pn; split; assumption | reflexivity].
  - intros [(pn & Hpn & Hm) ->]. exists pn. split; [|exact Hpn].
    apply list_elem_of_bind. exists d. split; [|exact Hm].
    apply list_elem_of_singleton. reflexivity.
Qed.

(** X19.  [insert_load_data] of the Taylor-Hood element adds to the set,
    and takes nothing out of it.  [Pconv] naming nodes of the element,
    what it adds is: the two velocity values of every node that does not
    hang, and of each master of a node that hangs in place of the node's
    own; the pressure value of every pressure node whose pressure does
    not hang, and of each master of that pressure where it hangs.  A
    second call adds nothing more. *)
Theorem TaylorHood_insert_load_data_takes_the_masters
    (Node_pt : list ptr) (Pconv : list nat) (npres_pnst p_index : nat)
    (u_index_pnst : nat -> nat) (hanging_pt : ptr -> Z -> option HangInfo)
    (paired_load_data : load_data)
    (HP : RefineablePolarTaylorHoodElement.Pconv_in_range
            Node_pt Pconv npres_pnst) :
  exists result,
    RefineablePolarTaylorHoodElement.insert_load_data
      Node_pt Pconv npres_pnst p_index u_index_pnst hanging_pt
      paired_load_data = Returns result
    /\ (forall d i,
          (d, i) ∈ result <->
          (d, i) ∈ paired_load_data
          \/ ((exists nod_pt,
                  nod_pt ∈ Node_pt
                  /\ d ∈ (match hanging_pt nod_pt (-1) with
                          | Some masters => masters
                          | None => [nod_pt]
                          end))
              /\ (i = u_index_pnst 0%nat \/ i = u_index_pnst 1%nat))
          \/ ((exists pres_node_pt,
                  pres_node_pt ∈
                    RefineablePolarTaylorHoodElement.pressure_nodes
                      Node_pt Pconv npres_pnst
                  /\ d ∈ (match hanging_pt pres_node_pt
                                  (Z.of_nat p_index) with
                          | Some masters => masters
                          | None => [pres_node_pt]
                          end))
              /\ i = p_index))
    /\ RefineablePolarTaylorHoodElement.insert_load_data
         Node_pt Pconv npres_pnst p_index u_index_pnst hanging_pt result =
       Returns result.
Proof.
  assert (Hres : forall paired,
    RefineablePolarTaylorHoodElement.insert_load_data
      Node_pt Pconv npres_pnst p_index u_index_pnst hanging_pt paired =
    Returns (paired ∪
             list_to_set (velocity_load_data Node_pt u_index_pnst
                                             hanging_pt) ∪
             list_to_set
               (RefineablePolarTaylorHoodElement.pressure_load_data
                  Node_pt Pconv npres_pnst p_index hanging_pt))).
  { intros paired.
    unfold RefineablePolarTaylorHoodElement.insert_load_data.
    rewrite insert_velocity_load_data_result. cbn [mbind outcome_bind].
    apply (pressure_load_loop _ _ _ _ _ HP). }
  eexists. split; [apply Hres|]. split.
  - intros d i.
    rewrite !elem_of_union, !elem_of_list_to_set,
      elem_of_velocity_load_data, elem_of_pressure_load_data.
    unfold masters_or_self. tauto.
  - rewrite Hres. f_equal. apply set_eq. intros x.
    rewrite !elem_of_union. tauto.
Qed.

Lemma TaylorHood_insert_load_data_takes_the_masters_witness :
  RefineablePolarTaylorHoodElement.Pconv_in_range
    RefineablePolarTaylorHoodElement.some_Node_pt
    RefineablePolarTaylorHoodElement.some_Pconv 4
  /\ exists result,
    RefineablePolarTaylorHoodElement.insert_load_data
      RefineablePolarTaylorHoodElement.some_Node_pt
      RefineablePolarTaylorHoodElement.some_Pconv 4 2 id
      RefineablePolarTaylorHoodElement.some_hanging_pt ∅ = Returns result
    /\ (forall d i,
          (d, i) ∈ result <->
          (d, i) ∈ (∅ : load_data)
          \/ ((exists nod_pt,
                  nod_pt ∈ RefineablePolarTaylorHoodElement.some_Node_pt
                  /\ d ∈ (match RefineablePolarTaylorHoodElement.some_hanging_pt
                                  nod_pt (-1) with
                          | Some masters => masters
                          | None => [nod_pt]
                          end))
              /\ (i = id 0%nat \/ i = id 1%nat))
          \/ ((exists pres_node_pt,
                  pres_node_pt ∈
                    RefineablePolarTaylorHoodElement.pressure_nodes
                      RefineablePolarTaylorHoodElement.some_Node_pt
                      RefineablePolarTaylorHoodElement.some_Pconv 4
                  /\ d ∈ (match RefineablePolarTaylorHoodElement.some_hanging_pt
                                  pres_node_pt (Z.of_nat 2) with
                          | Some masters => masters
                          | None => [pres_node_pt]
                          end))
              /\ i = 2%nat))
    /\ RefineablePolarTaylorHoodElement.insert_load_data
         RefineablePolarTaylorHoodElement.some_Node_pt
         RefineablePolarTaylorHoodElement.some_Pconv 4 2 id
         RefineablePolarTaylorHoodElement.some_hanging_pt result =
       Returns result.
Proof.
  split; [exact PolarTaylorHoodFacts.some_Pconv_in_range|].
  apply (TaylorHood_insert_load_data_takes_the_masters
           RefineablePolarTaylorHoodElement.some_Node_pt
           RefineablePolarTaylorHoodElement.some_Pconv 4 2 id
           RefineablePolarTaylorHoodElement.some_hanging_pt ∅
           PolarTaylorHoodFacts.some_Pconv_in_range).
Defined.

End PolarLoadDataFacts.

Module PolarPinningFacts.
Import PolarCR NodeNS RefineablePolarNavierStokesEquations PolarElements
  LoopFacts PolarTaylorHoodFacts.

Lemma for_loop_ext {S : Type} (body body' : nat -> S -> outcome S)
    (n : nat) :
  forall i st,
  (forall k st', (i <= k < i + n)%nat -> body k st' = body' k st') ->
  for_loop n i body st = for_loop n i body' st.
Proof.
  induction n as [|n IH]; intros i st Hext; [reflexivity|].
  cbn [for_loop]. rewrite Hext by lia.
  destruct (body' i st) as [st'| |]; cbn [mbind outcome_bind];
    try reflexivity.
  apply IH. intros k st'' Hk. apply Hext. lia.
Qed.

Lemma for_loop_list {A S : Type} (f : A -> S -> outcome S) (l : list A) :
  forall (pre : list A) (st : S),
  for_loop (length l) (length pre)
           (fun k st => x ← Vector_get (pre ++ l) k ; f x st) st =
  run f l st.
Proof.
  induction l as [|x l IH]; intros pre st; [reflexivity|].
  cbn [length for_loop run]. cbv beta.
  rewrite (Vector_get_lookup (pre ++ x :: l) (length pre) x)
    by (apply list_lookup_middle; reflexivity).
  cbn [mbind outcome_bind].
  destruct (f x st) as [st'| |]; cbn [mbind outcome_bind]; try reflexivity.
  specialize (IH (pre ++ [x]) st'). rewrite <- app_assoc in IH.
  cbn [app] in IH. rewrite length_app in IH. cbn [length] in IH.
  exact IH.
Qed.

Lemma for_range_list {A S : Type} (f : A -> S -> outcome S) (l : list A)
    (st : S) :
  for_range 0 (length l) (fun k st => x ← Vector_get l k ; f x st) st =
  run f l st.
Proof.
  unfold for_range. rewrite Nat.sub_0_r. apply (for_loop_list f l []).
Qed.

Lemma run_app {A S : Type} (f : A -> S -> outcome S) (l1 l2 : list A)
    (st : S) :
  run f (l1 ++ l2) st = (st' ← run f l1 st ; run f l2 st').
Proof.
  revert st. induction l1 as [|x l1 IH]; intros st; [reflexivity|].
  cbn [app run]. destruct (f x st) as [st'| |]; cbn [mbind outcome_bind];
    try reflexivity.
  apply IH.
Qed.

Lemma run_map {A B S : Type} (g : A -> B) (f : B -> S -> outcome S)
    (l : list A) (st : S) :
  run f (map g l) st = run (fun x => f (g x)) l st.
Proof.
  revert st. induction l as [|x l IH]; intros st; [reflexivity|].
  cbn [map run]. destruct (f (g x) st); cbn [mbind outcome_bind];
    try reflexivity.
  apply IH.
Qed.

Lemma unpin_all_run (element_pt : list GeneralisedElement)
    (pinned : pinned_values) :
  unpin_all_pressure_dofs element_pt pinned =
  run (fun el pinned =>
         match el with
         | Some el => unpin_elemental_pressure_dofs el pinned
         | None => Undefined
         end) element_pt pinned.
Proof. apply for_range_list. Qed.

Lemma pin_redundant_run (element_pt : list GeneralisedElement)
    (pinned : pinned_values) :
  pin_redundant_nodal_pressures element_pt pinned =
  run (fun el pinned =>
         match el with
         | Some el => pin_elemental_redundant_nodal_pressure_dofs el pinned
         | None => Undefined
         end) element_pt pinned.
Proof. apply for_range_list. Qed.

Lemma CrouzeixRaviart_unpin_result (P : ptr) (npres : nat)
    (pinned : pinned_values) :
  RefineablePolarCrouzeixRaviartElement.unpin_elemental_pressure_dofs
    P npres pinned =
  Returns (pinned ∖ list_to_set (map (fun l => (P, l)) (seq 0 npres))).
Proof.
  unfold RefineablePolarCrouzeixRaviartElement.unpin_elemental_pressure_dofs.
  rewrite (for_range_pure (fun l acc => unpin P l acc)) by reflexivity.
  f_equal. rewrite Nat.sub_0_r.
  generalize (seq 0 npres) as ls. intros ls. revert pinned.
  induction ls as [|l ls IH]; intros pinned; cbn [foldl map list_to_set].
  - rewrite difference_empty_L. reflexivity.
  - rewrite IH. unfold unpin. apply difference_union_r.
Qed.

(** X20.  [unpin_all_pressure_dofs] frees every pressure value of every
    element of the vector: for a Taylor-Hood element the pressure value
    of each of its nodes, for a Crouzeix-Raviart element the values [0]
    to [npres_pnst() - 1] of its pressure data; all other values stay
    pinned or free as they were, and the order of the elements does not
    matter.  With an element in the vector that is not a
    [RefineablePolarNavierStokesEquations] the call is not defined. *)
Theorem unpin_all_pressure_dofs_frees_the_pressure_of_every_element
    (hanging_pt : ptr -> Z -> option HangInfo) (elements : list element)
    (pinned : pinned_values) :
  unpin_all_pressure_dofs (map (cast hanging_pt) elements) pinned =
    (if decide (Other ∈ elements) then Undefined
     else Returns (pinned ∖ list_to_set (elements ≫= pressure_dofs))).
Proof.
  rewrite unpin_all_run, run_map. revert pinned.
  induction elements as [|el els IH]; intros pinned.
  - cbn [run]. destruct (decide (Other ∈ [])) as [H|_].
    + apply elem_of_nil in H. contradiction.
    + cbn. rewrite difference_empty_L. reflexivity.
  - cbn [run].
    destruct el as [Node_pt Pconv npres p_index|P npres|];
      cbn [cast unpin_elemental_pressure_dofs
           RefineablePolarTaylorHoodElement.as_Equations
           RefineablePolarCrouzeixRaviartElement.as_Equations].
    + rewrite unpin_result. cbn [mbind outcome_bind]. rewrite IH.
      destruct (decide (Other ∈ els)) as [Hin|Hin].
      * rewrite decide_True by (apply list_elem_of_further, Hin).
        reflexivity.
      * rewrite decide_False
          by (intros [Heq|Hin']%elem_of_cons; [discriminate|contradiction]).
        cbn [mbind list_bind pressure_dofs].
        rewrite list_to_set_app_L, difference_union_r. reflexivity.
    + rewrite CrouzeixRaviart_unpin_result. cbn [mbind outcome_bind].
      rewrite IH.
      destruct (decide (Other ∈ els)) as [Hin|Hin].
      * rewrite decide_True by (apply list_elem_of_further, Hin).
        reflexivity.
      * rewrite decide_False
          by (intros [Heq|Hin']%elem_of_cons; [discriminate|contradiction]).
        cbn [mbind list_bind pressure_dofs].
        rewrite list_to_set_app_L, difference_union_r. reflexivity.
    + rewrite decide_True by apply list_elem_of_here. reflexivity.
Qed.

Lemma last_snoc_filter {A : Type} (P : A -> Prop)
    `{forall x, Decision (P x)} (l : list A) (x : A) :
  last (filter P (l ++ [x])) =
  if decide (P x) then Some x else last (filter P l).
Proof.
  rewrite filter_app, filter_cons, filter_nil.
  destruct (decide (P x)).
  - apply last_snoc.
  - rewrite app_nil_r. reflexivity.
Qed.

(** X21.  [pin_redundant_nodal_pressures] goes through the elements in the
    order of the vector, and for a value that several elements decide
    the last of them decides.  When it returns, a value is pinned or
    free as the last Taylor-Hood element that has it as the pressure
    value of one of its nodes leaves it: free if the node is a pressure
    node of that element and its pressure does not hang, pinned if not.
    A value that no element decides is as it was; Crouzeix-Raviart
    elements decide nothing. *)
Theorem pin_redundant_nodal_pressures_last_element_decides
    (hanging_pt : ptr -> Z -> option HangInfo) (elements : list element)
    (pinned : pinned_values)
    (Hwf : Forall well_formed elements) :
  exists pinned',
    pin_redundant_nodal_pressures (map (cast hanging_pt) elements) pinned =
      Returns pinned'
    /\ forall d i,
         is_pinned d i pinned' =
         match last (filter (fun el => (d, i) ∈ decided_dofs el) elements)
         with
         | Some el =>
             negb (bool_decide ((d, i) ∈ free_pressure_dofs hanging_pt el))
         | None => is_pinned d i pinned
         end.
Proof.
  rewrite pin_redundant_run, run_map.
  induction elements as [|el els IH] using rev_ind.
  - exists pinned. split; [reflexivity|]. intros d i. reflexivity.
  - apply Forall_app in Hwf as [Hels Hel].
    apply Forall_cons in Hel as [Hel _].
    destruct (IH Hels) as (mid & Hmid & Hpinned). clear IH.
    rewrite run_app, Hmid. cbn [mbind outcome_bind run].
    destruct el as [Node_pt Pconv npres p_index|P npres|];
      cbn [cast pin_elemental_redundant_nodal_pressure_dofs
           RefineablePolarTaylorHoodElement.as_Equations
           RefineablePolarCrouzeixRaviartElement.as_Equations
           well_formed] in *.
    + rewrite (pin_redundant_result _ _ _ _ _ Hel).
      cbn [mbind outcome_bind]. eexists. split; [reflexivity|].
      intros d i. rewrite last_snoc_filter.
      cbn [decided_dofs pressure_dofs free_pressure_dofs].
      unfold is_pinned at 1.
      destruct (decide ((d, i) ∈ map (fun nod_pt => (nod_pt, p_index))
                                     Node_pt)) as [Hin|Hin].
      * rewrite <- bool_decide_not. apply bool_decide_ext.
        cbn [free_pressure_dofs].
        rewrite elem_of_difference, elem_of_union, !elem_of_list_to_set.
        tauto.
      * rewrite <- Hpinned. unfold is_pinned. apply bool_decide_ext.
        rewrite elem_of_difference, elem_of_union, !elem_of_list_to_set.
        split; [tauto|]. intros Hm. split; [tauto|].
        intros Hfree. apply Hin.
        apply list_elem_of_fmap in Hfree as (x & -> & Hx).
        apply list_elem_of_filter in Hx as [_ Hx].
        apply list_elem_of_fmap. exists x. split; [reflexivity|].
        eapply pressure_nodes_are_nodes, Hx.
    + exists mid. split; [reflexivity|]. intros d i.
      rewrite last_snoc_filter. cbn [decided_dofs].
      rewrite decide_False by apply not_elem_of_nil. apply Hpinned.
    + contradiction.
Qed.

Lemma some_elements_well_formed :
  Forall well_formed [some_small_element; some_large_element].
Proof.
  assert (H : RefineablePolarTaylorHoodElement.Pconv_in_range
                [1; 2; 3; 4; 5; 6; 7; 8; 9]%N [0; 2; 6; 8]%nat 4
              /\ RefineablePolarTaylorHoodElement.Pconv_in_range
                [6; 11; 12; 13; 14; 15; 16; 17; 18]%N [0; 2; 6; 8]%nat 4).
  { split; intros l Hl;
      (destruct l as [|[|[|[|l]]]]; [| | | |lia];
       eexists; (split; [reflexivity | cbn; lia])). }
  destruct H as [Hlarge Hsmall].
  apply Forall_cons. split; [exact Hsmall|].
  apply Forall_cons. split; [exact Hlarge|]. apply Forall_nil. exact I.
Defined.

Lemma pin_redundant_nodal_pressures_last_element_decides_witness :
  Forall well_formed [some_small_element; some_large_element]
  /\ exists pinned',
    pin_redundant_nodal_pressures
      (map (cast nothing_hangs) [some_small_element; some_large_element])
      ∅ = Returns pinned'
    /\ forall d i,
         is_pinned d i pinned' =
         match last (filter (fun el => (d, i) ∈ decided_dofs el)
                            [some_small_element; some_large_element])
         with
         | Some el =>
             negb (bool_decide ((d, i) ∈ free_pressure_dofs nothing_hangs el))
         | None => is_pinned d i ∅
         end.
Proof.
  split; [exact some_elements_well_formed|].
  apply (pin_redundant_nodal_pressures_last_element_decides
           nothing_hangs [some_small_element; some_large_element] ∅
           some_elements_well_formed).
Defined.

End PolarPinningFacts.

Module TaylorHoodNodesFacts.
Import PolarCR NodeNS RefineablePolarNavierStokesEquations
  RefineablePolarTaylorHoodElement.

(** The index that coordinate [i] adds for a given index along the
    coordinate: the factor is [pow(2, i)]. *)
Lemma add_to_total_index (i : nat) (index_i total_index : Z) :
  (i < 2)%nat ->
  (power ← unsigned_of_double (double_of_int (2 ^ Z.of_nat i)) ;
   mret (Some ((total_index + unsigned_of_int index_i * power)
               mod 2 ^ 32))) =
  Returns (Some ((total_index + unsigned_of_int index_i * 2 ^ Z.of_nat i)
                 mod 2 ^ 32)).
Proof.
  intros Hi. destruct i as [|[|i]]; [reflexivity | reflexivity | lia].
Qed.

(** A coordinate at one of the two ends of the range. *)
Lemma coordinate_index_end (tol : double) (s : list double) (i : nat)
    (b : bool) (total_index : Z) :
  s !! i = Some (end_of_range b) ->
  (i < 2)%nat ->
  coordinate_index tol 2 s i total_index =
  Returns (Some ((total_index +
                  unsigned_of_int (if b then 1 else 0) * 2 ^ Z.of_nat i)
                 mod 2 ^ 32)).
Proof.
  intros Hs Hi. unfold coordinate_index, Vector_get. rewrite Hs.
  cbn [mbind outcome_bind].
  destruct b; cbn [end_of_range].
  - change (d_eqb d_1 lit_minus_1) with false.
    change (d_eqb d_1 d_1) with true.
    cbn [mbind outcome_bind mret outcome_ret].
    apply (add_to_total_index i (2 - 1) total_index Hi).
  - change (d_eqb lit_minus_1 lit_minus_1) with true.
    cbn [mbind outcome_bind mret outcome_ret].
    apply (add_to_total_index i 0 total_index Hi).
Qed.

(** A coordinate inside the range, or outside it. *)
Lemma coordinate_index_between (tol : double) (s : list double) (i : nat)
    (s_i : double) (index_i total_index : Z) :
  s !! i = Some s_i ->
  (i < 2)%nat ->
  d_eqb s_i lit_minus_1 = false ->
  d_eqb s_i d_1 = false ->
  int_of_double (d_mul (d_mul lit_0_5 (d_add d_1 s_i))
                       (double_of_int (2 - 1))) = Returns index_i ->
  coordinate_index tol 2 s i total_index =
  (let excess :=
     d_sub (d_mul (d_mul lit_0_5 (d_add d_1 s_i)) (double_of_int (2 - 1)))
           (double_of_int index_i) in
   if d_gtb excess tol && d_gtb (d_sub d_1 excess) tol
   then Returns None
   else Returns (Some ((total_index +
                        unsigned_of_int index_i * 2 ^ Z.of_nat i)
                       mod 2 ^ 32))).
Proof.
  intros Hs Hi Hm1 H1 Hint. unfold coordinate_index, Vector_get.
  rewrite Hs. cbn [mbind outcome_bind]. rewrite Hm1, H1, Hint.
  cbn [mbind outcome_bind]. cbv zeta.
  destruct (d_gtb _ tol && d_gtb _ tol);
    cbn [mbind outcome_bind mret outcome_ret]; [reflexivity|].
  apply (add_to_total_index i index_i total_index Hi).
Qed.

Lemma two_coordinates
    (Node_pt : list ptr) (Pconv : list nat) (tol : double)
    (gnalc : list double -> outcome ptr) (s : list double)
    (r0 : outcome (option Z)) (r1 : Z -> outcome (option Z)) :
  coordinate_index tol 2 s 0 0 = r0 ->
  (forall t, coordinate_index tol 2 s 1 t = r1 t) ->
  get_interpolating_node_at_local_coordinate Node_pt Pconv tol gnalc s 2 =
  match r0 with
  | Returns (Some t) =>
      match r1 t with
      | Returns (Some total_index) =>
          RefineablePolarTaylorHoodElement.pressure_node_pt
            Node_pt Pconv (Z.to_nat total_index)
      | Returns None => Returns null
      | Throws e => Throws e
      | Undefined => Undefined
      end
  | Returns None => Returns null
  | Throws e => Throws e
  | Undefined => Undefined
  end.
Proof.
  intros H0 H1. unfold get_interpolating_node_at_local_coordinate.
  destruct (decide (2 = 2)) as [_|Hne]; [|contradiction].
  unfold for_range. cbn [Nat.sub for_loop Nat.add]. rewrite H0.
  destruct r0 as [[t|]| |]; cbn [mbind outcome_bind mret outcome_ret];
    try reflexivity.
  rewrite (H1 t).
  destruct (r1 t) as [[t'|]| |]; reflexivity.
Qed.

(** X22.  [get_interpolating_node_at_local_coordinate] for the pressure
    ([value_id] 2).  At the four corners of the element, each coordinate
    being [-1.0] or [1.0], it returns the pressure node that [Pconv]
    gives for index 0 or 1 along the first coordinate plus twice the
    index along the second.  At the centre it returns the null pointer
    if the tolerance is below [0.5].  It does not check that the point
    lies in the element: with the tolerance [1.0e-14] the point
    [(3.0, -1.0)] gets the pressure node of the corner [(-1.0, 1.0)].
    With that tolerance the point whose first coordinate is
    [1 - 2 ^ -52], next to the corner [(1.0, -1.0)], gets the pressure
    node of the corner [(-1.0, -1.0)]: the index is the integer part.
    For another [value_id] the call is [get_node_at_local_coordinate(s)];
    with no coordinates it is not defined. *)
Theorem get_interpolating_node_at_local_coordinate_of_pressure
    (Node_pt : list ptr) (Pconv : list nat)
    (Node_location_tolerance : double)
    (get_node_at_local_coordinate : list double -> outcome ptr)
    (b0 b1 : bool) (s rest : list double) (value_id : Z) :
  get_interpolating_node_at_local_coordinate
    Node_pt Pconv Node_location_tolerance get_node_at_local_coordinate
    (end_of_range b0 :: end_of_range b1 :: rest) 2 =
    RefineablePolarTaylorHoodElement.pressure_node_pt Node_pt Pconv
      ((if b0 then 1 else 0) + 2 * (if b1 then 1 else 0))
  /\ get_interpolating_node_at_local_coordinate
       Node_pt Pconv Node_location_tolerance get_node_at_local_coordinate
       (lit_0 :: lit_0 :: rest) 2 =
     (if d_gtb lit_0_5 Node_location_tolerance then Returns null
      else RefineablePolarTaylorHoodElement.pressure_node_pt
             Node_pt Pconv 0)
  /\ get_interpolating_node_at_local_coordinate
       Node_pt Pconv d_1em14 get_node_at_local_coordinate
       (d_3 :: lit_minus_1 :: rest) 2 =
     get_interpolating_node_at_local_coordinate
       Node_pt Pconv d_1em14 get_node_at_local_coordinate
       (lit_minus_1 :: d_1 :: rest) 2
  /\ get_interpolating_node_at_local_coordinate
       Node_pt Pconv d_1em14 get_node_at_local_coordinate
       (just_below_1 :: lit_minus_1 :: rest) 2 =
     get_interpolating_node_at_local_coordinate
       Node_pt Pconv d_1em14 get_node_at_local_coordinate
       (lit_minus_1 :: lit_minus_1 :: rest) 2
  /\ get_interpolating_node_at_local_coordinate
       Node_pt Pconv Node_location_tolerance get_node_at_local_coordinate
       s value_id =
     (if decide (value_id = 2)
      then get_interpolating_node_at_local_coordinate
             Node_pt Pconv Node_location_tolerance
             get_node_at_local_coordinate s 2
      else get_node_at_local_coordinate s)
  /\ get_interpolating_node_at_local_coordinate
       Node_pt Pconv Node_location_tolerance get_node_at_local_coordinate
       [] 2 = Undefined.
Proof.
  set (tol := Node_location_tolerance).
  set (gnalc := get_node_at_local_coordinate).
  assert (Hends0 : forall tol0 c0 c1,
    get_interpolating_node_at_local_coordinate Node_pt Pconv tol0 gnalc
      (end_of_range c0 :: end_of_range c1 :: rest) 2 =
    RefineablePolarTaylorHoodElement.pressure_node_pt Node_pt Pconv
      ((if c0 then 1 else 0) + 2 * (if c1 then 1 else 0))).
  { intros tol0 c0 c1.
    set (s0 := end_of_range c0 :: end_of_range c1 :: rest).
    rewrite (two_coordinates Node_pt Pconv tol0 gnalc s0 _ _
               (coordinate_index_end tol0 s0 0 c0 0 eq_refl ltac:(lia))
               (fun t => coordinate_index_end tol0 s0 1 c1 t eq_refl
                             ltac:(lia))).
    destruct c0, c1; reflexivity. }
  pose proof (Hends0 tol) as Hends.
  pose proof (Hends0 d_1em14) as Hends'.
  split; [apply Hends|]. split; [|split; [|split; [|split]]].
  - set (s0 := lit_0 :: lit_0 :: rest).
    rewrite (two_coordinates Node_pt Pconv tol gnalc s0 _ _
               (coordinate_index_between tol s0 0 lit_0 0 0 eq_refl
                  ltac:(lia) eq_refl eq_refl eq_refl)
               (fun t => coordinate_index_between tol s0 1 lit_0 0 t eq_refl
                             ltac:(lia) eq_refl eq_refl eq_refl)).
    cbv zeta.
    change (d_sub (d_mul (d_mul lit_0_5 (d_add d_1 lit_0))
                         (double_of_int (2 - 1))) (double_of_int 0))
      with lit_0_5.
    change (d_sub d_1 lit_0_5) with lit_0_5.
    destruct (d_gtb lit_0_5 tol); reflexivity.
  - change (lit_minus_1 :: d_1 :: rest)
      with (end_of_range false :: end_of_range true :: rest).
    rewrite (Hends' false true).
    set (s0 := d_3 :: lit_minus_1 :: rest).
    rewrite (two_coordinates Node_pt Pconv d_1em14 gnalc s0 _ _
               (coordinate_index_between d_1em14 s0 0 d_3 2 0 eq_refl
                  ltac:(lia) eq_refl eq_refl eq_refl)
               (fun t => coordinate_index_end d_1em14 s0 1 false t eq_refl
                             ltac:(lia))).
    reflexivity.
  - change (lit_minus_1 :: lit_minus_1 :: rest)
      with (end_of_range false :: end_of_range false :: rest).
    rewrite (Hends' false false).
    set (s0 := just_below_1 :: lit_minus_1 :: rest).
    rewrite (two_coordinates Node_pt Pconv d_1em14 gnalc s0 _ _
               (coordinate_index_between d_1em14 s0 0 just_below_1 0 0
                  eq_refl ltac:(lia) eq_refl eq_refl eq_refl)
               (fun t => coordinate_index_end d_1em14 s0 1 false t eq_refl
                             ltac:(lia))).
    reflexivity.
  - unfold get_interpolating_node_at_local_coordinate.
    destruct (decide (value_id = 2)) as [->|Hne]; [|reflexivity].
    reflexivity.
  - reflexivity.
Qed.

End TaylorHoodNodesFacts.

Module PolarCRMoreFacts.
Import PolarCR PolarCRFacts.

Lemma set_pressure_value_Some (P : nat) (e e' : Element) (i : nat)
    (x : double) :
  set_pressure_value P e i x = Some e' ->
  exists d, internal_data_pt e P = Some d /\ (i < length (Value d))%nat
            /\ internal_data_pt e' P = Some (mkData (<[i := x]> (Value d))).
Proof.
  unfold set_pressure_value, set_value.
  destruct (internal_data_pt e P) as [d|] eqn:Hd; [|discriminate].
  cbn [mbind option_bind].
  destruct (decide (i < length (Value d))%nat) as [Hi|]; [|discriminate].
  cbn [mbind option_bind]. intros [= <-]. exists d.
  split; [reflexivity|]. split; [exact Hi|].
  apply (internal_data_pt_insert P _ d), Hd.
Qed.

Lemma set_three_values (P : nat) (this this' : Element)
    (x0 x1 x2 : double) :
  (this0 ← set_pressure_value P this 0 x0 ;
   this1 ← set_pressure_value P this0 1 x1 ;
   set_pressure_value P this1 2 x2) = Some this' ->
  exists d, internal_data_pt this P = Some d /\ (3 <= length (Value d))%nat.
Proof.
  intros Hr.
  destruct (set_pressure_value P this 0 x0) as [t0|] eqn:H0;
    [|discriminate].
  cbn [mbind option_bind] in Hr.
  destruct (set_pressure_value P t0 1 x1) as [t1|] eqn:H1; [|discriminate].
  cbn [mbind option_bind] in Hr.
  apply set_pressure_value_Some in H0 as (d & Hd & _ & Hd0).
  apply set_pressure_value_Some in H1 as (d0 & Hd0' & _ & Hd1).
  apply set_pressure_value_Some in Hr as (d1 & Hd1' & Hlen & _).
  assert (Hv0 : Value d0 = <[0%nat := x0]> (Value d)).
  { rewrite Hd0 in Hd0'. injection Hd0' as <-. reflexivity. }
  assert (Hv1 : Value d1 = <[1%nat := x1]> (Value d0)).
  { rewrite Hd1 in Hd1'. injection Hd1' as <-. reflexivity. }
  rewrite Hv1, Hv0, !length_insert in Hlen.
  exists d. split; [exact Hd | lia].
Qed.

(** X23.  When [rebuild_from_sons] is defined.  The call reads the
    central pressure of the sons [0] to [3] and writes the values [0],
    [1] and [2] of the father's pressure data: it has a result exactly
    if the father has pressure data with at least three values and each
    of the four sons exists and has pressure data with at least one
    value.  The result is then the father with these three values
    replaced: its other internal data and the other values of the
    pressure data are as before, and what the three values were before
    does not matter. *)
Theorem rebuild_from_sons_defined_iff
    (P : nat) (this : Element) (sons : list Element) :
  (is_Some (rebuild_from_sons P this sons) <->
   (exists d, internal_data_pt this P = Some d
              /\ (3 <= length (Value d))%nat)
   /\ Forall (fun ison => is_Some (son_central_pressure P sons ison))
             [0; 1; 2; 3])
  /\ match rebuild_from_sons P this sons with
     | Some this' =>
         length (Internal_data_pt this') = length (Internal_data_pt this)
         /\ (forall i, i <> P ->
               internal_data_pt this' i = internal_data_pt this i)
         /\ (forall d d', internal_data_pt this P = Some d ->
               internal_data_pt this' P = Some d' ->
               length (Value d') = length (Value d)
               /\ drop 3 (Value d') = drop 3 (Value d))
     | None => True
     end.
Proof.
  assert (Hvalues : forall d p0 p1 p2 p3,
    internal_data_pt this P = Some d -> (3 <= length (Value d))%nat ->
    son_central_pressure P sons 0 = Some p0 ->
    son_central_pressure P sons 1 = Some p1 ->
    son_central_pressure P sons 2 = Some p2 ->
    son_central_pressure P sons 3 = Some p3 ->
    exists x0 x1 x2,
      rebuild_from_sons P this sons =
      Some (with_pressure P this d x0 x1 x2)).
  { intros d p0 p1 p2 p3 Hd Hlen H0 H1 H2 H3. do 3 eexists.
    apply (rebuild_from_sons_values P this d sons p0 p1 p2 p3 Hd Hlen);
      assumption. }
  assert (Hdefined :
    is_Some (rebuild_from_sons P this sons) ->
    (exists d, internal_data_pt this P = Some d
               /\ (3 <= length (Value d))%nat)
    /\ Forall (fun ison => is_Some (son_central_pressure P sons ison))
              [0; 1; 2; 3]).
  { clear Hvalues. intros [this' Hr]. unfold rebuild_from_sons in Hr.
    cbn [add_sons_pressure] in Hr.
    change QuadTreeNames.SW with 0 in Hr.
    change QuadTreeNames.SE with 1 in Hr.
    change QuadTreeNames.NW with 2 in Hr.
    change QuadTreeNames.NE with 3 in Hr.
    destruct (son_central_pressure P sons 0) as [p0|] eqn:H0;
      [|discriminate].
    destruct (son_central_pressure P sons 1) as [p1|] eqn:H1;
      [|discriminate].
    destruct (son_central_pressure P sons 2) as [p2|] eqn:H2;
      [|discriminate].
    destruct (son_central_pressure P sons 3) as [p3|] eqn:H3;
      [|discriminate].
    cbn [mbind option_bind] in Hr.
    split; [apply (set_three_values _ _ _ _ _ _ Hr)|].
    repeat (apply Forall_cons; split; [eexists; eassumption|]).
    apply Forall_nil. exact I. }
  split; [split; [exact Hdefined|]|].
  - intros [(d & Hd & Hlen) Hsons].
    rewrite !Forall_cons in Hsons.
    destruct Hsons as ([p0 H0] & [p1 H1] & [p2 H2] & [p3 H3] & _).
    destruct (Hvalues d p0 p1 p2 p3 Hd Hlen H0 H1 H2 H3)
      as (x0 & x1 & x2 & ->).
    eexists. reflexivity.
  - destruct (rebuild_from_sons P this sons) as [this'|] eqn:Hr; [|exact I].
    destruct (Hdefined (ex_intro _ this' eq_refl))
      as [(d & Hd & Hlen) Hsons].
    rewrite !Forall_cons in Hsons.
    destruct Hsons as ([p0 H0] & [p1 H1] & [p2 H2] & [p3 H3] & _).
    destruct (Hvalues d p0 p1 p2 p3 Hd Hlen H0 H1 H2 H3)
      as (x0 & x1 & x2 & Hr').
    injection Hr' as ->.
    unfold with_pressure, internal_data_pt. cbn [Internal_data_pt].
    split; [apply length_insert|]. split.
    + intros i Hi. apply list_lookup_insert_ne. congruence.
    + intros d0 d' Hd0 Hd'. unfold internal_data_pt in Hd, Hd0.
      rewrite Hd in Hd0. injection Hd0 as <-.
      rewrite list_lookup_insert_eq in Hd'
        by (eapply lookup_lt_Some, Hd).
      injection Hd' as <-. cbn [Value].
      split; [rewrite !length_insert; reflexivity|].
      rewrite !drop_insert_lt by lia. reflexivity.
Qed.

Lemma split_then_merge_restores_pressure_witness :
  rebuild_from_sons 0 (some_element one_and_a_half lit_0 lit_0)
    [some_element one_and_a_half lit_0 lit_0;
     some_element one_and_a_half lit_0 lit_0;
     some_element one_and_a_half lit_0 lit_0;
     some_element one_and_a_half lit_0 lit_0] =
    Some (with_pressure 0 (some_element one_and_a_half lit_0 lit_0)
            (mkData [one_and_a_half; lit_0; lit_0])
            (plus_zero one_and_a_half) lit_0 lit_0)
  /\ (plus_zero one_and_a_half = one_and_a_half ->
      rebuild_from_sons 0 (some_element one_and_a_half lit_0 lit_0)
        [some_element one_and_a_half lit_0 lit_0;
         some_element one_and_a_half lit_0 lit_0;
         some_element one_and_a_half lit_0 lit_0;
         some_element one_and_a_half lit_0 lit_0] =
      Some (some_element one_and_a_half lit_0 lit_0)).
Proof.
  apply (split_then_merge_restores_pressure
           0 (fun _ _ => one_and_a_half)
           (some_element one_and_a_half lit_0 lit_0)
           (mkData [one_and_a_half; lit_0; lit_0]) one_and_a_half []
           (some_element lit_0_5 lit_0_5 lit_0_5)
           (some_element lit_0_5 lit_0_5 lit_0_5)
           (some_element lit_0_5 lit_0_5 lit_0_5)
           (some_element lit_0_5 lit_0_5 lit_0_5)).
  - reflexivity.
  - reflexivity.
  - intros son_type. reflexivity.
  - reflexivity.
  - repeat (apply Forall_cons; split;
            [exists (mkData [lit_0_5; lit_0_5; lit_0_5]);
             split; [reflexivity | cbn; lia]|]).
    apply Forall_nil. exact I.
  - reflexivity.
  - reflexivity.
  - reflexivity.
  - reflexivity.
Defined.

End PolarCRMoreFacts.
